(** * The log sequencer (log/sequencer.go)

    A shallow embedding of the sequencer of the transparency log: the code
    that drains the queue of pending leaves, extends the compact Merkle tree,
    writes the changed nodes at the new tree revision and stores a freshly
    signed tree head, all inside one storage transaction.

    The sequencer talks to three collaborators through Go interfaces
    (storage.LogStorage / storage.LogTX, crypto.KeyManager, util.TimeSource).
    Their answers are not determined by the sequencer, so the embedding
    represents a sequencer function as a tree of calls ([Prog]): every call
    names the operation and continues with whatever the collaborator
    answers.  A run of such a tree against an arbitrary environment yields
    the returned value (or a panic) and the trace of calls that were made. *)

From Stdlib Require Import ZArith.
From Stdlib.Strings Require Import Byte.
From stdpp Require Import gmap strings pretty list fin_maps.

Local Open Scope Z_scope.

(** ** Basic data *)

(** trillian.Hash is []byte *)
Definition Hash := list byte.

#[global] Instance byte_eq_dec : EqDecision byte := Byte.byte_eq_dec.

(** Go's int64 addition wraps around. *)
Definition wrap64 (z : Z) : Z := (z + 2 ^ 63) `mod` 2 ^ 64 - 2 ^ 63.
Definition add64 (a b : Z) : Z := wrap64 (a + b).

(** merkle.TreeHasher: the hash function is a collaborator of the sequencer *)
Record TreeHasher := {
  HashEmpty : Hash;
  HashLeaf : list byte -> Hash;
  HashChildren : Hash -> Hash -> Hash
}.

(** maxTreeDepth sets an upper limit on the size of Log trees. *)
Definition maxTreeDepth : Z := 64.

(** A Go slice that may be nil. *)
Definition slice (A : Type) := option (list A).
Definition slice_is_nil {A} (s : slice A) : bool :=
  match s with None => true | Some _ => false end.
Definition slice_len {A} (s : slice A) : Z :=
  match s with None => 0 | Some l => Z.of_nat (length l) end.

(** Transaction handles, as returned by LogStorage.Begin. *)
Definition TX := Z.

Inductive Outcome (A : Type) : Type :=
| Done (a : A)
| Panicked (msg : string).
Arguments Done {A} a.
Arguments Panicked {A} msg.

(** Go error values.  [Err] stands for an error made by a collaborator; the
    others are the errors the code of this file (and of the compact tree)
    makes itself, with the arguments of their format strings: the number of
    nodes retrieved, nodeId.String() and the revision for
    "Did not retrieve one node while loading CompactMerkleTree", got and
    want for "got writeRevision of %d, but expected %d". *)
Inductive error :=
| Err (msg : string)
| ErrNodeCount (got : Z) (id : string) (treeRevision : Z)
| ErrWriteRevision (got want : Z)
| ErrCorruptState.

Inductive result (A : Type) : Type :=
| Ok (a : A)
| Error (err : error).
Arguments Ok {A} a.
Arguments Error {A} err.

(** Types and functions of the storage, crypto and trillian packages that
    the sequencer uses but does not define. *)
Class Packages := {
  NodeID : Type;
  LogID : Type;
  DigitallySigned : Type;
  CryptoSigner : Type;
  NewNodeIDForTreeCoords : Z -> Z -> Z -> result NodeID;
  NodeID_String : NodeID -> string
}.

Section Sequencer.

Context `{pkg : Packages}.

Record Node := {
  Node_NodeID : NodeID;
  Node_Hash : Hash;
  NodeRevision : Z
}.

Record LogLeaf := {
  LeafHash : Hash;
  LeafValue : list byte;
  ExtraData : list byte;
  SequenceNumber : Z
}.

Record SignedLogRoot := {
  TimestampNanos : Z;
  RootHash : Hash;
  TreeSize : Z;
  Signature : option DigitallySigned;
  LogId : LogID;
  TreeRevision : Z
}.

(** ** Calls to the collaborators *)

Inductive Op : Type -> Type :=
| Begin : Op (result TX)
| DequeueLeaves (tx : TX) (limit : Z) : Op (result (list LogLeaf))
| LatestSignedLogRoot (tx : TX) : Op (result SignedLogRoot)
| GetMerkleNodes (tx : TX) (treeRevision : Z) (ids : list NodeID)
    : Op (result (slice Node))
| WriteRevision (tx : TX) : Op Z
| UpdateSequencedLeaves (tx : TX) (leaves : list LogLeaf) : Op (option error)
| SetMerkleNodes (tx : TX) (nodes : list Node) : Op (option error)
| StoreSignedLogRoot (tx : TX) (root : SignedLogRoot) : Op (option error)
| Commit (tx : TX) : Op (option error)
| Rollback (tx : TX) : Op (option error)
| KeyManager_Signer : Op (result CryptoSigner)
| SignLogRoot (signer : CryptoSigner) (root : SignedLogRoot)
    : Op (result DigitallySigned)
| Now_UnixNano : Op Z.

Inductive Prog (A : Type) : Type :=
| Ret (a : A)
| Panic (msg : string)
| Call {X : Type} (op : Op X) (k : X -> Prog A).
#[global] Arguments Ret {A} a.
#[global] Arguments Panic {A} msg.
#[global] Arguments Call {A X} op k.

Fixpoint bind {A B} (p : Prog A) (f : A -> Prog B) : Prog B :=
  match p with
  | Ret a => f a
  | Panic msg => Panic msg
  | Call op k => Call op (fun x => bind (k x) f)
  end.

Definition call {X} (op : Op X) : Prog X := Call op Ret.

Notation "'let*' x ':=' p 'in' q" := (bind p (fun x => q))
  (at level 10, x name, p at level 100, q at level 200,
   format "'[v' 'let*'  x  ':='  p  'in' '/' q ']'").

(** One call together with the answer it got. *)
Inductive event : Type :=
| Ev {X : Type} (op : Op X) (resp : X).

(** The environment: what a collaborator answers, given everything that
    happened before. *)
Definition Oracle := list event -> forall X, Op X -> X.

Fixpoint exec {A} (o : Oracle) (p : Prog A) (hist : list event)
  : Outcome A * list event :=
  match p with
  | Ret a => (Done a, hist)
  | Panic msg => (Panicked msg, hist)
  | Call op k => let x := o hist _ op in exec o (k x) (hist ++ [Ev op x])
  end.

Definition run {A} (o : Oracle) (p : Prog A) : Outcome A * list event :=
  exec o p [].

(** [runs p tr out]: [tr] is a possible trace of [p], ending in [out]. *)
Fixpoint runs {A} (p : Prog A) (tr : list event) (out : Outcome A) : Prop :=
  match p with
  | Ret a => tr = [] /\ out = Done a
  | Panic msg => tr = [] /\ out = Panicked msg
  | Call op k => exists x tr', tr = Ev op x :: tr' /\ runs (k x) tr' out
  end.

(** ** The compact Merkle tree (package merkle) *)

(** Modelled from the spec: merkle.CompactMerkleTree, whose source is not
    part of the files at hand.  The state is the tree size and the spine,
    indexed by level, a level being occupied iff the corresponding bit of
    the size is set. *)
Record CompactMerkleTree := {
  cmt_hasher : TreeHasher;
  cmt_size : Z;
  cmt_spine : list (option Hash)
}.

(** Modelled from the spec: new_empty, size = 0 and spine = []. *)
Definition NewCompactMerkleTree (h : TreeHasher) : CompactMerkleTree :=
  {| cmt_hasher := h; cmt_size := 0; cmt_spine := [] |}.

(** Modelled from the spec: the size of the tree is part of its state. *)
Definition Size (t : CompactMerkleTree) : Z := cmt_size t.

(** Modelled from the spec: current_root folds the spine from the lowest
    level upward with hash_children; the empty spine gives empty_root. *)
Definition CurrentRoot (t : CompactMerkleTree) : Hash :=
  match omap id (cmt_spine t) with
  | [] => HashEmpty (cmt_hasher t)
  | low :: higher =>
      foldl (fun acc left => HashChildren (cmt_hasher t) left acc) low higher
  end.

(** Modelled from the spec: the loop of append.  The running hash is
    combined up the spine as long as the lowest bit of the (shifted) size
    is 1, and every intermediate hash is handed to [emit] with its depth and
    its horizontal index.  [emit] is a Go closure: its captured variables
    are the state [S] it transforms. *)
Fixpoint combineUp {S} (h : TreeHasher) (emit : Z -> Z -> Hash -> S -> S)
    (seq : Z) (spine : list (option Hash)) (t level : Z) (running : Hash)
    (st : S) : list (option Hash) * S :=
  match spine with
  | [] => ([Some running], st)
  | slot :: rest =>
      if Z.odd t then
        let running' := HashChildren h (default [] slot) running in
        let st' := emit (level + 1) (Z.shiftr seq (level + 1)) running' st in
        let '(rest', st'') :=
          combineUp h emit seq rest (Z.shiftr t 1) (level + 1) running' st' in
        (None :: rest', st'')
      else (Some running :: rest, st)
  end.

(** Modelled from the spec: append returns the sequence number assigned
    (the old size) and increases the size by 1.  The tree is a Go pointer,
    so the updated tree is returned next to the sequence number. *)
Definition AddLeafHash {S} (t : CompactMerkleTree) (leafHash : Hash)
    (emit : Z -> Z -> Hash -> S -> S) (st : S) : CompactMerkleTree * Z * S :=
  let seq := cmt_size t in
  let '(spine', st') :=
    combineUp (cmt_hasher t) emit seq (cmt_spine t) seq 0 leafHash st in
  ({| cmt_hasher := cmt_hasher t; cmt_size := seq + 1; cmt_spine := spine' |},
   seq, st').

(** Modelled from the spec: the levels 0..floor(log2 size) that the spine of
    a tree of the given size has. *)
Definition bitLen (size : Z) : nat :=
  if 0 <? size then Z.to_nat (Z.log2 size + 1) else 0%nat.

(** Modelled from the spec: new_with_state fetches, for each bit set in the
    size at level L, the hash of the subtree root at that level. *)
Fixpoint fetchSpine (f : Z -> Z -> Prog (result Hash)) (size : Z)
    (levels : nat) (level : Z) : Prog (result (list (option Hash))) :=
  match levels with
  | O => Ret (Ok [])
  | S levels' =>
      if Z.testbit size level then
        let* r := f level (Z.shiftr size level - 1) in
        match r with
        | Error err => Ret (Error err)
        | Ok h =>
            let* r' := fetchSpine f size levels' (level + 1) in
            match r' with
            | Error err => Ret (Error err)
            | Ok spine => Ret (Ok (Some h :: spine))
            end
        end
      else
        let* r' := fetchSpine f size levels' (level + 1) in
        match r' with
        | Error err => Ret (Error err)
        | Ok spine => Ret (Ok (None :: spine))
        end
  end.

(** Modelled from the spec: new_with_state verifies that the spine
    reproduces the expected root and fails with CORRUPT_STATE otherwise. *)
Definition NewCompactMerkleTreeWithState (h : TreeHasher) (size : Z)
    (f : Z -> Z -> Prog (result Hash)) (expectedRoot : Hash)
  : Prog (result CompactMerkleTree) :=
  let* r := fetchSpine f size (bitLen size) 0 in
  match r with
  | Error err => Ret (Error err)
  | Ok spine =>
      let t := {| cmt_hasher := h; cmt_size := size; cmt_spine := spine |} in
      if bool_decide (CurrentRoot t = expectedRoot) then Ret (Ok t)
      else Ret (Error ErrCorruptState)
  end.

(** ** The sequencer *)

(** The fields timeSource, logStorage and keyManager are the collaborators
    reached through [Op]. *)
Record Sequencer := { hasher : TreeHasher }.

(** The closure handed to NewCompactMerkleTreeWithState in
    buildMerkleTreeFromStorageAtRoot; it captures root and tx. *)
Definition getNode (root : SignedLogRoot) (tx : TX) (depth index : Z)
  : Prog (result Hash) :=
  match NewNodeIDForTreeCoords depth index maxTreeDepth with
  | Error err => Ret (Error err)
  | Ok nodeId =>
      let* r := call (GetMerkleNodes tx (TreeRevision root) [nodeId]) in
      match r with
      | Error err => Ret (Error err)
      | Ok nodes =>
          (* We expect to get exactly one node here *)
          if slice_is_nil nodes || negb (slice_len nodes =? 1) then
            Ret (Error (ErrNodeCount (slice_len nodes) (NodeID_String nodeId)
                                     (TreeRevision root)))
          else
            match nodes with
            | Some (node :: _) => Ret (Ok (Node_Hash node))
            | _ => Panic "index out of range"
            end
      end
  end.

Definition buildMerkleTreeFromStorageAtRoot (s : Sequencer)
    (root : SignedLogRoot) (tx : TX) : Prog (result CompactMerkleTree) :=
  NewCompactMerkleTreeWithState (hasher s) (TreeSize root) (getNode root tx)
    (RootHash root).

(** Go ranges over the map in an unspecified order; the embedding takes the
    order of [map_to_list]. *)
Definition buildNodesFromNodeMap (s : Sequencer) (nodeMap : gmap string Node)
    (newVersion : Z) : result (list Node) :=
  Ok (map (fun kv : string * Node =>
             {| Node_NodeID := Node_NodeID kv.2;
                Node_Hash := Node_Hash kv.2;
                NodeRevision := newVersion |})
          (map_to_list nodeMap)).

(** The closure handed to AddLeafHash in sequenceLeaves; it captures
    nodeMap. *)
Definition recordNode (depth index : Z) (hash : Hash)
    (nodeMap : gmap string Node) : gmap string Node :=
  match NewNodeIDForTreeCoords depth index maxTreeDepth with
  | Error err => nodeMap
  | Ok nodeId =>
      <[NodeID_String nodeId :=
          {| Node_NodeID := nodeId; Node_Hash := hash; NodeRevision := 0 |}]>
        nodeMap
  end.

(** The loop of sequenceLeaves. *)
Fixpoint sequenceLeaves_loop (mt : CompactMerkleTree) (leaves : list LogLeaf)
    (nodeMap : gmap string Node) (sequenceNumbers : list Z)
  : CompactMerkleTree * result (gmap string Node * list Z) :=
  match leaves with
  | [] => (mt, Ok (nodeMap, sequenceNumbers))
  | leaf :: leaves' =>
      let '(mt', seq, nodeMap') :=
        AddLeafHash mt (LeafHash leaf) recordNode nodeMap in
      (* store leaf hash in the merkle tree too: *)
      match NewNodeIDForTreeCoords 0 seq maxTreeDepth with
      | Error err => (mt', Error err)
      | Ok leafNodeID =>
          sequenceLeaves_loop mt' leaves'
            (<[NodeID_String leafNodeID :=
                 {| Node_NodeID := leafNodeID; Node_Hash := LeafHash leaf;
                    NodeRevision := 0 |}]> nodeMap')
            (sequenceNumbers ++ [seq])
      end
  end.

(** mt is a pointer in Go: the tree as the loop left it is returned too. *)
Definition sequenceLeaves (s : Sequencer) (mt : CompactMerkleTree)
    (leaves : list LogLeaf)
  : CompactMerkleTree * result (gmap string Node * list Z) :=
  sequenceLeaves_loop mt leaves ∅ [].

Definition initMerkleTreeFromStorage (s : Sequencer)
    (currentRoot : SignedLogRoot) (tx : TX)
  : Prog (result CompactMerkleTree) :=
  if TreeSize currentRoot =? 0 then Ret (Ok (NewCompactMerkleTree (hasher s)))
  else
    (* Initialize the compact tree state to match the latest root in the
       database *)
    buildMerkleTreeFromStorageAtRoot s currentRoot tx.

Definition signRoot (s : Sequencer) (root : SignedLogRoot)
  : Prog (result DigitallySigned) :=
  let* r := call KeyManager_Signer in
  match r with
  | Error err => Ret (Error err)
  | Ok signer =>
      let* r' := call (SignLogRoot signer root) in
      match r' with
      | Error err => Ret (Error err)
      | Ok signature => Ret (Ok signature)
      end
  end.

Definition withSignature (root : SignedLogRoot) (signature : DigitallySigned)
  : SignedLogRoot :=
  {| TimestampNanos := TimestampNanos root; RootHash := RootHash root;
     TreeSize := TreeSize root; Signature := Some signature;
     LogId := LogId root; TreeRevision := TreeRevision root |}.

(** SignRoot wraps up all the operations for creating a new log signed
    root. *)
Definition SignRoot (s : Sequencer) : Prog (option error) :=
  let* r := call Begin in
  match r with
  | Error err => Ret (Some err)
  | Ok tx =>
    (* Get the latest known root from storage *)
    let* r := call (LatestSignedLogRoot tx) in
    match r with
    | Error err => let* _ := call (Rollback tx) in Ret (Some err)
    | Ok currentRoot =>
      let* r := initMerkleTreeFromStorage s currentRoot tx in
      match r with
      | Error err => let* _ := call (Rollback tx) in Ret (Some err)
      | Ok merkleTree =>
        (* Build the updated root, ready for signing *)
        let* now := call Now_UnixNano in
        let newLogRoot :=
          {| RootHash := CurrentRoot merkleTree;
             TimestampNanos := now;
             TreeSize := Size merkleTree;
             LogId := LogId currentRoot;
             TreeRevision := add64 (TreeRevision currentRoot) 1;
             Signature := None |} in
        (* Hash and sign the root *)
        let* r := signRoot s newLogRoot in
        match r with
        | Error err => let* _ := call (Rollback tx) in Ret (Some err)
        | Ok signature =>
          let newLogRoot := withSignature newLogRoot signature in
          (* Store the new root and we're done *)
          let* e := call (StoreSignedLogRoot tx newLogRoot) in
          match e with
          | Some err => let* _ := call (Rollback tx) in Ret (Some err)
          | None => call (Commit tx)
          end
        end
      end
    end
  end.

(** The leaf with its SequenceNumber field assigned. *)
Definition withSequenceNumber (leaf : LogLeaf) (seq : Z) : LogLeaf :=
  {| LeafHash := LeafHash leaf; LeafValue := LeafValue leaf;
     ExtraData := ExtraData leaf; SequenceNumber := seq |}.

(** leaves[index].SequenceNumber = sequenceNumbers[index], for the indices
    of sequenceNumbers from [index] on; None is Go's index-out-of-range
    panic. *)
Fixpoint assignSequenceNumbers (leaves : list LogLeaf)
    (sequenceNumbers : list Z) (index : nat) : option (list LogLeaf) :=
  match sequenceNumbers with
  | [] => Some leaves
  | seq :: rest =>
      match leaves !! index with
      | None => None
      | Some leaf =>
          assignSequenceNumbers
            (<[index := withSequenceNumber leaf seq]> leaves)
            rest (S index)
      end
  end.

(** SequenceBatch from the check of the sequence numbers (line 213) to its
    end: what is done once sequenceLeaves has returned without error. *)
Definition SequenceBatch_store (s : Sequencer) (tx : TX)
    (leaves : list LogLeaf) (currentRoot : SignedLogRoot)
    (merkleTree : CompactMerkleTree) (newVersion : Z)
    (nodeMap : gmap string Node) (sequenceNumbers : list Z)
  : Prog (Z * option error) :=
  if negb (length sequenceNumbers =? length leaves)%nat then
    Panic "Sequencer returned the wrong number of sequence numbers"
  else
    match assignSequenceNumbers leaves sequenceNumbers 0 with
    | None => Panic "index out of range"
    | Some leaves =>
      (* Write the new sequence numbers to the leaves in the DB *)
      let* e := call (UpdateSequencedLeaves tx leaves) in
      match e with
      | Some err => let* _ := call (Rollback tx) in Ret (0, Some err)
      | None =>
        match buildNodesFromNodeMap s nodeMap newVersion with
        | Error err => let* _ := call (Rollback tx) in Ret (0, Some err)
        | Ok targetNodes =>
          (* Now insert or update the nodes affected by the above, at the
             new tree version *)
          let* e := call (SetMerkleNodes tx targetNodes) in
          match e with
          | Some err => let* _ := call (Rollback tx) in Ret (0, Some err)
          | None =>
            (* Create the log root ready for signing *)
            let* now := call Now_UnixNano in
            let newLogRoot :=
              {| RootHash := CurrentRoot merkleTree;
                 TimestampNanos := now;
                 TreeSize := Size merkleTree;
                 LogId := LogId currentRoot;
                 TreeRevision := newVersion;
                 Signature := None |} in
            (* Hash and sign the root, update it with the signature *)
            let* r := signRoot s newLogRoot in
            match r with
            | Error err => let* _ := call (Rollback tx) in Ret (0, Some err)
            | Ok signature =>
              let newLogRoot := withSignature newLogRoot signature in
              let* e := call (StoreSignedLogRoot tx newLogRoot) in
              match e with
              | Some err => let* _ := call (Rollback tx) in Ret (0, Some err)
              | None =>
                (* The batch is now fully sequenced and we're done *)
                let* e := call (Commit tx) in
                match e with
                | Some err => Ret (0, Some err)
                | None => Ret (Z.of_nat (length leaves), None)
                end
              end
            end
          end
        end
      end
    end.

(** SequenceBatch wraps up all the operations needed to take a batch of
    queued leaves and integrate them into the tree. *)
Definition SequenceBatch (s : Sequencer) (limit : Z)
    (expiryFunc : SignedLogRoot -> bool) : Prog (Z * option error) :=
  let* r := call Begin in
  match r with
  | Error err => Ret (0, Some err)
  | Ok tx =>
    let* r := call (DequeueLeaves tx limit) in
    match r with
    | Error err => let* _ := call (Rollback tx) in Ret (0, Some err)
    | Ok leaves =>
      (* Get the latest known root from storage *)
      let* r := call (LatestSignedLogRoot tx) in
      match r with
      | Error err => let* _ := call (Rollback tx) in Ret (0, Some err)
      | Ok currentRoot =>
        (* There might be no work to be done. But we possibly still need to
           create an STH if the current one is too old. *)
        if (length leaves =? 0)%nat then
          (* We have nothing to integrate into the tree *)
          let* _ := call (Commit tx) in
          if expiryFunc currentRoot then
            (* Current root is too old, sign one. Will use a new TX *)
            let* e := SignRoot s in Ret (0, e)
          else Ret (0, None)
        else
          let* r := initMerkleTreeFromStorage s currentRoot tx in
          match r with
          | Error err => let* _ := call (Rollback tx) in Ret (0, Some err)
          | Ok merkleTree =>
            (* We've done all the reads, can now do the updates. *)
            let* newVersion := call (WriteRevision tx) in
            let want := add64 (TreeRevision currentRoot) 1 in
            if negb (newVersion =? want) then
              let* _ := call (Rollback tx) in
              Ret (0, Some (ErrWriteRevision newVersion want))
            else
              (* Assign leaf sequence numbers and collate node updates *)
              let '(merkleTree, r) := sequenceLeaves s merkleTree leaves in
              match r with
              | Error err => let* _ := call (Rollback tx) in Ret (0, Some err)
              | Ok (nodeMap, sequenceNumbers) =>
                  SequenceBatch_store s tx leaves currentRoot merkleTree
                    newVersion nodeMap sequenceNumbers
              end
          end
      end
    end
  end.

(** ** Reading traces *)

Definition is_commit (e : event) : bool :=
  match e with Ev op _ => match op with Commit _ => true | _ => false end end.

Definition is_rollback (e : event) : bool :=
  match e with Ev op _ => match op with Rollback _ => true | _ => false end end.

(** Calls that write leaves, nodes or a tree head. *)
Definition is_write (e : event) : bool :=
  match e with
  | Ev op _ =>
      match op with
      | UpdateSequencedLeaves _ _ | SetMerkleNodes _ _
      | StoreSignedLogRoot _ _ => true
      | _ => false
      end
  end.

Definition is_get_nodes (e : event) : bool :=
  match e with
  | Ev op _ => match op with GetMerkleNodes _ _ _ => true | _ => false end
  end.

Definition is_signing (e : event) : bool :=
  match e with
  | Ev op _ =>
      match op with KeyManager_Signer | SignLogRoot _ _ => true | _ => false end
  end.

Definition result_error {A} (r : result A) : option error :=
  match r with Ok _ => None | Error err => Some err end.

(** The error a call came back with, if it failed. *)
Definition failure (e : event) : option error :=
  match e with
  | Ev op resp =>
      match op in Op X return X -> option error with
      | Begin => result_error
      | DequeueLeaves _ _ => result_error
      | LatestSignedLogRoot _ => result_error
      | GetMerkleNodes _ _ _ => result_error
      | WriteRevision _ => fun _ => None
      | UpdateSequencedLeaves _ _ => fun r => r
      | SetMerkleNodes _ _ => fun r => r
      | StoreSignedLogRoot _ _ => fun r => r
      | Commit _ => fun r => r
      | Rollback _ => fun r => r
      | KeyManager_Signer => result_error
      | SignLogRoot _ _ => result_error
      | Now_UnixNano => fun _ => None
      end resp
  end.

(** The first failed call of a trace, looking no further than the first
    Commit or Rollback. *)
Fixpoint first_failure (tr : list event) : option error :=
  match tr with
  | [] => None
  | e :: tr' =>
      if is_commit e || is_rollback e then None
      else match failure e with
           | Some err => Some err
           | None => first_failure tr'
           end
  end.

Definition calls_commit (tr : list event) : bool := existsb is_commit tr.
Definition calls_rollback (tr : list event) : bool := existsb is_rollback tr.
Definition writes (tr : list event) : bool := existsb is_write tr.

(** What a call says about the tree head it stores, the write revision it
    reports, the leaves it writes, the nodes it was answered. *)
Definition stored_root (e : event) : option (TX * SignedLogRoot) :=
  match e with
  | Ev op _ =>
      match op with StoreSignedLogRoot tx r => Some (tx, r) | _ => None end
  end.

Definition loaded_root (e : event) : option (TX * SignedLogRoot) :=
  match e with
  | Ev op resp =>
      match op in Op X return X -> option (TX * SignedLogRoot) with
      | LatestSignedLogRoot tx =>
          fun r => match r with
                   | Ok root => Some (tx, root)
                   | Error _ => None
                   end
      | _ => fun _ => None
      end resp
  end.

Definition reported_revision (e : event) : option (TX * Z) :=
  match e with
  | Ev op resp =>
      match op in Op X return X -> option (TX * Z) with
      | WriteRevision tx => fun w => Some (tx, w)
      | _ => fun _ => None
      end resp
  end.

Definition updated_leaves (e : event) : option (TX * list LogLeaf) :=
  match e with
  | Ev op _ =>
      match op with UpdateSequencedLeaves tx l => Some (tx, l) | _ => None end
  end.

Definition answered_nodes (e : event)
  : option (TX * Z * list NodeID * slice Node) :=
  match e with
  | Ev op resp =>
      match op in Op X return X -> option (TX * Z * list NodeID * slice Node)
      with
      | GetMerkleNodes tx rev ids =>
          fun r => match r with
                   | Ok nodes => Some (tx, rev, ids, nodes)
                   | Error _ => None
                   end
      | _ => fun _ => None
      end resp
  end.

(** ** The storage engine *)

(** Modelled from the spec: the storage engine behind storage.LogTX, which
    is not part of the files at hand.  A transaction works on a copy of the
    committed state; a successful Commit installs the copy, a Rollback (or a
    failed Commit) discards it.  The state of the storage after a run is read
    off the trace of the run. *)
Record Store := {
  st_queue : list LogLeaf;
  st_leaves : list LogLeaf;
  st_nodes : list Node;
  st_roots : list SignedLogRoot
}.

Record Storage := {
  committed : Store;
  pending : gmap Z Store
}.

(** Modelled from the spec: what a call does to the storage.  Writes go to
    the copy of their transaction; reads and the calls of the signer and of
    the clock change nothing. *)
Definition in_tx (tx : TX) (f : Store -> Store) (w : Storage) : Storage :=
  {| committed := committed w; pending := alter f tx (pending w) |}.

Definition close_tx (tx : TX) (w : Storage) : Storage :=
  {| committed := committed w; pending := delete tx (pending w) |}.

Definition apply_event (w : Storage) (e : event) : Storage :=
  match e with
  | Ev op resp =>
      match op in Op X return X -> Storage with
      | Begin => fun r =>
          match r with
          | Ok tx => {| committed := committed w;
                        pending := <[tx := committed w]> (pending w) |}
          | Error _ => w
          end
      | DequeueLeaves tx _ => fun r =>
          match r with
          | Ok ls =>
              in_tx tx (fun st =>
                {| st_queue := drop (length ls) (st_queue st);
                   st_leaves := st_leaves st; st_nodes := st_nodes st;
                   st_roots := st_roots st |}) w
          | Error _ => w
          end
      | UpdateSequencedLeaves tx ls => fun r =>
          match r with
          | None =>
              in_tx tx (fun st =>
                {| st_queue := st_queue st;
                   st_leaves := st_leaves st ++ ls; st_nodes := st_nodes st;
                   st_roots := st_roots st |}) w
          | Some _ => w
          end
      | SetMerkleNodes tx ns => fun r =>
          match r with
          | None =>
              in_tx tx (fun st =>
                {| st_queue := st_queue st;
                   st_leaves := st_leaves st; st_nodes := st_nodes st ++ ns;
                   st_roots := st_roots st |}) w
          | Some _ => w
          end
      | StoreSignedLogRoot tx root => fun r =>
          match r with
          | None =>
              in_tx tx (fun st =>
                {| st_queue := st_queue st;
                   st_leaves := st_leaves st; st_nodes := st_nodes st;
                   st_roots := st_roots st ++ [root] |}) w
          | Some _ => w
          end
      | Commit tx => fun r =>
          match r, pending w !! tx with
          | None, Some st =>
              {| committed := st; pending := delete tx (pending w) |}
          | _, _ => close_tx tx w
          end
      | Rollback tx => fun _ => close_tx tx w
      | _ => fun _ => w
      end resp
  end.

Definition replay (w : Storage) (tr : list event) : Storage :=
  foldl apply_event w tr.

(** An event as a first-order value: the call and its answer side by
    side. *)
Inductive call_record : Type :=
| Begin_r (r : result TX)
| DequeueLeaves_r (tx : TX) (limit : Z) (r : result (list LogLeaf))
| LatestSignedLogRoot_r (tx : TX) (r : result SignedLogRoot)
| GetMerkleNodes_r (tx : TX) (treeRevision : Z) (ids : list NodeID)
    (r : result (slice Node))
| WriteRevision_r (tx : TX) (r : Z)
| UpdateSequencedLeaves_r (tx : TX) (leaves : list LogLeaf) (r : option error)
| SetMerkleNodes_r (tx : TX) (nodes : list Node) (r : option error)
| StoreSignedLogRoot_r (tx : TX) (root : SignedLogRoot) (r : option error)
| Commit_r (tx : TX) (r : option error)
| Rollback_r (tx : TX) (r : option error)
| KeyManager_Signer_r (r : result CryptoSigner)
| SignLogRoot_r (signer : CryptoSigner) (root : SignedLogRoot)
    (r : result DigitallySigned)
| Now_UnixNano_r (r : Z).

Definition record (e : event) : call_record :=
  match e with
  | Ev op resp =>
      match op in Op X return X -> call_record with
      | Begin => Begin_r
      | DequeueLeaves tx limit => DequeueLeaves_r tx limit
      | LatestSignedLogRoot tx => LatestSignedLogRoot_r tx
      | GetMerkleNodes tx rev ids => GetMerkleNodes_r tx rev ids
      | WriteRevision tx => WriteRevision_r tx
      | UpdateSequencedLeaves tx leaves => UpdateSequencedLeaves_r tx leaves
      | SetMerkleNodes tx nodes => SetMerkleNodes_r tx nodes
      | StoreSignedLogRoot tx root => StoreSignedLogRoot_r tx root
      | Commit tx => Commit_r tx
      | Rollback tx => Rollback_r tx
      | KeyManager_Signer => KeyManager_Signer_r
      | SignLogRoot signer root => SignLogRoot_r signer root
      | Now_UnixNano => Now_UnixNano_r
      end resp
  end.

(** ** What sequenceLeaves records *)

(** A closure that keeps every triple it is handed, and the triples that an
    append hands out. *)
Definition keep (depth index : Z) (hash : Hash) (l : list (Z * Z * Hash))
  : list (Z * Z * Hash) := l ++ [(depth, index, hash)].

Definition emitted (t : CompactMerkleTree) (leafHash : Hash)
  : list (Z * Z * Hash) := (AddLeafHash t leafHash keep []).2.

Definition appended (t : CompactMerkleTree) (leafHash : Hash)
  : CompactMerkleTree := (AddLeafHash t leafHash keep []).1.1.

(** The node updates of a batch, in the order sequenceLeaves meets them:
    for each leaf the triples emitted by its append, then its leaf-level
    node. *)
Fixpoint node_updates (t : CompactMerkleTree) (leaves : list LogLeaf)
  : list (Z * Z * Hash) :=
  match leaves with
  | [] => []
  | leaf :: leaves' =>
      emitted t (LeafHash leaf) ++ (0, Size t, LeafHash leaf)
        :: node_updates (appended t (LeafHash leaf)) leaves'
  end.

Definition recordAll (updates : list (Z * Z * Hash))
    (nodeMap : gmap string Node) : gmap string Node :=
  foldl (fun m u => recordNode u.1.1 u.1.2 u.2 m) nodeMap updates.

(** ** Shapes of traces *)

(** A node fetch that was answered with exactly one node. *)
Definition good_fetch (tx : TX) (rev : Z) (e : event) : Prop :=
  exists id node, e = Ev (GetMerkleNodes tx rev [id]) (Ok (Some [node])).

(** The last call of a hydration that failed with [err]: none (the node id
    was refused, or the root did not match), a fetch that failed, or a fetch
    answered with other than one node. *)
Definition failed_fetch (tx : TX) (rev : Z) (err : error)
    (tail : list event) : Prop :=
  tail = []
  \/ (exists id, tail = [Ev (GetMerkleNodes tx rev [id]) (Error err)])
  \/ (exists id nodes,
        tail = [Ev (GetMerkleNodes tx rev [id]) (Ok nodes)]
        /\ slice_len nodes <> 1
        /\ err = ErrNodeCount (slice_len nodes) (NodeID_String id) rev).

(** What a hydration that succeeded with the tree [mt] leaves behind. *)
Definition hydrated (s : Sequencer) (cur : SignedLogRoot) (tx : TX)
    (trh : list event) (mt : CompactMerkleTree) : Prop :=
  runs (initMerkleTreeFromStorage s cur tx) trh (Done (Ok mt))
  /\ Forall (good_fetch tx (TreeRevision cur)) trh
  /\ Size mt = TreeSize cur /\ cmt_hasher mt = hasher s
  /\ (TreeSize cur = 0 -> mt = NewCompactMerkleTree (hasher s) /\ trh = []).

(** The tree head that SequenceBatch and SignRoot build for signing. *)
Definition newLogRoot (merkleTree : CompactMerkleTree) (now : Z)
    (currentRoot : SignedLogRoot) (treeRevision : Z) : SignedLogRoot :=
  {| RootHash := CurrentRoot merkleTree;
     TimestampNanos := now;
     TreeSize := Size merkleTree;
     LogId := LogId currentRoot;
     TreeRevision := treeRevision;
     Signature := None |}.

(** The calls of a signRoot that succeeded with [sg], or failed with
    [err]. *)
Definition signed (root : SignedLogRoot) (sg : DigitallySigned)
    (trs : list event) : Prop :=
  exists signer,
    trs = [Ev KeyManager_Signer (Ok signer);
           Ev (SignLogRoot signer root) (Ok sg)].

Definition sign_failed (root : SignedLogRoot) (err : error)
    (trs : list event) : Prop :=
  trs = [Ev KeyManager_Signer (Error err)]
  \/ (exists signer,
        trs = [Ev KeyManager_Signer (Ok signer);
               Ev (SignLogRoot signer root) (Error err)]).

(** The nodes that buildNodesFromNodeMap makes of a node map. *)
Definition targetNodes (nodeMap : gmap string Node) (newVersion : Z)
  : list Node :=
  map (fun kv : string * Node =>
         {| Node_NodeID := Node_NodeID kv.2; Node_Hash := Node_Hash kv.2;
            NodeRevision := newVersion |})
      (map_to_list nodeMap).

(** ** More readers of traces *)

(** The calls that only the sequencing of a batch makes. *)
Definition is_sequencing (e : event) : bool :=
  match e with
  | Ev op _ =>
      match op with
      | DequeueLeaves _ _ | WriteRevision _ | UpdateSequencedLeaves _ _
      | SetMerkleNodes _ _ => true
      | _ => false
      end
  end.

(** The transaction a call is made on, for the calls of storage.LogTX. *)
Definition event_tx (e : event) : option TX :=
  match e with
  | Ev op _ =>
      match op with
      | DequeueLeaves tx _ | LatestSignedLogRoot tx | GetMerkleNodes tx _ _
      | WriteRevision tx | UpdateSequencedLeaves tx _ | SetMerkleNodes tx _
      | StoreSignedLogRoot tx _ | Commit tx | Rollback tx => Some tx
      | Begin | KeyManager_Signer | SignLogRoot _ _ | Now_UnixNano => None
      end
  end.

(** The call is not made on a transaction other than [tx]. *)
Definition on_tx (tx : TX) (e : event) : bool :=
  match event_tx e with
  | Some tx' => bool_decide (tx' = tx)
  | None => true
  end.

(** The nodes a call writes, the signature a call made of a tree head, the
    time a call read off the clock. *)
Definition written_nodes (e : event) : option (TX * list Node) :=
  match e with
  | Ev op _ =>
      match op with SetMerkleNodes tx nodes => Some (tx, nodes) | _ => None end
  end.

Definition made_signature (e : event)
  : option (SignedLogRoot * DigitallySigned) :=
  match e with
  | Ev op resp =>
      match op in Op X return X -> option (SignedLogRoot * DigitallySigned)
      with
      | SignLogRoot _ root =>
          fun r => match r with
                   | Ok sg => Some (root, sg)
                   | Error _ => None
                   end
      | _ => fun _ => None
      end resp
  end.

Definition clock_read (e : event) : option Z :=
  match e with
  | Ev op resp =>
      match op in Op X return X -> option Z with
      | Now_UnixNano => fun now => Some now
      | _ => fun _ => None
      end resp
  end.

(** The calls that write, by what they write. *)
Inductive write_kind := WriteLeaves | WriteNodes | WriteRoot.

Definition write_of (e : event) : option write_kind :=
  match e with
  | Ev op _ =>
      match op with
      | UpdateSequencedLeaves _ _ => Some WriteLeaves
      | SetMerkleNodes _ _ => Some WriteNodes
      | StoreSignedLogRoot _ _ => Some WriteRoot
      | _ => None
      end
  end.

(** The calls that read the storage. *)
Definition is_read (e : event) : bool :=
  match e with
  | Ev op _ =>
      match op with
      | DequeueLeaves _ _ | LatestSignedLogRoot _ | GetMerkleNodes _ _ _ => true
      | _ => false
      end
  end.

(** A trace from its first write on. *)
Fixpoint from_first_write (tr : list event) : list event :=
  match tr with
  | [] => []
  | e :: tr' => if is_write e then e :: tr' else from_first_write tr'
  end.

(** What holds of every entry of the node map of sequenceLeaves: the key is
    the string of the node id, the revision is not set yet, and the node is
    one of the node updates [updates] of the batch. *)
Definition recorded (updates : list (Z * Z * Hash)) (key : string)
    (node : Node) : Prop :=
  key = NodeID_String (Node_NodeID node)
  /\ NodeRevision node = 0
  /\ exists depth index,
      (depth, index, Node_Hash node) ∈ updates
      /\ NewNodeIDForTreeCoords depth index maxTreeDepth
         = Ok (Node_NodeID node).

Definition is_begin (e : event) : bool :=
  match e with Ev op _ => match op with Begin => true | _ => false end end.

(** What a Commit came back with. *)
Definition commit_result (e : event) : option (TX * option error) :=
  match e with
  | Ev op resp =>
      match op in Op X return X -> option (TX * option error) with
      | Commit tx => fun r => Some (tx, r)
      | _ => fun _ => None
      end resp
  end.

(** The node map and the sequence numbers of a result of sequenceLeaves,
    and the nodes of the first SetMerkleNodes of a trace. *)
Definition node_map_of (r : result (gmap string Node * list Z))
  : gmap string Node :=
  match r with Ok (nodeMap, _) => nodeMap | Error _ => ∅ end.

Definition numbers_of (r : result (gmap string Node * list Z)) : list Z :=
  match r with Ok (_, sequenceNumbers) => sequenceNumbers | Error _ => [] end.

Definition nodes_written (tr : list event) : list Node :=
  match omap written_nodes tr with
  | (_, nodes) :: _ => nodes
  | [] => []
  end.

Definition root_stored (tr : list event) : option SignedLogRoot :=
  match omap stored_root tr with
  | (_, root) :: _ => Some root
  | [] => None
  end.


End Sequencer.

(** ** A small instance, for running the code *)

(** Node ids are the coordinates themselves; coordinates deeper than [cap]
    (or than maxPathBits) are refused, as are negative ones. *)
Definition demo_packages (cap : Z) : Packages := {|
  NodeID := Z * Z;
  LogID := Z;
  DigitallySigned := list byte;
  CryptoSigner := unit;
  NewNodeIDForTreeCoords := fun depth index maxPathBits =>
    if (depth <? 0) || (index <? 0) || (Z.min cap maxPathBits <? depth)
    then Error (Err "depth/index combination out of range")
    else Ok (depth, index);
  NodeID_String := fun id => pretty id.1 +:+ "/" +:+ pretty id.2
|}.

(** Domain-separated concatenation stands in for SHA-256. *)
Definition demo_hasher : TreeHasher := {|
  HashEmpty := [];
  HashLeaf := fun data => x00 :: data;
  HashChildren := fun l r => x01 :: l ++ r
|}.

Section Demo.

Context (cap : Z).
#[local] Instance demo_instance : Packages := demo_packages cap.

Definition demo_sequencer : Sequencer := {| hasher := demo_hasher |}.

Definition demo_leaf (b : byte) : LogLeaf :=
  {| LeafHash := [x00; b]; LeafValue := [b]; ExtraData := [];
     SequenceNumber := -1 |}.

Definition demo_root (size revision : Z) (rootHash : Hash) : SignedLogRoot :=
  {| TimestampNanos := 1; RootHash := rootHash; TreeSize := size;
     Signature := None; LogId := 66; TreeRevision := revision |}.

(** An environment that answers every call from a fixed script; the call
    number [fail_at], if any, fails. *)
Definition scripted (leaves : list LogLeaf) (root : SignedLogRoot)
    (nodes : slice Node) (writeRevision : Z) (fail_at : option nat)
  : Oracle :=
  fun hist X op =>
    let fails := bool_decide (fail_at = Some (length hist)) in
    match op in Op X return X with
    | Begin => if fails then Error (Err "begin") else Ok 1
    | DequeueLeaves _ _ => if fails then Error (Err "dequeue") else Ok leaves
    | LatestSignedLogRoot _ => if fails then Error (Err "root") else Ok root
    | GetMerkleNodes _ _ _ => if fails then Error (Err "nodes") else Ok nodes
    | WriteRevision _ => writeRevision
    | UpdateSequencedLeaves _ _ => if fails then Some (Err "update") else None
    | SetMerkleNodes _ _ => if fails then Some (Err "set") else None
    | StoreSignedLogRoot _ _ => if fails then Some (Err "store") else None
    | Commit _ => if fails then Some (Err "commit") else None
    | Rollback _ => None
    | KeyManager_Signer => if fails then Error (Err "signer") else Ok ()
    | SignLogRoot _ _ => if fails then Error (Err "sign") else Ok [x2a]
    | Now_UnixNano => 12345
    end.

Definition demo_batch : list LogLeaf :=
  [demo_leaf x61; demo_leaf x62; demo_leaf x63].

(** The root of a log that has no tree head yet, and the root of the log
    that holds the first leaf of the batch. *)
Definition fresh_root : SignedLogRoot := demo_root 0 0 [].
Definition one_leaf_root : SignedLogRoot := demo_root 1 1 [x00; x61].

Definition never (_ : SignedLogRoot) : bool := false.
Definition always (_ : SignedLogRoot) : bool := true.

Definition empty_storage : Storage :=
  {| committed := {| st_queue := []; st_leaves := []; st_nodes := [];
                     st_roots := [] |};
     pending := ∅ |}.

(** SequenceBatch and SignRoot against the script. *)
Definition demo_run (leaves : list LogLeaf) (root : SignedLogRoot)
    (nodes : slice Node) (writeRevision : Z) (fail_at : option nat)
  : Outcome (Z * option error) * list event :=
  run (scripted leaves root nodes writeRevision fail_at)
      (SequenceBatch demo_sequencer 10 never).

Definition demo_sign_run (root : SignedLogRoot) (nodes : slice Node)
    (fail_at : option nat) : Outcome (option error) * list event :=
  run (scripted [] root nodes 1 fail_at) (SignRoot demo_sequencer).

(** sequenceLeaves on the batch, from the empty tree. *)
Definition demo_sequenced
  : CompactMerkleTree * result (gmap string Node * list Z) :=
  sequenceLeaves demo_sequencer (NewCompactMerkleTree demo_hasher) demo_batch.

Definition demo_node_map : gmap string Node :=
  match demo_sequenced.2 with Ok (nodeMap, _) => nodeMap | Error _ => ∅ end.

(** The node of the first leaf of the batch, as the storage holds it. *)
Definition demo_node : Node :=
  {| Node_NodeID := (0, 0); Node_Hash := [x00; x61]; NodeRevision := 1 |}.

(** SequenceBatch against the script, on a log without a tree head. *)
Definition demo_single_run (expiryFunc : SignedLogRoot -> bool)
    (leaves : list LogLeaf) (fail_at : option nat)
  : Outcome (Z * option error) * list event :=
  run (scripted leaves fresh_root None 1 fail_at)
      (SequenceBatch demo_sequencer 10 expiryFunc).

End Demo.

Section Proofs.

Context `{pkg : Packages}.

(** ** Runs *)

Lemma exec_runs {A} (o : Oracle) (p : Prog A) hist out tr :
  exec o p hist = (out, tr) -> exists tr', tr = hist ++ tr' /\ runs p tr' out.
Proof.
  revert hist. induction p as [a|msg|X op k IH]; intros hist; simpl.
  - intros [= <- <-]. exists []. by rewrite app_nil_r.
  - intros [= <- <-]. exists []. by rewrite app_nil_r.
  - intros Hx. apply IH in Hx as (tr' & -> & Hr).
    eexists. rewrite <- app_assoc. split; [reflexivity|]. eauto.
Qed.

Lemma run_runs {A} (o : Oracle) (p : Prog A) out tr :
  run o p = (out, tr) -> runs p tr out.
Proof. intros H. apply exec_runs in H as (tr' & -> & H). exact H. Qed.

Lemma runs_bind {A B} (p : Prog A) (f : A -> Prog B) tr out :
  runs (bind p f) tr out ->
  (exists a tr1 tr2,
      runs p tr1 (Done a) /\ runs (f a) tr2 out /\ tr = tr1 ++ tr2)
  \/ (exists msg, runs p tr (Panicked msg) /\ out = Panicked msg).
Proof.
  revert tr. induction p as [a|msg|X op k IH]; intros tr; simpl.
  - intros H. left. exists a, [], tr. auto.
  - intros [-> ->]. right. eauto.
  - intros (x & tr' & -> & H). apply IH in H as [(a & t1 & t2 & H1 & H2 & ->)|(m & H1 & ->)].
    + left. exists a, (Ev op x :: t1), t2. split; [eauto|]. auto.
    + right. exists m. split; [eauto|]. auto.
Qed.

(** ** The compact tree *)

Lemma AddLeafHash_seq {S} t leafHash (emit : Z -> Z -> Hash -> S -> S) st
    t' seq st' :
  AddLeafHash t leafHash emit st = (t', seq, st') ->
  seq = Size t /\ Size t' = Size t + 1 /\ cmt_hasher t' = cmt_hasher t.
Proof.
  unfold AddLeafHash, Size.
  destruct (combineUp _ _ _ _ _ _ _ _) as [spine' st''].
  intros [= <- <- <-]. auto.
Qed.

(** The tree that an append leaves does not depend on the closure. *)
Lemma combineUp_spine {S1 S2} h (emit1 : Z -> Z -> Hash -> S1 -> S1)
    (emit2 : Z -> Z -> Hash -> S2 -> S2) seq spine t level running st1 st2 :
  (combineUp h emit1 seq spine t level running st1).1
  = (combineUp h emit2 seq spine t level running st2).1.
Proof.
  revert t level running st1 st2.
  induction spine as [|slot rest IH]; intros t level running st1 st2; simpl.
  - reflexivity.
  - destruct (Z.odd t); [|reflexivity].
    specialize (IH (Z.shiftr t 1) (level + 1)
      (HashChildren h (default [] slot) running)
      (emit1 (level + 1) (Z.shiftr seq (level + 1))
         (HashChildren h (default [] slot) running) st1)
      (emit2 (level + 1) (Z.shiftr seq (level + 1))
         (HashChildren h (default [] slot) running) st2)).
    do 2 destruct (combineUp _ _ _ _ _ _ _ _). simpl in *. congruence.
Qed.

(** ** sequenceLeaves and the assignment of sequence numbers *)

Lemma sequenceLeaves_loop_ok mt leaves nodeMap seqs mt' nodeMap' seqs' :
  sequenceLeaves_loop mt leaves nodeMap seqs = (mt', Ok (nodeMap', seqs')) ->
  seqs' = seqs ++ seqZ (Size mt) (Z.of_nat (length leaves))
  /\ Size mt' = Size mt + Z.of_nat (length leaves)
  /\ cmt_hasher mt' = cmt_hasher mt.
Proof.
  revert mt nodeMap seqs.
  induction leaves as [|leaf leaves IH]; intros mt nodeMap seqs; simpl.
  - intros [= <- <- <-]. rewrite app_nil_r. split; [done|]. split; [lia|done].
  - destruct (AddLeafHash mt (LeafHash leaf) recordNode nodeMap)
      as [[mt1 seq] nodeMap1] eqn:Hadd.
    apply AddLeafHash_seq in Hadd as (-> & Hsize & Hh).
    destruct (NewNodeIDForTreeCoords 0 (Size mt) maxTreeDepth); [|done].
    intros Hloop. apply IH in Hloop as (-> & Hsize' & Hh').
    split; [|split; [lia|congruence]].
    rewrite <- app_assoc. f_equal. simpl.
    rewrite (seqZ_cons (Size mt)) by lia. rewrite Hsize. f_equal.
    f_equal; lia.
Qed.

Lemma sequenceLeaves_ok s mt leaves mt' nodeMap seqs :
  sequenceLeaves s mt leaves = (mt', Ok (nodeMap, seqs)) ->
  seqs = seqZ (Size mt) (Z.of_nat (length leaves))
  /\ Size mt' = Size mt + Z.of_nat (length leaves)
  /\ cmt_hasher mt' = cmt_hasher mt.
Proof. intros Hs. by apply sequenceLeaves_loop_ok in Hs. Qed.

Lemma sequenceLeaves_length s mt leaves mt' nodeMap seqs :
  sequenceLeaves s mt leaves = (mt', Ok (nodeMap, seqs)) ->
  length seqs = length leaves.
Proof.
  intros Hs. apply sequenceLeaves_ok in Hs as (-> & _).
  rewrite length_seqZ. lia.
Qed.

Lemma assignSequenceNumbers_ok (leaves : list LogLeaf) (seqs : list Z)
    (index : nat) :
  (index + length seqs <= length leaves)%nat ->
  exists leaves',
    assignSequenceNumbers leaves seqs index = Some leaves'
    /\ length leaves' = length leaves
    /\ (forall i, (i < index \/ index + length seqs <= i)%nat ->
                  leaves' !! i = leaves !! i)
    /\ (forall j seq leaf,
          seqs !! j = Some seq -> leaves !! (index + j)%nat = Some leaf ->
          leaves' !! (index + j)%nat = Some (withSequenceNumber leaf seq)).
Proof.
  revert leaves index.
  induction seqs as [|seq seqs IH]; intros leaves index Hlen; simpl in *.
  - exists leaves. split; [done|]. split; [done|]. split; [done|].
    intros j seq leaf Hj. by destruct j.
  - destruct (leaves !! index) as [leaf0|] eqn:Hleaf0.
    2:{ apply lookup_ge_None in Hleaf0. lia. }
    destruct (IH (<[index:=withSequenceNumber leaf0 seq]> leaves) (S index))
      as (leaves' & Hassign & Hlen' & Hout & Hin).
    { rewrite length_insert. lia. }
    exists leaves'. split; [exact Hassign|].
    rewrite length_insert in Hlen'. split; [done|]. split.
    + intros i Hi. rewrite Hout by lia. apply list_lookup_insert_ne. lia.
    + intros j seq' leaf Hj Hleaf. destruct j as [|j]; simpl in Hj.
      * injection Hj as <-. rewrite Nat.add_0_r in *.
        rewrite Hout by lia. rewrite list_lookup_insert_eq.
        -- congruence.
        -- apply lookup_lt_Some in Hleaf0. lia.
      * replace (index + S j)%nat with (S index + j)%nat in * by lia.
        apply Hin; [done|]. rewrite list_lookup_insert_ne by lia. done.
Qed.

(** ** The node map of sequenceLeaves *)

(** What a closure has after an append is what it makes of the emitted
    triples, one after the other. *)
Lemma combineUp_keep h seq spine t level running l :
  (combineUp h keep seq spine t level running l).2
  = l ++ (combineUp h keep seq spine t level running []).2.
Proof.
  revert t level running l.
  induction spine as [|slot rest IH]; intros t level running l; simpl.
  - by rewrite app_nil_r.
  - destruct (Z.odd t); simpl; [|by rewrite app_nil_r].
    remember (HashChildren h (default [] slot) running) as running'.
    pose proof (IH (Z.shiftr t 1) (level + 1) running'
                  (keep (level + 1) (Z.shiftr seq (level + 1)) running' l))
      as IH1.
    pose proof (IH (Z.shiftr t 1) (level + 1) running'
                  (keep (level + 1) (Z.shiftr seq (level + 1)) running' []))
      as IH2.
    destruct (combineUp h keep seq rest (Z.shiftr t 1) (level + 1) running'
                (keep (level + 1) (Z.shiftr seq (level + 1)) running' l))
      as [r3 l3].
    destruct (combineUp h keep seq rest (Z.shiftr t 1) (level + 1) running'
                (keep (level + 1) (Z.shiftr seq (level + 1)) running' []))
      as [r4 l4].
    destruct (combineUp h keep seq rest (Z.shiftr t 1) (level + 1) running'
                []) as [r2 l2].
    simpl in *. subst l3 l4. unfold keep. by rewrite <- app_assoc.
Qed.

Lemma combineUp_emit {S} h (emit : Z -> Z -> Hash -> S -> S) seq spine t level
    running st :
  (combineUp h emit seq spine t level running st).2
  = foldl (fun st u => emit u.1.1 u.1.2 u.2 st) st
      (combineUp h keep seq spine t level running []).2.
Proof.
  revert t level running st.
  induction spine as [|slot rest IH]; intros t level running st; simpl.
  - done.
  - destruct (Z.odd t); simpl; [|done].
    remember (HashChildren h (default [] slot) running) as running'.
    pose proof (IH (Z.shiftr t 1) (level + 1) running'
                  (emit (level + 1) (Z.shiftr seq (level + 1)) running' st))
      as IH'.
    pose proof (combineUp_keep h seq rest (Z.shiftr t 1) (level + 1) running'
                  (keep (level + 1) (Z.shiftr seq (level + 1)) running' []))
      as Hk.
    destruct (combineUp h emit seq rest (Z.shiftr t 1) (level + 1) running'
                (emit (level + 1) (Z.shiftr seq (level + 1)) running' st))
      as [r1 s1].
    destruct (combineUp h keep seq rest (Z.shiftr t 1) (level + 1) running'
                (keep (level + 1) (Z.shiftr seq (level + 1)) running' []))
      as [r2 l2].
    simpl in *. rewrite IH', Hk. done.
Qed.

Lemma AddLeafHash_emit {S} t leafHash (emit : Z -> Z -> Hash -> S -> S) st :
  AddLeafHash t leafHash emit st
  = (appended t leafHash, Size t,
     foldl (fun st u => emit u.1.1 u.1.2 u.2 st) st (emitted t leafHash)).
Proof.
  unfold appended, emitted, AddLeafHash, Size.
  pose proof (combineUp_emit (cmt_hasher t) emit (cmt_size t) (cmt_spine t)
                (cmt_size t) 0 leafHash st) as He.
  pose proof (combineUp_spine (cmt_hasher t) emit keep (cmt_size t)
                (cmt_spine t) (cmt_size t) 0 leafHash st []) as Hs.
  destruct (combineUp (cmt_hasher t) emit _ _ _ _ _ _) as [r1 s1].
  destruct (combineUp (cmt_hasher t) keep _ _ _ _ _ _) as [r2 l2].
  simpl in *. by subst.
Qed.

Lemma recordAll_app u1 u2 nodeMap :
  recordAll (u1 ++ u2) nodeMap = recordAll u2 (recordAll u1 nodeMap).
Proof. apply foldl_app. Qed.

(** When sequenceLeaves returns without error, its node map is what
    recordNode makes of the node updates of the batch, in their order: a
    triple whose node id can be made is put into the map, a later update of
    the same node replacing an earlier one, and a triple whose node id cannot
    be made is skipped. *)
Lemma sequenceLeaves_records s mt leaves mt' nodeMap seqs :
  sequenceLeaves s mt leaves = (mt', Ok (nodeMap, seqs)) ->
  nodeMap = recordAll (node_updates mt leaves) ∅.
Proof.
  unfold sequenceLeaves. generalize (∅ : gmap string Node) as m0.
  generalize ([] : list Z) as seqs0. revert mt.
  induction leaves as [|leaf leaves IH]; intros mt seqs0 m0; simpl.
  - by intros [= <- <- <-].
  - rewrite AddLeafHash_emit.
    destruct (NewNodeIDForTreeCoords 0 (Size mt) maxTreeDepth) as [id|err]
      eqn:Hid; [|done].
    intros Hloop%IH. rewrite Hloop, recordAll_app. simpl. f_equal.
    unfold recordNode at 2. by rewrite Hid.
Qed.

(** ** Hydration of the compact tree *)

Lemma getNode_runs root tx depth index tr out :
  runs (getNode root tx depth index) tr out ->
  (exists h, out = Done (Ok h) /\ Forall (good_fetch tx (TreeRevision root)) tr)
  \/ (exists err, out = Done (Error err)
                  /\ failed_fetch tx (TreeRevision root) err tr).
Proof.
  unfold getNode.
  destruct (NewNodeIDForTreeCoords depth index maxTreeDepth) as [nodeId|err];
    simpl.
  2:{ intros [-> ->]. right. exists err. split; [done|]. by left. }
  intros (r & tr' & -> & Hr). destruct r as [nodes|err]; simpl in Hr.
  2:{ destruct Hr as [-> ->]. right. exists err. split; [done|].
      right. left. by exists nodeId. }
  destruct (slice_is_nil nodes || negb (slice_len nodes =? 1)) eqn:Hc.
  - destruct Hr as [-> ->]. right. eexists. split; [done|]. right. right.
    exists nodeId, nodes. split; [done|]. split; [|done].
    destruct nodes as [l|]; simpl in *; lia.
  - assert (exists node, nodes = Some [node]) as [node ->].
    { destruct nodes as [l|]; [|discriminate]. simpl in Hc.
      apply negb_false_iff, Z.eqb_eq in Hc.
      destruct l as [|node [|node' l]]; simpl in Hc; try lia. by exists node. }
    simpl in Hr. destruct Hr as [-> ->]. left. exists (Node_Hash node). split; [done|].
    constructor; [|constructor]. by exists nodeId, node.
Qed.

Lemma fetchSpine_runs root tx size levels level tr out :
  runs (fetchSpine (getNode root tx) size levels level) tr out ->
  (exists spine, out = Done (Ok spine)
                 /\ Forall (good_fetch tx (TreeRevision root)) tr)
  \/ (exists err pre tail,
        out = Done (Error err) /\ tr = pre ++ tail
        /\ Forall (good_fetch tx (TreeRevision root)) pre
        /\ failed_fetch tx (TreeRevision root) err tail).
Proof.
  revert level tr out.
  induction levels as [|levels IH]; intros level tr out; simpl.
  - intros [-> ->]. left. by exists [].
  - destruct (Z.testbit size level).
    + intros Hr. apply runs_bind in Hr
        as [(r & tr1 & tr2 & H1 & H2 & ->)|(msg & H1 & ->)];
        apply getNode_runs in H1 as [(h & Hh & Hg)|(err & He & Hf)];
        try discriminate.
      * injection Hh as ->.
        apply runs_bind in H2
          as [(r' & tr3 & tr4 & H3 & H4 & ->)|(msg & H3 & ->)];
          apply IH in H3
            as [(spine & Hs & Hg')|(err & pre & tail & He & -> & Hg' & Hf)];
          try discriminate.
        -- injection Hs as ->. destruct H4 as [-> ->]. left.
           eexists. split; [done|]. rewrite app_nil_r. by apply Forall_app.
        -- injection He as ->. destruct H4 as [-> ->]. right.
           exists err, (tr1 ++ pre), tail. rewrite app_nil_r, app_assoc.
           repeat split; [|done]. by apply Forall_app.
      * injection He as ->. destruct H2 as [-> ->]. right.
        exists err, [], tr1. rewrite app_nil_r. by repeat split.
    + intros Hr. apply runs_bind in Hr
        as [(r' & tr3 & tr4 & H3 & H4 & ->)|(msg & H3 & ->)];
        apply IH in H3
          as [(spine & Hs & Hg')|(err & pre & tail & He & -> & Hg' & Hf)];
        try discriminate.
      * injection Hs as ->. destruct H4 as [-> ->]. left.
        eexists. split; [done|]. by rewrite app_nil_r.
      * injection He as ->. destruct H4 as [-> ->]. right.
        exists err, pre, tail. by rewrite app_nil_r.
Qed.

Lemma buildMerkleTreeFromStorageAtRoot_runs s root tx tr out :
  runs (buildMerkleTreeFromStorageAtRoot s root tx) tr out ->
  (exists mt,
      out = Done (Ok mt)
      /\ Forall (good_fetch tx (TreeRevision root)) tr
      /\ Size mt = TreeSize root /\ cmt_hasher mt = hasher s)
  \/ (exists err pre tail,
        out = Done (Error err) /\ tr = pre ++ tail
        /\ Forall (good_fetch tx (TreeRevision root)) pre
        /\ failed_fetch tx (TreeRevision root) err tail).
Proof.
  unfold buildMerkleTreeFromStorageAtRoot, NewCompactMerkleTreeWithState.
  intros Hr. apply runs_bind in Hr
    as [(r & tr1 & tr2 & H1 & H2 & ->)|(msg & H1 & ->)];
    apply fetchSpine_runs in H1
      as [(spine & Hs & Hg)|(err & pre & tail & He & -> & Hg & Hf)];
    try discriminate.
  - injection Hs as ->. case_bool_decide; destruct H2 as [-> ->].
    + left. eexists. split; [done|]. rewrite app_nil_r. by repeat split.
    + right. exists ErrCorruptState, tr1, []. repeat split; try done.
      by left.
  - injection He as ->. destruct H2 as [-> ->]. right.
    exists err, pre, tail. by rewrite app_nil_r.
Qed.

Lemma initMerkleTreeFromStorage_runs s cur tx tr out :
  runs (initMerkleTreeFromStorage s cur tx) tr out ->
  (exists mt,
      out = Done (Ok mt)
      /\ Forall (good_fetch tx (TreeRevision cur)) tr
      /\ Size mt = TreeSize cur /\ cmt_hasher mt = hasher s
      /\ (TreeSize cur = 0 -> mt = NewCompactMerkleTree (hasher s) /\ tr = []))
  \/ (exists err pre tail,
        out = Done (Error err) /\ tr = pre ++ tail
        /\ Forall (good_fetch tx (TreeRevision cur)) pre
        /\ failed_fetch tx (TreeRevision cur) err tail
        /\ TreeSize cur <> 0).
Proof.
  unfold initMerkleTreeFromStorage.
  destruct (TreeSize cur =? 0) eqn:Hz; simpl.
  - apply Z.eqb_eq in Hz. intros [-> ->]. left. eexists.
    split; [done|]. split; [constructor|]. by rewrite Hz.
  - apply Z.eqb_neq in Hz. intros Hr.
    apply buildMerkleTreeFromStorageAtRoot_runs in Hr
      as [(mt & -> & Hg & Hsz & Hh)|(err & pre & tail & -> & -> & Hg & Hf)].
    + left. by exists mt.
    + right. by exists err, pre, tail.
Qed.

(** ** The runs of the sequencer *)

#[local] Opaque initMerkleTreeFromStorage sequenceLeaves.

Lemma signRoot_runs s root tr out :
  runs (signRoot s root) tr out ->
  (exists sg, out = Done (Ok sg) /\ signed root sg tr)
  \/ (exists err, out = Done (Error err) /\ sign_failed root err tr).
Proof.
  unfold signRoot. simpl. intros (r & tr1 & -> & Hr).
  destruct r as [signer|err]; simpl in Hr.
  - destruct Hr as (r & tr2 & -> & Hr). destruct r as [sg|err]; simpl in Hr;
      destruct Hr as [-> ->].
    + left. exists sg. split; [done|]. by exists signer.
    + right. exists err. split; [done|]. right. by exists signer.
  - destruct Hr as [-> ->]. right. exists err. split; [done|]. by left.
Qed.

#[local] Opaque signRoot.

Lemma SignRoot_runs s tr out :
  runs (SignRoot s) tr out ->
  (exists err, tr = [Ev Begin (Error err)] /\ out = Done (Some err))
  \/ (exists tx err r,
        tr = [Ev Begin (Ok tx); Ev (LatestSignedLogRoot tx) (Error err);
              Ev (Rollback tx) r]
        /\ out = Done (Some err))
  \/ (exists tx cur pre tail err r,
        tr = Ev Begin (Ok tx) :: Ev (LatestSignedLogRoot tx) (Ok cur)
               :: pre ++ tail ++ [Ev (Rollback tx) r]
        /\ Forall (good_fetch tx (TreeRevision cur)) pre
        /\ failed_fetch tx (TreeRevision cur) err tail
        /\ TreeSize cur <> 0
        /\ out = Done (Some err))
  \/ (exists tx cur trh mt now trs err r,
        tr = Ev Begin (Ok tx) :: Ev (LatestSignedLogRoot tx) (Ok cur)
               :: trh ++ Ev Now_UnixNano now :: trs ++ [Ev (Rollback tx) r]
        /\ hydrated s cur tx trh mt
        /\ sign_failed
             (newLogRoot mt now cur (add64 (TreeRevision cur) 1)) err trs
        /\ out = Done (Some err))
  \/ (exists tx cur trh mt now trs sg err r,
        tr = Ev Begin (Ok tx) :: Ev (LatestSignedLogRoot tx) (Ok cur)
               :: trh ++ Ev Now_UnixNano now :: trs
               ++ [Ev (StoreSignedLogRoot tx
                         (withSignature
                            (newLogRoot mt now cur
                               (add64 (TreeRevision cur) 1)) sg)) (Some err);
                   Ev (Rollback tx) r]
        /\ hydrated s cur tx trh mt
        /\ signed (newLogRoot mt now cur (add64 (TreeRevision cur) 1)) sg trs
        /\ out = Done (Some err))
  \/ (exists tx cur trh mt now trs sg e,
        tr = Ev Begin (Ok tx) :: Ev (LatestSignedLogRoot tx) (Ok cur)
               :: trh ++ Ev Now_UnixNano now :: trs
               ++ [Ev (StoreSignedLogRoot tx
                         (withSignature
                            (newLogRoot mt now cur
                               (add64 (TreeRevision cur) 1)) sg)) None;
                   Ev (Commit tx) e]
        /\ hydrated s cur tx trh mt
        /\ signed (newLogRoot mt now cur (add64 (TreeRevision cur) 1)) sg trs
        /\ out = Done e).
Proof.
  unfold SignRoot. simpl. intros (r & tr1 & -> & Hr).
  destruct r as [tx|err]; simpl in Hr.
  2:{ destruct Hr as [-> ->]. left. by exists err. }
  right. destruct Hr as (r & tr2 & -> & Hr).
  destruct r as [cur|err]; simpl in Hr.
  2:{ destruct Hr as (r & tr3 & -> & [-> ->]). left. by exists tx, err, r. }
  right. apply runs_bind in Hr as [(mr & trh & tr3 & Hi & Hr & ->)|(msg & Hi & ->)];
    pose proof Hi as Hi';
    apply initMerkleTreeFromStorage_runs in Hi
      as [(mt & Hmt & Hg & Hsz & Hh & Hz)
         |(err & pre & tail & He & -> & Hg & Hf & Hnz)];
    try discriminate.
  2:{ injection He as ->. simpl in Hr.
      destruct Hr as (r & tr4 & -> & [-> ->]). left.
      exists tx, cur, pre, tail, err, r. by rewrite <- app_assoc. }
  injection Hmt as ->. right. simpl in Hr.
  destruct Hr as (now & tr4 & -> & Hr).
  assert (Hhyd : hydrated s cur tx trh mt) by done.
  apply runs_bind in Hr as [(sr & trs & tr5 & Hs & Hr & ->)|(msg & Hs & ->)];
    apply signRoot_runs in Hs as [(sg & Hsg & Hs)|(err & He & Hs)];
    try discriminate.
  2:{ injection He as ->. simpl in Hr.
      destruct Hr as (r & tr6 & -> & [-> ->]). left.
      by exists tx, cur, trh, mt, now, trs, err, r. }
  injection Hsg as ->. right. simpl in Hr.
  destruct Hr as (e & tr6 & -> & Hr). destruct e as [err|]; simpl in Hr.
  - destruct Hr as (r & tr7 & -> & [-> ->]). left.
    by exists tx, cur, trh, mt, now, trs, sg, err, r.
  - destruct Hr as (e & tr7 & -> & [-> ->]). right.
    by exists tx, cur, trh, mt, now, trs, sg, e.
Qed.


#[local] Opaque SignRoot.

Lemma SequenceBatch_store_runs s tx leaves cur mt W mt0 nodeMap seqs tr out :
  sequenceLeaves s mt0 leaves = (mt, Ok (nodeMap, seqs)) ->
  runs (SequenceBatch_store s tx leaves cur mt W nodeMap seqs) tr out ->
  exists leaves',
    assignSequenceNumbers leaves seqs 0 = Some leaves'
    /\ length leaves' = length leaves
    /\ ((exists err r,
           tr = [Ev (UpdateSequencedLeaves tx leaves') (Some err);
                 Ev (Rollback tx) r]
           /\ out = Done (0, Some err))
        \/ (exists err r,
              tr = [Ev (UpdateSequencedLeaves tx leaves') None;
                    Ev (SetMerkleNodes tx (targetNodes nodeMap W)) (Some err);
                    Ev (Rollback tx) r]
              /\ out = Done (0, Some err))
        \/ (exists now trs err r,
              tr = Ev (UpdateSequencedLeaves tx leaves') None
                     :: Ev (SetMerkleNodes tx (targetNodes nodeMap W)) None
                     :: Ev Now_UnixNano now :: trs ++ [Ev (Rollback tx) r]
              /\ sign_failed (newLogRoot mt now cur W) err trs
              /\ out = Done (0, Some err))
        \/ (exists now trs sg err r,
              tr = Ev (UpdateSequencedLeaves tx leaves') None
                     :: Ev (SetMerkleNodes tx (targetNodes nodeMap W)) None
                     :: Ev Now_UnixNano now :: trs
                     ++ [Ev (StoreSignedLogRoot tx
                               (withSignature (newLogRoot mt now cur W) sg))
                           (Some err);
                         Ev (Rollback tx) r]
              /\ signed (newLogRoot mt now cur W) sg trs
              /\ out = Done (0, Some err))
        \/ (exists now trs sg e,
              tr = Ev (UpdateSequencedLeaves tx leaves') None
                     :: Ev (SetMerkleNodes tx (targetNodes nodeMap W)) None
                     :: Ev Now_UnixNano now :: trs
                     ++ [Ev (StoreSignedLogRoot tx
                               (withSignature (newLogRoot mt now cur W) sg))
                           None;
                         Ev (Commit tx) e]
              /\ signed (newLogRoot mt now cur W) sg trs
              /\ out = Done (match e with
                             | Some err => (0, Some err)
                             | None => (Z.of_nat (length leaves), None)
                             end))).
Proof.
  intros Hs. pose proof (sequenceLeaves_length _ _ _ _ _ _ Hs) as Hlen.
  destruct (assignSequenceNumbers_ok leaves seqs 0) as (leaves' & Ha & Hl & _).
  { lia. }
  intros Hr. exists leaves'. split; [done|]. split; [done|].
  unfold SequenceBatch_store in Hr. rewrite Hlen, Nat.eqb_refl in Hr.
  simpl in Hr. rewrite Ha in Hr. simpl in Hr.
  destruct Hr as (e & tr1 & -> & Hr). destruct e as [err|]; simpl in Hr.
  { destruct Hr as (r & tr2 & -> & [-> ->]). left. by exists err, r. }
  right. destruct Hr as (e & tr2 & -> & Hr). destruct e as [err|]; simpl in Hr.
  { destruct Hr as (r & tr3 & -> & [-> ->]). left. by exists err, r. }
  right. destruct Hr as (now & tr3 & -> & Hr).
  apply runs_bind in Hr as [(sr & trs & tr5 & Hsg & Hr & ->)|(msg & Hsg & ->)];
    apply signRoot_runs in Hsg as [(sg & Hsg & Hsd)|(err & He & Hsf)];
    try discriminate.
  2:{ injection He as ->. simpl in Hr.
      destruct Hr as (r & tr6 & -> & [-> ->]). left.
      by exists now, trs, err, r. }
  injection Hsg as ->. right. simpl in Hr.
  destruct Hr as (e & tr6 & -> & Hr). destruct e as [err|]; simpl in Hr.
  - destruct Hr as (r & tr7 & -> & [-> ->]). left.
    by exists now, trs, sg, err, r.
  - destruct Hr as (e & tr7 & -> & Hr). right. exists now, trs, sg, e.
    destruct e; simpl in Hr; destruct Hr as [-> ->];
      (split; [done|]); (split; [done|]); [done|]. by rewrite Hl.
Qed.

Lemma SequenceBatch_runs s limit expiryFunc tr out :
  runs (SequenceBatch s limit expiryFunc) tr out ->
  (exists err, tr = [Ev Begin (Error err)] /\ out = Done (0, Some err))
  \/ exists tx rest, tr = Ev Begin (Ok tx) :: rest /\
  ((exists err r,
      rest = [Ev (DequeueLeaves tx limit) (Error err); Ev (Rollback tx) r]
      /\ out = Done (0, Some err))
   \/ exists leaves rest1,
      rest = Ev (DequeueLeaves tx limit) (Ok leaves) :: rest1 /\
  ((exists err r,
      rest1 = [Ev (LatestSignedLogRoot tx) (Error err); Ev (Rollback tx) r]
      /\ out = Done (0, Some err))
   \/ exists cur rest2,
      rest1 = Ev (LatestSignedLogRoot tx) (Ok cur) :: rest2 /\
  ((leaves = [] /\ exists r tr2 e,
      rest2 = Ev (Commit tx) r :: tr2 /\ out = Done (0, e)
      /\ (if expiryFunc cur then runs (SignRoot s) tr2 (Done e)
          else tr2 = [] /\ e = None))
   \/ leaves <> [] /\
  ((exists pre tail err r,
      rest2 = pre ++ tail ++ [Ev (Rollback tx) r]
      /\ Forall (good_fetch tx (TreeRevision cur)) pre
      /\ failed_fetch tx (TreeRevision cur) err tail
      /\ TreeSize cur <> 0
      /\ out = Done (0, Some err))
   \/ exists trh mt0 W rest3,
      rest2 = trh ++ Ev (WriteRevision tx) W :: rest3
      /\ hydrated s cur tx trh mt0 /\
  ((W <> add64 (TreeRevision cur) 1 /\ exists r,
      rest3 = [Ev (Rollback tx) r]
      /\ out = Done (0, Some (ErrWriteRevision W
                                (add64 (TreeRevision cur) 1))))
   \/ W = add64 (TreeRevision cur) 1 /\
  ((exists mt err r,
      sequenceLeaves s mt0 leaves = (mt, Error err)
      /\ rest3 = [Ev (Rollback tx) r] /\ out = Done (0, Some err))
   \/ exists mt nodeMap seqs,
      sequenceLeaves s mt0 leaves = (mt, Ok (nodeMap, seqs))
      /\ runs (SequenceBatch_store s tx leaves cur mt W nodeMap seqs)
           rest3 out)))))).
Proof.
  unfold SequenceBatch. simpl. intros (r & tr1 & -> & Hr).
  destruct r as [tx|err]; simpl in Hr.
  2:{ destruct Hr as [-> ->]. left. by exists err. }
  right. exists tx, tr1. split; [done|].
  destruct Hr as (r & tr2 & -> & Hr). destruct r as [leaves|err]; simpl in Hr.
  2:{ destruct Hr as (r & tr3 & -> & [-> ->]). left. by exists err, r. }
  right. exists leaves, tr2. split; [done|].
  destruct Hr as (r & tr3 & -> & Hr). destruct r as [cur|err]; simpl in Hr.
  2:{ destruct Hr as (r & tr4 & -> & [-> ->]). left. by exists err, r. }
  right. exists cur, tr3. split; [done|].
  destruct leaves as [|leaf leaves]; simpl in Hr.
  { left. split; [done|]. destruct Hr as (r & tr4 & -> & Hr).
    destruct (expiryFunc cur) eqn:Hexp.
    - apply runs_bind in Hr as [(e & t1 & t2 & Hsr & [-> ->] & ->)|(msg & Hsr & ->)].
      + exists r, t1, e. by rewrite app_nil_r.
      + apply SignRoot_runs in Hsr. decompose [ex and or] Hsr; discriminate.
    - simpl in Hr. destruct Hr as [-> ->]. by exists r, [], None. }
  right. split; [done|].
  apply runs_bind in Hr as [(mr & trh & tr4 & Hi & Hr & ->)|(msg & Hi & ->)];
    pose proof Hi as Hi';
    apply initMerkleTreeFromStorage_runs in Hi
      as [(mt0 & Hmt & Hg & Hsz & Hh & Hz)
         |(err & pre & tail & He & -> & Hg & Hf & Hnz)];
    try discriminate.
  2:{ injection He as ->. simpl in Hr.
      destruct Hr as (r & tr5 & -> & [-> ->]). left.
      exists pre, tail, err, r. by rewrite <- app_assoc. }
  injection Hmt as ->. right. simpl in Hr.
  destruct Hr as (W & tr5 & -> & Hr).
  exists trh, mt0, W, tr5. split; [done|]. split; [done|].
  destruct (W =? add64 (TreeRevision cur) 1) eqn:HW; simpl in Hr.
  2:{ apply Z.eqb_neq in HW. left. split; [done|].
      destruct Hr as (r & tr6 & -> & [-> ->]). by exists r. }
  apply Z.eqb_eq in HW. right. split; [done|].
  destruct (sequenceLeaves s mt0 (leaf :: leaves)) as [mt [[nodeMap seqs]|err]]
    eqn:Hseq; simpl in Hr.
  - right. by exists mt, nodeMap, seqs.
  - left. destruct Hr as (r & tr6 & -> & [-> ->]). by exists mt, err, r.
Qed.

(** ** Reading the traces of the sequencer *)

Lemma good_fetch_quiet tx rev e :
  good_fetch tx rev e ->
  is_commit e = false /\ is_rollback e = false /\ is_write e = false
  /\ failure e = None /\ stored_root e = None /\ reported_revision e = None
  /\ updated_leaves e = None
  /\ (forall w, apply_event w e = w)
  /\ (forall q, answered_nodes e = Some q -> slice_len q.2 = 1).
Proof.
  intros (id & node & ->). simpl. repeat split; try done.
  by intros q [= <-].
Qed.

Lemma good_no_commit tx rev pre :
  Forall (good_fetch tx rev) pre -> calls_commit pre = false.
Proof.
  induction 1 as [|e pre He _ IH]; simpl; [done|].
  apply good_fetch_quiet in He as (-> & _). done.
Qed.

Lemma good_no_rollback tx rev pre :
  Forall (good_fetch tx rev) pre -> calls_rollback pre = false.
Proof.
  induction 1 as [|e pre He _ IH]; simpl; [done|].
  apply good_fetch_quiet in He as (_ & -> & _). done.
Qed.

Lemma good_no_write tx rev pre :
  Forall (good_fetch tx rev) pre -> writes pre = false.
Proof.
  induction 1 as [|e pre He _ IH]; simpl; [done|].
  apply good_fetch_quiet in He as (_ & _ & -> & _). done.
Qed.

Lemma good_first_failure tx rev pre l :
  Forall (good_fetch tx rev) pre -> first_failure (pre ++ l) = first_failure l.
Proof.
  induction 1 as [|e pre He _ IH]; simpl; [done|].
  apply good_fetch_quiet in He as (-> & -> & _ & -> & _). done.
Qed.

Lemma replay_app w tr1 tr2 :
  replay w (tr1 ++ tr2) = replay (replay w tr1) tr2.
Proof. apply foldl_app. Qed.

Lemma good_replay tx rev pre w :
  Forall (good_fetch tx rev) pre -> replay w pre = w.
Proof.
  intros Hg. revert w. induction Hg as [|e pre He _ IH]; intros w; [done|].
  apply good_fetch_quiet in He as (_ & _ & _ & _ & _ & _ & _ & He & _).
  unfold replay in *. simpl. rewrite He. apply IH.
Qed.

Lemma calls_commit_app tr1 tr2 :
  calls_commit (tr1 ++ tr2) = calls_commit tr1 || calls_commit tr2.
Proof. apply existsb_app. Qed.

Lemma calls_rollback_app tr1 tr2 :
  calls_rollback (tr1 ++ tr2) = calls_rollback tr1 || calls_rollback tr2.
Proof. apply existsb_app. Qed.

Lemma writes_app tr1 tr2 : writes (tr1 ++ tr2) = writes tr1 || writes tr2.
Proof. apply existsb_app. Qed.

(** Only a Commit changes the committed state. *)
Lemma apply_event_committed w e :
  is_commit e = false -> committed (apply_event w e) = committed w.
Proof.
  destruct e as [X op resp]. destruct op; simpl; try done;
    destruct resp; done.
Qed.

Lemma replay_committed w tr :
  calls_commit tr = false -> committed (replay w tr) = committed w.
Proof.
  revert w. induction tr as [|e tr IH]; intros w; simpl; [done|].
  intros [He Htr]%orb_false_elim. unfold replay in *. simpl.
  rewrite IH by done. by apply apply_event_committed.
Qed.

(** A Rollback releases the transaction. *)
Lemma replay_rollback_released w pre tx r :
  pending (replay w (pre ++ [Ev (Rollback tx) r])) !! tx = None.
Proof. rewrite replay_app. simpl. apply lookup_delete_eq. Qed.

Ltac shapes :=
  repeat match goal with
    | H : failed_fetch _ _ _ _ |- _ =>
        destruct H as [->|[(? & ->)|(? & ? & -> & ? & ->)]]
    | H : sign_failed _ _ _ |- _ => destruct H as [->|(? & ->)]
    | H : signed _ _ _ |- _ => destruct H as (? & ->)
    | H : hydrated _ _ _ _ _ |- _ => destruct H as (? & ? & ? & ? & ?)
    end.

Ltac good_facts :=
  repeat match goal with
    | Hg : Forall (good_fetch ?tx ?rev) ?pre |- _ =>
        pose proof (good_no_commit _ _ _ Hg : existsb is_commit pre = false);
        pose proof (good_no_rollback _ _ _ Hg
                    : existsb is_rollback pre = false);
        pose proof (good_no_write _ _ _ Hg : existsb is_write pre = false);
        pose proof (fun l => good_first_failure _ _ _ l Hg);
        pose proof (fun w => good_replay _ _ _ w Hg);
        revert Hg
    end;
  intros.

Ltac read_trace :=
  unfold calls_commit, calls_rollback, writes in *;
  repeat (simpl in *;
          rewrite ?existsb_app in *;
          repeat match goal with
            | H : existsb _ _ = false |- _ => rewrite H in *
            | H : forall l, first_failure (_ ++ l) = first_failure l |- _ =>
                rewrite H in *
            end).

Lemma trace_cons_inv (e e' : event) (tr tr' : list event) :
  e :: tr = e' :: tr' -> record e = record e' /\ tr = tr'.
Proof. intros [= -> ->]. done. Qed.

Ltac trace_eq :=
  repeat match goal with
    | H : _ :: _ = [] |- _ => discriminate H
    | H : [] = _ :: _ |- _ => discriminate H
    | H : _ :: _ = _ :: _ |- _ =>
        let He := fresh "He" in
        apply trace_cons_inv in H as [He H]; simpl in He;
        first [discriminate He | simplify_eq He; intros; subst; try clear He]
    end.

Ltac list_eq := repeat (simpl; rewrite <- ?app_assoc); reflexivity.

(** ** What the calls of a run carry *)

Lemma good_projections tx rev pre :
  Forall (good_fetch tx rev) pre ->
  omap stored_root pre = [] /\ omap reported_revision pre = []
  /\ omap updated_leaves pre = [] /\ omap loaded_root pre = []
  /\ Forall (fun q => slice_len q.2 = 1) (omap answered_nodes pre).
Proof.
  induction 1 as [|e pre (id & node & ->) _ (IH1 & IH2 & IH3 & IH4 & IH5)];
    simpl.
  - repeat split; constructor.
  - repeat split; try done. by constructor.
Qed.

Lemma projected {B} (proj : event -> option B) (e : event) (b : B)
    (tr : list event) :
  e ∈ tr -> proj e = Some b -> b ∈ omap proj tr.
Proof. intros He Hp. apply list_elem_of_omap. eauto. Qed.

Ltac good_projections :=
  repeat match goal with
    | Hg : Forall (good_fetch ?tx ?rev) ?pre |- _ =>
        let Hp := fresh "Hp" in
        pose proof (good_projections _ _ _ Hg) as Hp;
        destruct Hp as (? & ? & ? & ? & ?);
        revert Hg
    end;
  intros.

Ltac read_projections :=
  repeat (simpl in *;
          rewrite ?omap_app in *;
          repeat match goal with
            | H : omap _ _ = [] |- _ => rewrite H in *
            end).

Lemma add64_succ (z : Z) :
  - 2 ^ 63 <= z < 2 ^ 63 - 1 -> add64 z 1 = z + 1.
Proof.
  intros Hz. unfold add64, wrap64.
  rewrite Z.mod_small by lia. lia.
Qed.

Ltac find_answer H :=
  repeat match type of H with
    | _ ∈ _ ++ _ => apply elem_of_app in H as [H|H]
    | _ ∈ [] => by apply elem_of_nil in H
    | _ ∈ [_] => apply list_elem_of_singleton in H
    | ?q ∈ omap answered_nodes ?pre =>
        match goal with
        | HF : Forall _ (omap answered_nodes pre) |- _ =>
            rewrite Forall_forall in HF; apply HF in H; simpl in H; lia
        end
    end.

Lemma snoc_cons {A} (a : A) (l p suffix : list A) :
  l = p ++ suffix -> a :: l = (a :: p) ++ suffix.
Proof. by intros ->. Qed.

Lemma snoc_app {A} (l1 l p suffix : list A) :
  l = p ++ suffix -> l1 ++ l = (l1 ++ p) ++ suffix.
Proof. intros ->. by rewrite app_assoc. Qed.

Ltac snoc :=
  first [ exact (eq_refl ([] ++ _))
        | eapply snoc_cons; snoc
        | eapply snoc_app; snoc ].

(** An abort path: the error of the failed call is returned, and the run
    ends in the Rollback. *)
Ltac abort_case Hgen :=
  shapes; good_facts;
  (split;
   [ let Hff := fresh "Hff" in
     intros ? Hff; read_trace; simplify_eq; by split
   | let Hc := fresh "Hc" in
     intros Hc; eexists _, _, _;
     (split; [reflexivity|]); (split; [snoc|]); (split; [by read_trace|]);
     eapply Hgen; [snoc | exact Hc] ]).

(** ** Transactional discipline *)

(** After the transaction is opened, a failing call of a collaborator
    that comes before any Commit makes SequenceBatch return that error with
    count 0 without ever committing; and every run that does not reach a
    Commit (a failed call, or a failed check of the sequencer itself: node
    ids, node counts, the hydrated root, the write revision) returns an error
    with count 0 after a Rollback of the transaction as its last call, so
    that the committed storage is what it was before the call and the
    transaction is released. *)
Lemma SequenceBatch_aborts (o : Oracle) (s : Sequencer)
    (limit : Z) (expiryFunc : SignedLogRoot -> bool)
    (out : Outcome (Z * option error)) (tx : TX) (rest : list event)
    (w : Storage) :
  run o (SequenceBatch s limit expiryFunc) = (out, Ev Begin (Ok tx) :: rest) ->
  (forall err, first_failure rest = Some err ->
               calls_commit rest = false /\ out = Done (0, Some err))
  /\ (calls_commit rest = false ->
      exists err pre r,
        out = Done (0, Some err)
        /\ rest = pre ++ [Ev (Rollback tx) r]
        /\ calls_rollback pre = false
        /\ committed (replay w (Ev Begin (Ok tx) :: rest)) = committed w
        /\ pending (replay w (Ev Begin (Ok tx) :: rest)) !! tx = None).
Proof.
  intros Hrun. apply run_runs in Hrun.
  assert (Hgen : forall pre r, rest = pre ++ [Ev (Rollback tx) r] ->
            calls_commit rest = false ->
            committed (replay w (Ev Begin (Ok tx) :: rest)) = committed w
            /\ pending (replay w (Ev Begin (Ok tx) :: rest)) !! tx = None).
  { intros pre r -> Hc. split.
    - by apply replay_committed.
    - apply (replay_rollback_released w (Ev Begin (Ok tx) :: pre)). }
  apply SequenceBatch_runs in Hrun
    as [(err & Heq & _)|(tx' & rest' & Heq & Hrun)]; trace_eq.
  destruct Hrun as [(err & r & -> & ->)|(leaves & rest1 & -> & Hrun)];
    [abort_case Hgen|].
  destruct Hrun as [(err & r & -> & ->)|(cur & rest2 & -> & Hrun)];
    [abort_case Hgen|].
  destruct Hrun as [(-> & r & tr2 & e & -> & -> & _)|(Hne & Hrun)];
    [by split|].
  destruct Hrun
    as [(pre & tail & err & r & -> & Hg & Hf & Hnz & ->)
       |(trh & mt0 & W & rest3 & -> & Hh & Hrun)];
    [abort_case Hgen|].
  destruct Hrun as [(HW & r & -> & ->)|(-> & Hrun)]; [abort_case Hgen|].
  destruct Hrun
    as [(mt & err & r & Hseq & -> & ->)|(mt & nodeMap & seqs & Hseq & Hrun)];
    [abort_case Hgen|].
  apply (SequenceBatch_store_runs _ _ _ _ _ _ _ _ _ _ _ Hseq) in Hrun
    as (leaves' & Ha & Hl & Hrun).
  destruct Hrun
    as [(err & r & -> & ->)
       |[(err & r & -> & ->)
        |[(now & trs & err & r & -> & Hsf & ->)
         |[(now & trs & sg & err & r & -> & Hsd & ->)
          |(now & trs & sg & e & -> & Hsd & ->)]]]];
    try abort_case Hgen.
  shapes; good_facts. split.
  - intros ? Hff. read_trace. discriminate.
  - intros Hc. read_trace. discriminate.
Qed.

Lemma good_succeeded tx rev pre :
  Forall (good_fetch tx rev) pre -> Forall (fun ev => failure ev = None) pre.
Proof.
  intros Hg. eapply Forall_impl; [exact Hg|]. intros e He.
  by apply good_fetch_quiet in He as (_ & _ & _ & -> & _).
Qed.

(** ** Sequence numbers *)

Lemma sequence_numbers_assigned (s : Sequencer)
    (mt mt' : CompactMerkleTree) (leaves : list LogLeaf)
    (nodeMap : gmap string Node) (seqs : list Z) :
  sequenceLeaves s mt leaves = (mt', Ok (nodeMap, seqs)) ->
  seqs = seqZ (Size mt) (Z.of_nat (length leaves))
  /\ exists leaves',
      assignSequenceNumbers leaves seqs 0 = Some leaves'
      /\ length leaves' = length leaves
      /\ forall (i : nat) (leaf : LogLeaf),
           leaves !! i = Some leaf ->
           seqs !! i = Some (Size mt + Z.of_nat i)
           /\ leaves' !! i
              = Some (withSequenceNumber leaf (Size mt + Z.of_nat i)).
Proof.
  intros Hs. pose proof (sequenceLeaves_length _ _ _ _ _ _ Hs) as Hlen.
  apply sequenceLeaves_ok in Hs as (Hseqs & _). split; [done|].
  destruct (assignSequenceNumbers_ok leaves seqs 0)
    as (leaves' & Ha & Hl & _ & Hin); [lia|].
  exists leaves'. split; [done|]. split; [done|].
  intros i leaf Hi.
  assert (Hsi : seqs !! i = Some (Size mt + Z.of_nat i)).
  { rewrite Hseqs. apply lookup_seqZ. split; [done|].
    apply lookup_lt_Some in Hi. lia. }
  split; [done|]. by apply (Hin i).
Qed.

(** When sequenceLeaves succeeds, the sequence numbers it returns are
    the numbers the compact tree handed out, one per leaf and in the order of
    the leaves: they are the consecutive numbers from the size the tree had
    before the batch; and the assignment loop of SequenceBatch gives the i-th
    leaf the i-th of them, changing nothing else.  In a run of SequenceBatch,
    the leaves handed to UpdateSequencedLeaves are the dequeued leaves in
    their order, the i-th with sequence number tree size plus i. *)
Lemma sequence_numbers_in_order (s : Sequencer)
    (mt mt' : CompactMerkleTree) (leaves : list LogLeaf)
    (nodeMap : gmap string Node) (seqs : list Z)
    (o : Oracle) (limit : Z) (expiryFunc : SignedLogRoot -> bool)
    (out : Outcome (Z * option error)) (tx : TX) (batch : list LogLeaf)
    (cur : SignedLogRoot) (rest : list event) (written : list LogLeaf)
    (r : option error) :
  (sequenceLeaves s mt leaves = (mt', Ok (nodeMap, seqs)) ->
   seqs = seqZ (Size mt) (Z.of_nat (length leaves))
   /\ exists leaves',
       assignSequenceNumbers leaves seqs 0 = Some leaves'
       /\ length leaves' = length leaves
       /\ forall (i : nat) (leaf : LogLeaf),
            leaves !! i = Some leaf ->
            seqs !! i = Some (Size mt + Z.of_nat i)
            /\ leaves' !! i
               = Some (withSequenceNumber leaf (Size mt + Z.of_nat i)))
  /\ (run o (SequenceBatch s limit expiryFunc)
      = (out,
         Ev Begin (Ok tx) :: Ev (DequeueLeaves tx limit) (Ok batch)
           :: Ev (LatestSignedLogRoot tx) (Ok cur) :: rest) ->
      Ev (UpdateSequencedLeaves tx written) r ∈ rest ->
      length written = length batch
      /\ forall (i : nat) (leaf : LogLeaf),
           batch !! i = Some leaf ->
           written !! i
           = Some (withSequenceNumber leaf (TreeSize cur + Z.of_nat i))).
Proof.
  split; [apply sequence_numbers_assigned|].
  intros Hrun Hin. apply run_runs, SequenceBatch_runs in Hrun.
  pose proof (projected updated_leaves _ _ _ Hin eq_refl) as Hq. clear Hin.
  destruct Hrun as [(? & Heq & _)|(tx' & ? & Heq & Hr)]; trace_eq.
  destruct Hr as [(? & ? & Heq & _)|(leaves' & ? & Heq & Hr)]; trace_eq.
  destruct Hr as [(? & ? & Heq & _)|(cur' & ? & Heq & Hr)]; trace_eq.
  destruct Hr as [(-> & r0 & tr2 & e & -> & _ & Hsr)|(_ & Hr)].
  { exfalso. simpl in Hq. destruct (expiryFunc cur').
    - apply SignRoot_runs in Hsr.
      decompose [ex and or] Hsr; subst; shapes; good_projections;
        read_projections; find_answer Hq.
    - destruct Hsr as [-> _]. simpl in Hq. find_answer Hq. }
  destruct Hr as [(pre & tail & err & r0 & -> & Hg & Hf & _ & _)
                 |(trh & mt0 & W & rest3 & -> & Hh & Hr)];
    [exfalso; shapes; good_projections; read_projections; find_answer Hq|].
  destruct Hr as [(_ & r0 & -> & _)|(-> & Hr)];
    [exfalso; shapes; good_projections; read_projections; find_answer Hq|].
  destruct Hr as [(m & err & r0 & Hseq & -> & _)
                 |(m & nm & sq & Hseq & Hr)];
    [exfalso; shapes; good_projections; read_projections; find_answer Hq|].
  apply (SequenceBatch_store_runs _ _ _ _ _ _ _ _ _ _ _ Hseq) in Hr
    as (lv & Ha & Hl & Hr).
  destruct (sequence_numbers_assigned _ _ _ _ _ _ Hseq)
    as (_ & lv' & Ha' & _ & Hi).
  rewrite Ha in Ha'. injection Ha' as <-.
  destruct Hh as (_ & Hg & Hsz & _).
  assert (written = lv) as ->.
  { destruct Hr
      as [(err & r0 & -> & _)
         |[(err & r0 & -> & _)
          |[(now & trs & err & r0 & -> & Hsf & _)
           |[(now & trs & sg & err & r0 & -> & Hsd & _)
            |(now & trs & sg & e' & -> & Hsd & _)]]]];
      shapes; good_projections; read_projections; find_answer Hq;
      by simplify_eq. }
  split; [done|]. intros i leaf Hleaf. rewrite <- Hsz. by apply Hi.
Qed.

Lemma withSequenceNumber_fields (leaf : LogLeaf) (seq : Z) :
  SequenceNumber (withSequenceNumber leaf seq) = seq
  /\ LeafHash (withSequenceNumber leaf seq) = LeafHash leaf
  /\ LeafValue (withSequenceNumber leaf seq) = LeafValue leaf
  /\ ExtraData (withSequenceNumber leaf seq) = ExtraData leaf.
Proof. done. Qed.

(** C3.  When sequenceLeaves succeeds, the sequence numbers it returns are
    the numbers the compact tree handed out, one per leaf and in the order of
    the leaves: they are the consecutive numbers from the size the tree had
    before the batch; and after the assignment loop of SequenceBatch the i-th
    leaf has the i-th of them in its SequenceNumber field, its leaf hash,
    leaf value and extra data being what they were.  In a run of
    SequenceBatch, the leaves handed to UpdateSequencedLeaves are the
    dequeued leaves in their order, the i-th with SequenceNumber tree size
    plus i and its other fields unchanged. *)
Theorem sequence_numbers_follow_dequeue_order (s : Sequencer)
    (mt mt' : CompactMerkleTree) (leaves : list LogLeaf)
    (nodeMap : gmap string Node) (seqs : list Z)
    (o : Oracle) (limit : Z) (expiryFunc : SignedLogRoot -> bool)
    (out : Outcome (Z * option error)) (tx : TX) (batch : list LogLeaf)
    (cur : SignedLogRoot) (rest : list event) (written : list LogLeaf)
    (r : option error) :
  (sequenceLeaves s mt leaves = (mt', Ok (nodeMap, seqs)) ->
   seqs = seqZ (Size mt) (Z.of_nat (length leaves))
   /\ exists leaves',
       assignSequenceNumbers leaves seqs 0 = Some leaves'
       /\ length leaves' = length leaves
       /\ forall (i : nat) (leaf : LogLeaf),
            leaves !! i = Some leaf ->
            seqs !! i = Some (Size mt + Z.of_nat i)
            /\ exists leaf',
                 leaves' !! i = Some leaf'
                 /\ SequenceNumber leaf' = Size mt + Z.of_nat i
                 /\ LeafHash leaf' = LeafHash leaf
                 /\ LeafValue leaf' = LeafValue leaf
                 /\ ExtraData leaf' = ExtraData leaf)
  /\ (run o (SequenceBatch s limit expiryFunc)
      = (out,
         Ev Begin (Ok tx) :: Ev (DequeueLeaves tx limit) (Ok batch)
           :: Ev (LatestSignedLogRoot tx) (Ok cur) :: rest) ->
      Ev (UpdateSequencedLeaves tx written) r ∈ rest ->
      length written = length batch
      /\ forall (i : nat) (leaf : LogLeaf),
           batch !! i = Some leaf ->
           exists leaf',
             written !! i = Some leaf'
             /\ SequenceNumber leaf' = TreeSize cur + Z.of_nat i
             /\ LeafHash leaf' = LeafHash leaf
             /\ LeafValue leaf' = LeafValue leaf
             /\ ExtraData leaf' = ExtraData leaf).
Proof.
  destruct (sequence_numbers_in_order s mt mt' leaves nodeMap seqs o limit
              expiryFunc out tx batch cur rest written r) as [H1 H2].
  split.
  - intros Hseq. destruct (H1 Hseq) as (Hseqs & leaves' & Ha & Hl & Hi).
    split; [done|]. exists leaves'. split; [done|]. split; [done|].
    intros i leaf Hleaf. destruct (Hi i leaf Hleaf) as [Hs Hw].
    split; [done|]. eexists. split; [exact Hw|].
    apply withSequenceNumber_fields.
  - intros Hrun Hin. destruct (H2 Hrun Hin) as [Hlen Hw]. split; [done|].
    intros i leaf Hleaf. eexists. split; [exact (Hw i leaf Hleaf)|].
    apply withSequenceNumber_fields.
Qed.

(** C9.  A number of sequence numbers different from the number of leaves
    makes SequenceBatch panic at its check; sequenceLeaves returns exactly
    one sequence number per leaf when it returns without error; and no run
    of SequenceBatch panics. *)
Theorem SequenceBatch_count_mismatch_is_fatal (s : Sequencer) (tx : TX)
    (cur : SignedLogRoot) (W limit : Z) (expiryFunc : SignedLogRoot -> bool)
    (o : Oracle)
    (leaves1 : list LogLeaf) (seqs1 : list Z) (mt1 : CompactMerkleTree)
    (nodeMap1 : gmap string Node)
    (mt mt' : CompactMerkleTree) (leaves : list LogLeaf)
    (nodeMap : gmap string Node) (seqs : list Z) :
  (length seqs1 <> length leaves1 ->
   exists msg,
     SequenceBatch_store s tx leaves1 cur mt1 W nodeMap1 seqs1 = Panic msg)
  /\ (sequenceLeaves s mt leaves = (mt', Ok (nodeMap, seqs)) ->
      length seqs = length leaves)
  /\ (exists r tr, run o (SequenceBatch s limit expiryFunc) = (Done r, tr)).
Proof.
  split; [|split].
  - intros Hne. unfold SequenceBatch_store.
    apply Nat.eqb_neq in Hne. rewrite Hne. simpl. eauto.
  - apply sequenceLeaves_length.
  - destruct (run o (SequenceBatch s limit expiryFunc)) as [out tr] eqn:Hrun.
    pose proof (run_runs _ _ _ _ Hrun) as Hr.
    apply SequenceBatch_runs in Hr.
    assert (exists r, out = Done r) as [r ->]; [|by eauto].
    destruct Hr as [(? & _ & ->)|(tx' & ? & _ & Hr)]; [by eauto|].
    destruct Hr as [(? & ? & _ & ->)|(lv & ? & _ & Hr)]; [by eauto|].
    destruct Hr as [(? & ? & _ & ->)|(c & ? & _ & Hr)]; [by eauto|].
    destruct Hr as [(_ & ? & ? & ? & _ & -> & _)|(_ & Hr)]; [by eauto|].
    destruct Hr as [(? & ? & ? & ? & _ & _ & _ & _ & ->)
                   |(? & m0 & W' & ? & _ & _ & Hr)]; [by eauto|].
    destruct Hr as [(_ & ? & _ & ->)|(_ & Hr)]; [by eauto|].
    destruct Hr as [(? & ? & ? & _ & _ & ->)|(m & nm & sq & Hseq & Hr)];
      [by eauto|].
    apply (SequenceBatch_store_runs _ _ _ _ _ _ _ _ _ _ _ Hseq) in Hr
      as (? & _ & _ & Hr).
    decompose [ex and or] Hr; eauto.
Qed.

(** C10.  A run of SequenceBatch that returns an error returns the count 0;
    a run that returns a count other than 0 returns no error, and it is a
    run in which a non-empty batch was dequeued, every call succeeded, the
    last call is the successful Commit of the transaction, and the count is
    the number of dequeued leaves. *)
Theorem SequenceBatch_count_zero_on_error (o : Oracle) (s : Sequencer)
    (limit : Z) (expiryFunc : SignedLogRoot -> bool) (n : Z)
    (e : option error) (tr : list event) :
  run o (SequenceBatch s limit expiryFunc) = (Done (n, e), tr) ->
  (e <> None -> n = 0)
  /\ (n <> 0 ->
      e = None
      /\ exists tx leaves pre,
          leaves <> [] /\ n = Z.of_nat (length leaves)
          /\ Ev (DequeueLeaves tx limit) (Ok leaves) ∈ tr
          /\ tr = pre ++ [Ev (Commit tx) None]
          /\ Forall (fun ev => failure ev = None) tr).
Proof.
  intros Hrun. apply run_runs, SequenceBatch_runs in Hrun.
  destruct Hrun as [(? & _ & [= -> ->])|(tx & ? & -> & Hr)]; [done|].
  destruct Hr as [(? & ? & _ & [= -> ->])|(leaves & ? & -> & Hr)]; [done|].
  destruct Hr as [(? & ? & _ & [= -> ->])|(cur & ? & -> & Hr)]; [done|].
  destruct Hr as [(_ & ? & ? & ? & _ & [= -> ->] & _)|(Hne & Hr)]; [done|].
  destruct Hr as [(? & ? & ? & ? & _ & _ & _ & _ & [= -> ->])
                 |(trh & mt0 & W & ? & -> & Hh & Hr)]; [done|].
  destruct Hr as [(_ & ? & _ & [= -> ->])|(-> & Hr)]; [done|].
  destruct Hr as [(? & ? & ? & _ & _ & [= -> ->])
                 |(mt & nodeMap & seqs & Hseq & Hr)]; [done|].
  apply (SequenceBatch_store_runs _ _ _ _ _ _ _ _ _ _ _ Hseq) in Hr
    as (leaves' & Ha & Hl & Hr).
  destruct Hr
    as [(err & r & -> & [= -> ->])
       |[(err & r & -> & [= -> ->])
        |[(now & trs & err & r & -> & Hsf & [= -> ->])
         |[(now & trs & sg & err & r & -> & Hsd & [= -> ->])
          |(now & trs & sg & e' & -> & Hsd & Hout)]]]]; try done.
  destruct e' as [err|]; injection Hout as -> ->; [done|].
  split; [done|]. intros _. split; [done|].
  shapes. eexists tx, leaves, _. split; [done|]. split; [done|].
  split; [by repeat constructor|]. split; [snoc|].
  repeat first [apply Forall_cons; split; [done|]
               |apply Forall_app; split; [by eapply good_succeeded|]
               |apply Forall_nil_2].
Qed.

(** ** The new tree head *)

(** C2.  A run of SequenceBatch that dequeues a non-empty batch and returns
    without error stores exactly one tree head, in the transaction of the
    batch.  Its log id is that of the previous root; its tree size is the size
    of the hydrated tree after sequenceLeaves has appended the dequeued
    leaves, which is the previous tree size plus the number of leaves; its
    root hash is the current root of that tree; its tree revision is the
    write revision of the transaction, which is the previous tree revision
    plus 1 in int64 arithmetic; and the count returned is the number of
    dequeued leaves. *)
Theorem SequenceBatch_stores_new_tree_head (o : Oracle) (s : Sequencer)
    (limit : Z) (expiryFunc : SignedLogRoot -> bool) (n : Z) (tx : TX)
    (leaves : list LogLeaf) (cur : SignedLogRoot) (rest : list event) :
  run o (SequenceBatch s limit expiryFunc)
  = (Done (n, None),
     Ev Begin (Ok tx) :: Ev (DequeueLeaves tx limit) (Ok leaves)
       :: Ev (LatestSignedLogRoot tx) (Ok cur) :: rest) ->
  leaves <> [] ->
  exists trh mt0 mt nodeMap seqs W sth,
    hydrated s cur tx trh mt0
    /\ sequenceLeaves s mt0 leaves = (mt, Ok (nodeMap, seqs))
    /\ Ev (WriteRevision tx) W ∈ rest
    /\ Ev (StoreSignedLogRoot tx sth) None ∈ rest
    /\ omap stored_root rest = [(tx, sth)]
    /\ LogId sth = LogId cur
    /\ TreeSize sth = Size mt
    /\ Size mt = TreeSize cur + Z.of_nat (length leaves)
    /\ RootHash sth = CurrentRoot mt
    /\ TreeRevision sth = W
    /\ W = add64 (TreeRevision cur) 1
    /\ (- 2 ^ 63 <= TreeRevision cur < 2 ^ 63 - 1 -> W = TreeRevision cur + 1)
    /\ n = Z.of_nat (length leaves).
Proof.
  intros Hrun Hne. apply run_runs, SequenceBatch_runs in Hrun.
  destruct Hrun as [(? & Heq & _)|(tx' & ? & Heq & Hr)]; trace_eq.
  destruct Hr as [(? & ? & Heq & _)|(leaves' & ? & Heq & Hr)]; trace_eq.
  destruct Hr as [(? & ? & Heq & _)|(cur' & ? & Heq & Hr)]; trace_eq.
  destruct Hr as [(-> & _)|(_ & Hr)]; [done|].
  destruct Hr as [(? & ? & ? & ? & _ & _ & _ & _ & [=])
                 |(trh & mt0 & W & rest3 & -> & Hh & Hr)].
  destruct Hr as [(_ & ? & _ & [=])|(-> & Hr)].
  destruct Hr as [(? & ? & ? & _ & _ & [=])
                 |(mt & nodeMap & seqs & Hseq & Hr)].
  pose proof (sequenceLeaves_ok _ _ _ _ _ _ Hseq) as (_ & Hsize & _).
  apply (SequenceBatch_store_runs _ _ _ _ _ _ _ _ _ _ _ Hseq) in Hr
    as (lv & Ha & Hl & Hr).
  destruct Hr
    as [(err & r & -> & [=])
       |[(err & r & -> & [=])
        |[(now & trs & err & r & -> & Hsf & [=])
         |[(now & trs & sg & err & r & -> & Hsd & [=])
          |(now & trs & sg & e' & -> & Hsd & Hout)]]]].
  destruct e' as [err|]; [discriminate Hout|]. injection Hout as ->.
  exists trh, mt0, mt, nodeMap, seqs, (add64 (TreeRevision cur') 1),
    (withSignature (newLogRoot mt now cur' (add64 (TreeRevision cur') 1)) sg).
  pose proof Hh as Hh'. shapes. good_projections.
  split; [done|]. split; [done|].
  split; [apply elem_of_app; right; apply list_elem_of_here|].
  split; [apply elem_of_app; right; by repeat constructor|].
  split; [by read_projections|].
  repeat split; try done.
  - lia.
  - apply add64_succ.
Qed.

(** C4.  In a run of SequenceBatch over a non-empty batch, a write revision
    reported by the transaction that differs from the tree revision of the
    current root plus 1 makes SequenceBatch return the revision-conflict
    error with count 0: the write revision is the last thing asked of the
    transaction before its Rollback, and the run has written no leaves, no
    nodes and no tree head and has not committed. *)
Theorem SequenceBatch_revision_conflict (o : Oracle) (s : Sequencer)
    (limit : Z) (expiryFunc : SignedLogRoot -> bool)
    (out : Outcome (Z * option error)) (tx : TX) (leaves : list LogLeaf)
    (cur : SignedLogRoot) (rest : list event) (W : Z) :
  run o (SequenceBatch s limit expiryFunc)
  = (out,
     Ev Begin (Ok tx) :: Ev (DequeueLeaves tx limit) (Ok leaves)
       :: Ev (LatestSignedLogRoot tx) (Ok cur) :: rest) ->
  leaves <> [] ->
  Ev (WriteRevision tx) W ∈ rest ->
  W <> add64 (TreeRevision cur) 1 ->
  out = Done (0, Some (ErrWriteRevision W (add64 (TreeRevision cur) 1)))
  /\ (exists pre r,
        rest = pre ++ [Ev (WriteRevision tx) W; Ev (Rollback tx) r]
        /\ calls_rollback pre = false)
  /\ writes rest = false
  /\ calls_commit rest = false.
Proof.
  intros Hrun Hne HW Hneq. apply run_runs, SequenceBatch_runs in Hrun.
  pose proof (projected reported_revision _ _ _ HW eq_refl) as Hp. clear HW.
  destruct Hrun as [(? & Heq & _)|(tx' & ? & Heq & Hr)]; trace_eq.
  destruct Hr as [(? & ? & Heq & _)|(leaves' & ? & Heq & Hr)]; trace_eq.
  destruct Hr as [(? & ? & Heq & _)|(cur' & ? & Heq & Hr)]; trace_eq.
  destruct Hr as [(-> & _)|(_ & Hr)]; [done|].
  destruct Hr as [(pre & tail & err & r & -> & Hg & Hf & _ & _)
                 |(trh & mt0 & W' & rest3 & -> & Hh & Hr)].
  { exfalso. shapes; good_projections; read_projections;
      by apply elem_of_nil in Hp. }
  destruct Hr as [(_ & r & -> & ->)|(-> & Hr)].
  { shapes. good_projections. good_facts. read_projections.
    apply list_elem_of_singleton in Hp. simplify_eq.
    split; [done|]. split; [|by read_trace].
    exists trh, r. split; [done|]. by read_trace. }
  exfalso.
  destruct Hr as [(mt & err & r & Hseq & -> & ->)
                 |(mt & nodeMap & seqs & Hseq & Hr)].
  { shapes. good_projections. read_projections.
    apply list_elem_of_singleton in Hp. congruence. }
  apply (SequenceBatch_store_runs _ _ _ _ _ _ _ _ _ _ _ Hseq) in Hr
    as (lv & Ha & Hl & Hr).
  destruct Hr
    as [(err & r & -> & _)
       |[(err & r & -> & _)
        |[(now & trs & err & r & -> & Hsf & _)
         |[(now & trs & sg & err & r & -> & Hsd & _)
          |(now & trs & sg & e' & -> & Hsd & _)]]]];
    shapes; good_projections; read_projections;
    apply list_elem_of_singleton in Hp; congruence.
Qed.

(** ** Hydration and the number of nodes fetched *)

(** A fetch answered with other than one node is the last call of a failed
    hydration. *)
Lemma bad_fetch_last tx rev err pre tail tx' rev' ids nodes :
  Forall (good_fetch tx rev) pre ->
  failed_fetch tx rev err tail ->
  (tx', rev', ids, nodes) ∈ omap answered_nodes (pre ++ tail) ->
  slice_len nodes <> 1 ->
  exists id,
    tx' = tx /\ rev' = rev /\ ids = [id]
    /\ tail = [Ev (GetMerkleNodes tx rev [id]) (Ok nodes)]
    /\ err = ErrNodeCount (slice_len nodes) (NodeID_String id) rev.
Proof.
  intros Hg Hf Hq Hn. shapes; good_projections; read_projections;
    find_answer Hq.
  simplify_eq. eexists. by repeat split.
Qed.

Lemma buildMerkleTreeFromStorageAtRoot_bad_fetch s root tx tr out tx' rev ids
    nodes :
  runs (buildMerkleTreeFromStorageAtRoot s root tx) tr out ->
  (tx', rev, ids, nodes) ∈ omap answered_nodes tr ->
  slice_len nodes <> 1 ->
  exists id pre,
    tx' = tx /\ rev = TreeRevision root /\ ids = [id]
    /\ tr = pre ++ [Ev (GetMerkleNodes tx' rev ids) (Ok nodes)]
    /\ out = Done (Error (ErrNodeCount (slice_len nodes) (NodeID_String id)
                            rev)).
Proof.
  intros Hr Hq Hn. apply buildMerkleTreeFromStorageAtRoot_runs in Hr
    as [(mt & -> & Hg & _)|(err & pre & tail & -> & -> & Hg & Hf)].
  - exfalso. good_projections. find_answer Hq.
  - destruct (bad_fetch_last _ _ _ _ _ _ _ _ _ Hg Hf Hq Hn)
      as (id & -> & -> & -> & -> & ->).
    by exists id, pre.
Qed.

Lemma SignRoot_bad_fetch s tr out tx rev ids nodes :
  runs (SignRoot s) tr out ->
  (tx, rev, ids, nodes) ∈ omap answered_nodes tr ->
  slice_len nodes <> 1 ->
  exists id pre r,
    ids = [id]
    /\ tr = pre ++ [Ev (GetMerkleNodes tx rev ids) (Ok nodes);
                    Ev (Rollback tx) r]
    /\ out = Done (Some (ErrNodeCount (slice_len nodes) (NodeID_String id)
                           rev)).
Proof.
  intros Hr Hq Hn. apply SignRoot_runs in Hr
    as [(err & -> & ->)
       |[(tx0 & err & r & -> & ->)
        |[(tx0 & cur & pre & tail & err & r & -> & Hg & Hf & _ & ->)
         |[(tx0 & cur & trh & mt & now & trs & err & r & -> & Hh & Hsf & ->)
          |[(tx0 & cur & trh & mt & now & trs & sg & err & r & -> & Hh & Hsd
             & ->)
           |(tx0 & cur & trh & mt & now & trs & sg & e & -> & Hh & Hsd
             & ->)]]]]].
  3:{ simpl in Hq. rewrite app_assoc, omap_app in Hq. simpl in Hq.
      rewrite app_nil_r in Hq.
      destruct (bad_fetch_last _ _ _ _ _ _ _ _ _ Hg Hf Hq Hn)
        as (id & -> & -> & -> & -> & ->).
      exists id, (Ev Begin (Ok tx0) :: Ev (LatestSignedLogRoot tx0) (Ok cur)
                    :: pre), r.
      split; [done|]. split; [|done]. list_eq. }
  all: exfalso; shapes; good_projections; read_projections; find_answer Hq.
Qed.

Lemma SequenceBatch_bad_fetch s limit expiryFunc tr out tx rev ids nodes :
  runs (SequenceBatch s limit expiryFunc) tr out ->
  (tx, rev, ids, nodes) ∈ omap answered_nodes tr ->
  slice_len nodes <> 1 ->
  exists id pre r,
    ids = [id]
    /\ tr = pre ++ [Ev (GetMerkleNodes tx rev ids) (Ok nodes);
                    Ev (Rollback tx) r]
    /\ out = Done (0, Some (ErrNodeCount (slice_len nodes) (NodeID_String id)
                              rev)).
Proof.
  intros Hr Hq Hn. apply SequenceBatch_runs in Hr.
  destruct Hr as [(? & -> & _)|(tx0 & ? & -> & Hr)];
    [exfalso; read_projections; find_answer Hq|].
  destruct Hr as [(? & ? & -> & _)|(leaves & ? & -> & Hr)];
    [exfalso; read_projections; find_answer Hq|].
  destruct Hr as [(? & ? & -> & _)|(cur & ? & -> & Hr)];
    [exfalso; read_projections; find_answer Hq|].
  destruct Hr as [(-> & r0 & tr2 & e & -> & -> & Hsr)|(_ & Hr)].
  { destruct (expiryFunc cur).
    - simpl in Hq.
      destruct (SignRoot_bad_fetch _ _ _ _ _ _ _ Hsr Hq Hn)
        as (id & pre & r & -> & -> & [= ->]).
      exists id, (Ev Begin (Ok tx0) :: Ev (DequeueLeaves tx0 limit) (Ok [])
                    :: Ev (LatestSignedLogRoot tx0) (Ok cur)
                    :: Ev (Commit tx0) r0 :: pre), r.
      by repeat split.
    - destruct Hsr as [-> ->]. exfalso. read_projections. find_answer Hq. }
  destruct Hr as [(pre & tail & err & r & -> & Hg & Hf & _ & ->)
                 |(trh & mt0 & W & rest3 & -> & Hh & Hr)].
  { simpl in Hq. rewrite app_assoc, omap_app in Hq. simpl in Hq.
    rewrite app_nil_r in Hq.
    destruct (bad_fetch_last _ _ _ _ _ _ _ _ _ Hg Hf Hq Hn)
      as (id & -> & -> & -> & -> & ->).
    exists id, (Ev Begin (Ok tx0) :: Ev (DequeueLeaves tx0 limit) (Ok leaves)
                  :: Ev (LatestSignedLogRoot tx0) (Ok cur) :: pre), r.
    split; [done|]. split; [|done]. list_eq. }
  exfalso.
  destruct Hr as [(_ & r & -> & ->)|(-> & Hr)];
    [shapes; good_projections; read_projections; find_answer Hq|].
  destruct Hr as [(mt & err & r & Hseq & -> & ->)
                 |(mt & nodeMap & seqs & Hseq & Hr)];
    [shapes; good_projections; read_projections; find_answer Hq|].
  apply (SequenceBatch_store_runs _ _ _ _ _ _ _ _ _ _ _ Hseq) in Hr
    as (lv & Ha & Hl & Hr).
  destruct Hr
    as [(err & r & -> & _)
       |[(err & r & -> & _)
        |[(now & trs & err & r & -> & Hsf & _)
         |[(now & trs & sg & err & r & -> & Hsd & _)
          |(now & trs & sg & e' & -> & Hsd & _)]]]];
    shapes; good_projections; read_projections; find_answer Hq.
Qed.

Lemma bad_count {A} (nodes : slice A) :
  nodes = None \/ slice_len nodes <> 1 -> slice_len nodes <> 1.
Proof. by intros [->|?]. Qed.

(** C7.  When a fetch of the hydration is answered with anything but
    exactly one node (a nil slice, no node, several nodes), the hydration
    (buildMerkleTreeFromStorageAtRoot) stops at that answer and fails with the
    node-count error; a SequenceBatch or a SignRoot in which this happens
    rolls its transaction back next and returns that error. *)
Theorem hydration_needs_exactly_one_node (o : Oracle) (s : Sequencer)
    (root : SignedLogRoot) (tx0 : TX) (limit : Z)
    (expiryFunc : SignedLogRoot -> bool) (tx : TX) (rev : Z)
    (ids : list NodeID) (nodes : slice Node) :
  nodes = None \/ slice_len nodes <> 1 ->
  (forall out tr,
     run o (buildMerkleTreeFromStorageAtRoot s root tx0) = (out, tr) ->
     Ev (GetMerkleNodes tx rev ids) (Ok nodes) ∈ tr ->
     exists id pre,
       tx = tx0 /\ rev = TreeRevision root /\ ids = [id]
       /\ tr = pre ++ [Ev (GetMerkleNodes tx rev ids) (Ok nodes)]
       /\ out = Done (Error (ErrNodeCount (slice_len nodes)
                               (NodeID_String id) rev)))
  /\ (forall out tr,
        run o (SequenceBatch s limit expiryFunc) = (out, tr) ->
        Ev (GetMerkleNodes tx rev ids) (Ok nodes) ∈ tr ->
        exists id pre r,
          ids = [id]
          /\ tr = pre ++ [Ev (GetMerkleNodes tx rev ids) (Ok nodes);
                          Ev (Rollback tx) r]
          /\ out = Done (0, Some (ErrNodeCount (slice_len nodes)
                                    (NodeID_String id) rev)))
  /\ (forall out tr,
        run o (SignRoot s) = (out, tr) ->
        Ev (GetMerkleNodes tx rev ids) (Ok nodes) ∈ tr ->
        exists id pre r,
          ids = [id]
          /\ tr = pre ++ [Ev (GetMerkleNodes tx rev ids) (Ok nodes);
                          Ev (Rollback tx) r]
          /\ out = Done (Some (ErrNodeCount (slice_len nodes)
                                 (NodeID_String id) rev))).
Proof.
  intros Hn%bad_count. split; [|split]; intros out tr Hrun%run_runs Hin;
    pose proof (projected answered_nodes _ _ _ Hin eq_refl) as Hq.
  - by eapply buildMerkleTreeFromStorageAtRoot_bad_fetch.
  - by eapply SequenceBatch_bad_fetch.
  - by eapply SignRoot_bad_fetch.
Qed.

(** ** SignRoot *)

(** The fields of the tree head that a SignRoot hands to
    StoreSignedLogRoot. *)
Ltac stored_fields Hin Hcur Hh Hsd :=
  let Hq := fresh "Hq" in
  let Hq' := fresh "Hq" in
  pose proof (projected stored_root _ _ _ Hin eq_refl) as Hq; clear Hin;
  pose proof (projected loaded_root _ _ _ Hcur eq_refl) as Hq'; clear Hcur;
  match type of Hh with
  | hydrated _ ?cur _ ?trh ?mt =>
      let Hg := fresh "Hg" in
      let Hsz := fresh "Hsz" in
      let Hz := fresh "Hz" in
      pose proof Hh as (_ & Hg & Hsz & _ & Hz);
      destruct Hsd as (? & ->);
      good_projections; read_projections; find_answer Hq; find_answer Hq';
      simplify_eq;
      exists trh, mt;
      (split; [exact Hh|]);
      (split; [reflexivity|]); (split; [apply add64_succ|]);
      (split; [exact Hsz|]); (split; [reflexivity|]);
      (split; [reflexivity|]);
      (split; [|by intros ->]);
      let Hs0 := fresh "Hs0" in
      intros Hs0; destruct (Hz Hs0) as [-> ->]; by rewrite <- Hs0
  end.

(** C8.  A SignRoot that returns without error has stored a tree head; and
    any tree head that a run of SignRoot stores belongs to the hydrated tree
    of the current root that its transaction returned: its tree revision is
    the current tree revision plus 1 (in int64 arithmetic), its tree size is
    the current tree size, its root hash is the current root of the hydrated
    tree.  On a log of tree size 0 the hydrated tree is the fresh empty
    compact tree, so the tree size stored is 0 and the root hash is the root
    of the empty tree; with tree revision 0 the revision stored is 1. *)
Theorem SignRoot_stores_next_revision (o : Oracle) (s : Sequencer)
    (out : Outcome (option error)) (tr : list event) :
  run o (SignRoot s) = (out, tr) ->
  (out = Done None ->
   exists tx sth, Ev (StoreSignedLogRoot tx sth) None ∈ tr)
  /\ (forall tx sth r cur,
        Ev (StoreSignedLogRoot tx sth) r ∈ tr ->
        Ev (LatestSignedLogRoot tx) (Ok cur) ∈ tr ->
        exists trh mt,
          hydrated s cur tx trh mt
          /\ TreeRevision sth = add64 (TreeRevision cur) 1
          /\ (- 2 ^ 63 <= TreeRevision cur < 2 ^ 63 - 1 ->
              TreeRevision sth = TreeRevision cur + 1)
          /\ TreeSize sth = TreeSize cur
          /\ RootHash sth = CurrentRoot mt
          /\ LogId sth = LogId cur
          /\ (TreeSize cur = 0 ->
              mt = NewCompactMerkleTree (hasher s)
              /\ TreeSize sth = 0 /\ RootHash sth = HashEmpty (hasher s))
          /\ (TreeRevision cur = 0 -> TreeRevision sth = 1)).
Proof.
  intros Hr%run_runs. apply SignRoot_runs in Hr
    as [(err & -> & ->)
       |[(tx0 & err & r0 & -> & ->)
        |[(tx0 & cur & pre & tail & err & r0 & -> & Hg & Hf & _ & ->)
         |[(tx0 & cur & trh & mt & now & trs & err & r0 & -> & Hh & Hsf & ->)
          |[(tx0 & cur & trh & mt & now & trs & sg & err & r0 & -> & Hh & Hsd
             & ->)
           |(tx0 & cur & trh & mt & now & trs & sg & e & -> & Hh & Hsd
             & ->)]]]]].
  1-4: split; [done|]; intros tx sth r cur' Hin _;
    pose proof (projected stored_root _ _ _ Hin eq_refl) as Hq; clear Hin;
    exfalso; shapes; good_projections; read_projections; find_answer Hq.
  - split; [done|]. intros tx sth r cur' Hin Hcur.
    by stored_fields Hin Hcur Hh Hsd.
  - split; [|intros tx sth r cur' Hin Hcur; by stored_fields Hin Hcur Hh Hsd].
    intros _. destruct Hsd as (signer & ->). eexists tx0, _.
    do 2 apply list_elem_of_further. apply elem_of_app. right.
    by repeat constructor.
Qed.

(** ** Errors that are not surfaced *)

(** The closure of sequenceLeaves drops the node, and the error, when the
    node id cannot be made. *)
Lemma recordNode_drops_error (depth index : Z) (hash : Hash)
    (nodeMap : gmap string Node) (err : error) :
  NewNodeIDForTreeCoords depth index maxTreeDepth = Error err ->
  recordNode depth index hash nodeMap = nodeMap.
Proof. unfold recordNode. by intros ->. Qed.

(** The Commit of the final step is checked. *)
Lemma final_commit_error_returned s tx leaves cur mt0 mt W nodeMap seqs
    pre err out :
  sequenceLeaves s mt0 leaves = (mt, Ok (nodeMap, seqs)) ->
  runs (SequenceBatch_store s tx leaves cur mt W nodeMap seqs)
    (pre ++ [Ev (Commit tx) (Some err)]) out ->
  out = Done (0, Some err).
Proof.
  intros Hseq Hr.
  apply (SequenceBatch_store_runs _ _ _ _ _ _ _ _ _ _ _ Hseq) in Hr
    as (lv & Ha & Hl & Hr).
  assert (Hlast : forall tr x y,
            pre ++ [Ev (Commit tx) (Some err)] = tr ++ [x; y] ->
            record y = Commit_r tx (Some err)).
  { intros tr x y Heq.
    assert (Hl' : last (pre ++ [Ev (Commit tx) (Some err)]) = Some y).
    { rewrite Heq.
      replace (tr ++ [x; y]) with ((tr ++ [x]) ++ [y])
        by (by rewrite <- app_assoc).
      apply last_snoc. }
    rewrite last_snoc in Hl'. by injection Hl' as <-. }
  destruct Hr
    as [(e & r & Heq & _)
       |[(e & r & Heq & _)
        |[(now & trs & e & r & Heq & Hsf & _)
         |[(now & trs & sg & e & r & Heq & Hsd & _)
          |(now & trs & sg & e' & Heq & Hsd & ->)]]]].
  5:{ specialize (Hlast (_ :: _ :: _ :: trs) _ _ Heq). simpl in Hlast.
      by injection Hlast as ->. }
  - by specialize (Hlast [] _ _ Heq).
  - by specialize (Hlast [_] _ _ Heq).
  - shapes.
    + by specialize (Hlast [_; _; _] _ _ Heq).
    + by specialize (Hlast [_; _; _; _] _ _ Heq).
  - by specialize (Hlast (_ :: _ :: _ :: trs) _ _ Heq).
Qed.
(** ** Further properties of the code *)

(** *** buildNodesFromNodeMap *)

(** X1.  buildNodesFromNodeMap never fails; it returns one node per entry of
    the node map, each with the node id and the hash of its entry and with
    the new version as its revision, whatever revision the entry had. *)
Theorem buildNodesFromNodeMap_stamps_revision (s : Sequencer)
    (nodeMap : gmap string Node) (newVersion : Z) :
  exists nodes,
    buildNodesFromNodeMap s nodeMap newVersion = Ok nodes
    /\ length nodes = size nodeMap
    /\ Forall (fun node => NodeRevision node = newVersion) nodes
    /\ forall node,
         node ∈ nodes
         <-> exists key entry,
               nodeMap !! key = Some entry
               /\ Node_NodeID node = Node_NodeID entry
               /\ Node_Hash node = Node_Hash entry
               /\ NodeRevision node = newVersion.
Proof.
  eexists. split; [reflexivity|]. split; [|split].
  - by rewrite length_map, length_map_to_list.
  - apply Forall_forall. intros node Hin.
    apply list_elem_of_fmap in Hin as (kv & -> & _). done.
  - intros node. split.
    + intros Hin. apply list_elem_of_fmap in Hin as ([key entry] & -> & Hkv).
      apply elem_of_map_to_list in Hkv. by exists key, entry.
    + intros (key & entry & Hkv & Hid & Hh & Hrev).
      apply list_elem_of_fmap. exists (key, entry).
      split; [|by apply elem_of_map_to_list].
      destruct node. simpl in *. by subst.
Qed.

(** *** sequenceLeaves *)

Lemma recordNode_cases depth index hash (nodeMap : gmap string Node) :
  (exists err, NewNodeIDForTreeCoords depth index maxTreeDepth = Error err
               /\ recordNode depth index hash nodeMap = nodeMap)
  \/ (exists id, NewNodeIDForTreeCoords depth index maxTreeDepth = Ok id
                 /\ recordNode depth index hash nodeMap
                    = <[NodeID_String id :=
                          {| Node_NodeID := id; Node_Hash := hash;
                             NodeRevision := 0 |}]> nodeMap).
Proof.
  unfold recordNode.
  destruct (NewNodeIDForTreeCoords depth index maxTreeDepth) as [id|err];
    eauto.
Qed.

Lemma recordAll_snoc updates u nodeMap :
  recordAll (updates ++ [u]) nodeMap
  = recordNode u.1.1 u.1.2 u.2 (recordAll updates nodeMap).
Proof. by rewrite recordAll_app. Qed.

Lemma sequenceLeaves_loop_unfold (s : Sequencer) mt leaves :
  sequenceLeaves s mt leaves = sequenceLeaves_loop mt leaves ∅ [].
Proof. by with_strategy transparent [sequenceLeaves] unfold sequenceLeaves. Qed.

(** The loop of sequenceLeaves stops at the first leaf whose leaf-level
    node id cannot be made. *)
Lemma sequenceLeaves_loop_error mt leaves nodeMap seqs mt' err :
  sequenceLeaves_loop mt leaves nodeMap seqs = (mt', Error err) ->
  exists i : nat,
    (i < length leaves)%nat
    /\ NewNodeIDForTreeCoords 0 (Size mt + Z.of_nat i) maxTreeDepth = Error err
    /\ (forall j : nat, (j < i)%nat ->
          exists id,
            NewNodeIDForTreeCoords 0 (Size mt + Z.of_nat j) maxTreeDepth
            = Ok id)
    /\ Size mt' = Size mt + Z.of_nat i + 1.
Proof.
  revert mt nodeMap seqs.
  induction leaves as [|leaf leaves IH]; intros mt nodeMap seqs; simpl;
    [done|].
  destruct (AddLeafHash mt (LeafHash leaf) recordNode nodeMap)
    as [[mt1 seq] nodeMap1] eqn:Hadd.
  apply AddLeafHash_seq in Hadd as (-> & Hsize & Hh).
  destruct (NewNodeIDForTreeCoords 0 (Size mt) maxTreeDepth) as [id|err0]
    eqn:Hid.
  - intros Hloop. apply IH in Hloop as (i & Hi & Herr & Hbefore & Hsz).
    exists (S i). split; [lia|]. split.
    { rewrite <- Herr. f_equal. lia. }
    split; [|lia].
    intros [|j] Hj.
    + exists id. rewrite <- Hid. f_equal. lia.
    + destruct (Hbefore j) as [id' Hid']; [lia|]. exists id'.
      rewrite <- Hid'. f_equal. lia.
  - intros [= <- <-]. exists 0%nat. split; [lia|]. split.
    { rewrite <- Hid. f_equal. lia. }
    split; [|lia]. intros j Hj. lia.
Qed.

Lemma sequenceLeaves_loop_succeeds mt leaves nodeMap seqs :
  (forall i : nat, (i < length leaves)%nat ->
     exists id,
       NewNodeIDForTreeCoords 0 (Size mt + Z.of_nat i) maxTreeDepth = Ok id) ->
  exists mt' nodeMap' seqs',
    sequenceLeaves_loop mt leaves nodeMap seqs = (mt', Ok (nodeMap', seqs')).
Proof.
  intros Hids.
  destruct (sequenceLeaves_loop mt leaves nodeMap seqs) as [mt' [[nm sq]|err]]
    eqn:Hloop; [by eauto|].
  apply sequenceLeaves_loop_error in Hloop as (i & Hi & Herr & _).
  destruct (Hids i Hi) as [id Hid]. congruence.
Qed.

Lemma recordNode_keeps_keys depth index hash (nodeMap : gmap string Node) key :
  is_Some (nodeMap !! key) ->
  is_Some (recordNode depth index hash nodeMap !! key).
Proof.
  intros Hk.
  destruct (recordNode_cases depth index hash nodeMap)
    as [(err & _ & ->)|(id & _ & ->)]; [done|].
  rewrite lookup_insert_is_Some. destruct (decide (NodeID_String id = key));
    auto.
Qed.

Lemma recordAll_keeps_keys updates (nodeMap : gmap string Node) key :
  is_Some (nodeMap !! key) -> is_Some (recordAll updates nodeMap !! key).
Proof.
  revert nodeMap. induction updates as [|u updates IH]; intros nodeMap Hk;
    [done|].
  apply (IH (recordNode u.1.1 u.1.2 u.2 nodeMap)).
  by apply recordNode_keeps_keys.
Qed.

Lemma sequenceLeaves_loop_keys mt leaves nodeMap seqs mt' nodeMap' seqs' :
  sequenceLeaves_loop mt leaves nodeMap seqs = (mt', Ok (nodeMap', seqs')) ->
  (forall key, is_Some (nodeMap !! key) -> is_Some (nodeMap' !! key))
  /\ forall (i : nat) leaf,
       leaves !! i = Some leaf ->
       exists id,
         NewNodeIDForTreeCoords 0 (Size mt + Z.of_nat i) maxTreeDepth = Ok id
         /\ is_Some (nodeMap' !! NodeID_String id).
Proof.
  revert mt nodeMap seqs.
  induction leaves as [|leaf0 leaves IH]; intros mt nodeMap seqs; simpl.
  - intros [= <- <- <-]. split; [done|]. intros i leaf Hi. by destruct i.
  - rewrite AddLeafHash_emit.
    destruct (NewNodeIDForTreeCoords 0 (Size mt) maxTreeDepth) as [id|err]
      eqn:Hid; [|done].
    intros Hloop.
    assert (Hsz : Size (appended mt (LeafHash leaf0)) = Size mt + 1).
    { pose proof (AddLeafHash_emit mt (LeafHash leaf0) keep []) as He.
      by apply AddLeafHash_seq in He as (_ & He & _). }
    apply IH in Hloop as (Hkeys & Hleaves). split.
    + intros key Hk. apply Hkeys. rewrite lookup_insert_is_Some.
      destruct (decide (NodeID_String id = key)); [by left|right].
      split; [done|].
      by apply (recordAll_keeps_keys (emitted mt (LeafHash leaf0))).
    + intros [|i] leaf Hi; simpl in Hi.
      * exists id. split; [rewrite <- Hid; f_equal; lia|].
        apply Hkeys. rewrite lookup_insert_is_Some. by left.
      * destruct (Hleaves i leaf Hi) as (id' & Hid' & Hk'). exists id'.
        split; [|done]. rewrite <- Hid'. f_equal. lia.
Qed.

Lemma sequenceLeaves_first_bad_leaf (s : Sequencer) mt leaves (i : nat) err :
  (i < length leaves)%nat ->
  NewNodeIDForTreeCoords 0 (Size mt + Z.of_nat i) maxTreeDepth = Error err ->
  (forall j : nat, (j < i)%nat ->
     exists id,
       NewNodeIDForTreeCoords 0 (Size mt + Z.of_nat j) maxTreeDepth = Ok id) ->
  exists mt', sequenceLeaves s mt leaves = (mt', Error err).
Proof.
  intros Hi Herr Hbefore. rewrite sequenceLeaves_loop_unfold.
  destruct (sequenceLeaves_loop mt leaves ∅ []) as [mt' [[nm sq]|err']]
    eqn:Hloop.
  - apply sequenceLeaves_loop_keys in Hloop as (_ & Hleaves).
    destruct (lookup_lt_is_Some_2 leaves i Hi) as [leaf Hleaf].
    destruct (Hleaves i leaf Hleaf) as (id & Hid & _). congruence.
  - apply sequenceLeaves_loop_error in Hloop as (i' & Hi' & Herr' & Hbefore' & _).
    exists mt'. destruct (Nat.lt_trichotomy i i') as [Hlt|[->|Hlt]].
    + destruct (Hbefore' i Hlt) as [id Hid]. congruence.
    + congruence.
    + destruct (Hbefore i' Hlt) as [id Hid]. congruence.
Qed.

(** X2.  sequenceLeaves fails exactly when the node id of level 0 cannot be
    made for one of the leaves, the leaves being numbered by the compact
    tree from its size on.  If it fails, the error returned is the one met at
    the first such leaf, and by then that leaf and the leaves before it have
    been appended to the tree; if the node id can be made for every leaf, it
    returns without error.  Conversely, if the node id cannot be made for
    some leaf, sequenceLeaves does not return without error, and it returns
    the error of the first leaf whose node id cannot be made. *)
Theorem sequenceLeaves_fails_at_first_bad_leaf_id (s : Sequencer)
    (mt : CompactMerkleTree) (leaves : list LogLeaf) :
  (forall mt' err,
     sequenceLeaves s mt leaves = (mt', Error err) ->
     exists i : nat,
       (i < length leaves)%nat
       /\ NewNodeIDForTreeCoords 0 (Size mt + Z.of_nat i) maxTreeDepth
          = Error err
       /\ (forall j : nat, (j < i)%nat ->
             exists id,
               NewNodeIDForTreeCoords 0 (Size mt + Z.of_nat j) maxTreeDepth
               = Ok id)
       /\ Size mt' = Size mt + Z.of_nat i + 1)
  /\ ((forall i : nat, (i < length leaves)%nat ->
         exists id,
           NewNodeIDForTreeCoords 0 (Size mt + Z.of_nat i) maxTreeDepth
           = Ok id) ->
      exists mt' nodeMap seqs,
        sequenceLeaves s mt leaves = (mt', Ok (nodeMap, seqs)))
  /\ (forall (i : nat) err,
        (i < length leaves)%nat ->
        NewNodeIDForTreeCoords 0 (Size mt + Z.of_nat i) maxTreeDepth
        = Error err ->
        (forall j : nat, (j < i)%nat ->
           exists id,
             NewNodeIDForTreeCoords 0 (Size mt + Z.of_nat j) maxTreeDepth
             = Ok id) ->
        exists mt', sequenceLeaves s mt leaves = (mt', Error err))
  /\ (forall (i : nat) err mt' nodeMap seqs,
        (i < length leaves)%nat ->
        NewNodeIDForTreeCoords 0 (Size mt + Z.of_nat i) maxTreeDepth
        = Error err ->
        sequenceLeaves s mt leaves <> (mt', Ok (nodeMap, seqs))).
Proof.
  split; [|split; [|split]].
  - intros mt' err. rewrite sequenceLeaves_loop_unfold.
    apply sequenceLeaves_loop_error.
  - rewrite sequenceLeaves_loop_unfold. apply sequenceLeaves_loop_succeeds.
  - apply sequenceLeaves_first_bad_leaf.
  - intros i err mt' nodeMap seqs Hi Herr Hseq.
    rewrite sequenceLeaves_loop_unfold in Hseq.
    apply sequenceLeaves_loop_keys in Hseq as (_ & Hleaves).
    destruct (lookup_lt_is_Some_2 leaves i Hi) as [leaf Hleaf].
    destruct (Hleaves i leaf Hleaf) as (id & Hid & _). congruence.
Qed.

Lemma recordAll_recorded updates0 updates nodeMap :
  map_Forall (recorded updates0) nodeMap ->
  (forall u, u ∈ updates -> u ∈ updates0) ->
  map_Forall (recorded updates0) (recordAll updates nodeMap).
Proof.
  revert nodeMap. induction updates as [|u updates IH]; intros nodeMap Hm Hsub;
    [done|].
  change (recordAll (u :: updates) nodeMap)
    with (recordAll updates (recordNode u.1.1 u.1.2 u.2 nodeMap)).
  apply IH.
  - destruct (recordNode_cases u.1.1 u.1.2 u.2 nodeMap)
      as [(err & _ & ->)|(id & Hid & ->)]; [done|].
    apply map_Forall_insert_2; [|done].
    split; [done|]. split; [done|]. exists u.1.1, u.1.2. simpl.
    split; [|done]. destruct u as [[d i] h]. apply Hsub, list_elem_of_here.
  - intros u' Hu'. by apply Hsub, list_elem_of_further.
Qed.

(** X3.  Every entry of the node map that sequenceLeaves returns is filed
    under the string of its own node id, has no revision yet, and holds the
    hash of one of the node updates of the batch (a hash the compact tree
    emitted, or the hash of a leaf at level 0) together with the node id made
    of the coordinates of that update. *)
Theorem sequenceLeaves_node_map_entries (s : Sequencer)
    (mt mt' : CompactMerkleTree) (leaves : list LogLeaf)
    (nodeMap : gmap string Node) (seqs : list Z) :
  sequenceLeaves s mt leaves = (mt', Ok (nodeMap, seqs)) ->
  map_Forall (recorded (node_updates mt leaves)) nodeMap
  /\ (size nodeMap <= length (node_updates mt leaves))%nat.
Proof.
  intros ->%sequenceLeaves_records. split.
  - apply recordAll_recorded; [apply map_Forall_empty|done].
  - generalize (node_updates mt leaves) as updates.
    intros updates. induction updates as [|u updates IH] using rev_ind;
      [done|].
    rewrite recordAll_snoc, length_app. simpl.
    destruct (recordNode_cases u.1.1 u.1.2 u.2 (recordAll updates ∅))
      as [(err & _ & ->)|(id & _ & ->)]; [lia|].
    pose proof (map_size_insert (NodeID_String id)
                  {| Node_NodeID := id; Node_Hash := u.2; NodeRevision := 0 |}
                  (recordAll updates ∅)) as Hsz.
    destruct (recordAll updates ∅ !! NodeID_String id); simpl in Hsz; lia.
Qed.

(** X4.  When sequenceLeaves returns without error, every leaf of the batch
    has its node of level 0 in the node map: the node id made of depth 0 and
    the sequence number of the leaf exists, and the node map has an entry
    under its string. *)
Theorem sequenceLeaves_records_every_leaf (s : Sequencer)
    (mt mt' : CompactMerkleTree) (leaves : list LogLeaf)
    (nodeMap : gmap string Node) (seqs : list Z) (i : nat) (leaf : LogLeaf) :
  sequenceLeaves s mt leaves = (mt', Ok (nodeMap, seqs)) ->
  leaves !! i = Some leaf ->
  exists id node,
    seqs !! i = Some (Size mt + Z.of_nat i)
    /\ NewNodeIDForTreeCoords 0 (Size mt + Z.of_nat i) maxTreeDepth = Ok id
    /\ nodeMap !! NodeID_String id = Some node.
Proof.
  intros Hseq Hi.
  pose proof (sequenceLeaves_ok _ _ _ _ _ _ Hseq) as (-> & _).
  rewrite sequenceLeaves_loop_unfold in Hseq.
  apply sequenceLeaves_loop_keys in Hseq as (_ & Hleaves).
  destruct (Hleaves i leaf Hi) as (id & Hid & [node Hnode]).
  exists id, node. split; [|done].
  apply lookup_seqZ. split; [done|]. apply lookup_lt_Some in Hi. lia.
Qed.

Lemma recordNode_union depth index hash (m1 m2 : gmap string Node) :
  recordNode depth index hash (m1 ∪ m2) = recordNode depth index hash m1 ∪ m2.
Proof.
  unfold recordNode.
  destruct (NewNodeIDForTreeCoords depth index maxTreeDepth); [|done].
  by rewrite insert_union_l.
Qed.

Lemma recordAll_union updates (m1 m2 : gmap string Node) :
  recordAll updates (m1 ∪ m2) = recordAll updates m1 ∪ m2.
Proof.
  revert m1. induction updates as [|u updates IH]; intros m1; [done|].
  change (recordAll (u :: updates) (m1 ∪ m2))
    with (recordAll updates (recordNode u.1.1 u.1.2 u.2 (m1 ∪ m2))).
  by rewrite recordNode_union, IH.
Qed.

(** What the loop of sequenceLeaves does to a node map and to a list of
    sequence numbers does not depend on what they held before. *)
Lemma sequenceLeaves_loop_frame mt leaves nodeMap0 seqs0 nodeMap seqs :
  sequenceLeaves_loop mt leaves (nodeMap0 ∪ nodeMap) (seqs ++ seqs0)
  = match sequenceLeaves_loop mt leaves nodeMap0 seqs0 with
    | (mt', Ok (nodeMap', seqs')) => (mt', Ok (nodeMap' ∪ nodeMap, seqs ++ seqs'))
    | (mt', Error err) => (mt', Error err)
    end.
Proof.
  revert mt nodeMap0 seqs0.
  induction leaves as [|leaf leaves IH]; intros mt nodeMap0 seqs0; simpl;
    [done|].
  rewrite !AddLeafHash_emit.
  destruct (NewNodeIDForTreeCoords 0 (Size mt) maxTreeDepth) as [id|err];
    [|done].
  change (foldl (fun st u => recordNode u.1.1 u.1.2 u.2 st) ?m ?us)
    with (recordAll us m).
  rewrite recordAll_union, insert_union_l, <- app_assoc. apply IH.
Qed.

Lemma sequenceLeaves_loop_app mt l1 l2 nodeMap seqs :
  sequenceLeaves_loop mt (l1 ++ l2) nodeMap seqs
  = match sequenceLeaves_loop mt l1 nodeMap seqs with
    | (mt1, Ok (nodeMap1, seqs1)) => sequenceLeaves_loop mt1 l2 nodeMap1 seqs1
    | (mt1, Error err) => (mt1, Error err)
    end.
Proof.
  revert mt nodeMap seqs.
  induction l1 as [|leaf l1 IH]; intros mt nodeMap seqs; simpl; [done|].
  destruct (AddLeafHash mt (LeafHash leaf) recordNode nodeMap)
    as [[mt1 seq] nodeMap1].
  destruct (NewNodeIDForTreeCoords 0 seq maxTreeDepth); [|done]. apply IH.
Qed.

(** X5.  Sequencing a batch in two parts, the second on the tree that the
    first left, gives what sequencing the whole batch gives: the same tree,
    the sequence numbers of the first part followed by those of the second,
    and the node map of the second part laid over that of the first. *)
Theorem sequenceLeaves_app (s : Sequencer) (mt mt1 mt2 : CompactMerkleTree)
    (l1 l2 : list LogLeaf) (nodeMap1 nodeMap2 : gmap string Node)
    (seqs1 seqs2 : list Z) :
  sequenceLeaves s mt l1 = (mt1, Ok (nodeMap1, seqs1)) ->
  sequenceLeaves s mt1 l2 = (mt2, Ok (nodeMap2, seqs2)) ->
  sequenceLeaves s mt (l1 ++ l2)
  = (mt2, Ok (nodeMap2 ∪ nodeMap1, seqs1 ++ seqs2)).
Proof.
  rewrite !sequenceLeaves_loop_unfold. intros H1 H2.
  rewrite sequenceLeaves_loop_app, H1.
  pose proof (sequenceLeaves_loop_frame mt1 l2 ∅ [] nodeMap1 seqs1) as Hf.
  rewrite H2, (left_id_L ∅ (∪)), app_nil_r in Hf. exact Hf.
Qed.

(** *** The assignment of the sequence numbers *)

(** X6.  The loop that writes the sequence numbers into the leaves runs out
    of the leaves (Go's index out of range) exactly when there are sequence
    numbers to write and more of them than leaves from the index on.  When
    it does not, it changes nothing but the SequenceNumber fields: the number
    of leaves, their leaf hashes, their leaf values and their extra data are
    what they were. *)
Theorem assignSequenceNumbers_out_of_range (leaves : list LogLeaf)
    (seqs : list Z) (index : nat) :
  (assignSequenceNumbers leaves seqs index = None
   <-> seqs <> [] /\ (length leaves < index + length seqs)%nat)
  /\ forall leaves',
       assignSequenceNumbers leaves seqs index = Some leaves' ->
       length leaves' = length leaves
       /\ map LeafHash leaves' = map LeafHash leaves
       /\ map LeafValue leaves' = map LeafValue leaves
       /\ map ExtraData leaves' = map ExtraData leaves.
Proof.
  revert leaves index.
  induction seqs as [|seq seqs IH]; intros leaves index; simpl.
  - split; [|by intros leaves' [= <-]]. split; [done|]. by intros [? _].
  - destruct (leaves !! index) as [leaf|] eqn:Hleaf.
    + destruct (IH (<[index:=withSequenceNumber leaf seq]> leaves) (S index))
        as [Hnone Hsome].
      rewrite length_insert in Hnone. split.
      * rewrite Hnone. split.
        -- intros [_ Hlt]. split; [done|lia].
        -- intros [_ Hlt]. split; [|lia]. intros ->. simpl in Hlt.
           apply lookup_lt_Some in Hleaf. lia.
      * intros leaves' Ha. apply Hsome in Ha as (Hl & Hh & Hv & He).
        rewrite length_insert in Hl. split; [done|].
        rewrite Hh, Hv, He, !list_fmap_insert. simpl.
        split; [|split]; apply list_insert_id; rewrite list_lookup_fmap, Hleaf;
          done.
    + apply lookup_ge_None in Hleaf. split; [|done]. split; [|done].
      intros _. split; [done|]. lia.
Qed.

(** *** The fetch of a node and the hydration *)

(** X7.  The closure that fetches a node for the hydration makes at most
    one call, a GetMerkleNodes on its transaction at the revision of the
    root for the single node id made of the coordinates; it never indexes an
    empty answer (it does not panic); it returns a hash only when exactly
    one node came back, and then the hash of that node; and the error of a
    failed GetMerkleNodes is returned as it is. *)
Theorem getNode_asks_for_one_node (o : Oracle) (root : SignedLogRoot)
    (tx : TX) (depth index : Z) (out : Outcome (result Hash))
    (tr : list event) :
  run o (getNode root tx depth index) = (out, tr) ->
  (exists res, out = Done res)
  /\ (tr = []
      \/ exists id resp,
           NewNodeIDForTreeCoords depth index maxTreeDepth = Ok id
           /\ tr = [Ev (GetMerkleNodes tx (TreeRevision root) [id]) resp])
  /\ (forall h, out = Done (Ok h) ->
        exists id node,
          tr = [Ev (GetMerkleNodes tx (TreeRevision root) [id])
                  (Ok (Some [node]))]
          /\ Node_Hash node = h)
  /\ (forall id err,
        tr = [Ev (GetMerkleNodes tx (TreeRevision root) [id]) (Error err)] ->
        out = Done (Error err)).
Proof.
  intros Hr%run_runs. unfold getNode in Hr.
  destruct (NewNodeIDForTreeCoords depth index maxTreeDepth) as [nodeId|err0];
    simpl in Hr.
  2:{ destruct Hr as [-> ->]. split; [by eauto|]. split; [by left|].
      split; [done|]. done. }
  destruct Hr as (r & tr' & -> & Hr).
  destruct r as [nodes|err0]; simpl in Hr.
  2:{ destruct Hr as [-> ->]. split; [by eauto|].
      split; [right; by exists nodeId, (Error err0)|]. split; [done|].
      intros id err Heq. trace_eq. done. }
  destruct (slice_is_nil nodes || negb (slice_len nodes =? 1)) eqn:Hc.
  - destruct Hr as [-> ->]. split; [by eauto|].
    split; [right; by exists nodeId, (Ok nodes)|]. split; [done|].
    intros id err Heq. trace_eq.
  - assert (exists node, nodes = Some [node]) as [node ->].
    { destruct nodes as [l|]; [|discriminate]. simpl in Hc.
      apply negb_false_iff, Z.eqb_eq in Hc.
      destruct l as [|node [|node' l]]; simpl in Hc; try lia. by exists node. }
    simpl in Hr. destruct Hr as [-> ->]. split; [by eauto|].
    split; [right; by exists nodeId, (Ok (Some [node]))|]. split.
    + intros h [= <-]. by exists nodeId, node.
    + intros id err Heq. trace_eq.
Qed.

Lemma good_fetch_is_fetch tx rev pre :
  Forall (good_fetch tx rev) pre ->
  Forall (fun e => exists id resp, e = Ev (GetMerkleNodes tx rev [id]) resp)
    pre.
Proof.
  intros Hg. eapply Forall_impl; [exact Hg|].
  intros e (id & node & ->). eauto.
Qed.

Lemma failed_fetch_is_fetch tx rev err tail :
  failed_fetch tx rev err tail ->
  Forall (fun e => exists id resp, e = Ev (GetMerkleNodes tx rev [id]) resp)
    tail.
Proof.
  intros Hf. shapes; repeat constructor; eauto.
Qed.

(** A call of a hydration that failed is its last call, and its error is
    the error of the hydration. *)
Lemma failed_fetch_failure tx rev err pre tail e err' :
  Forall (good_fetch tx rev) pre ->
  failed_fetch tx rev err tail ->
  e ∈ pre ++ tail -> failure e = Some err' ->
  err' = err /\ tail = [e].
Proof.
  intros Hg Hf Hin Hfail. apply elem_of_app in Hin as [Hin|Hin].
  { apply good_succeeded in Hg. rewrite Forall_forall in Hg.
    apply Hg in Hin. congruence. }
  shapes.
  - by apply elem_of_nil in Hin.
  - apply list_elem_of_singleton in Hin as ->. simpl in Hfail.
    by injection Hfail as ->.
  - apply list_elem_of_singleton in Hin as ->. done.
Qed.

(** X8.  Building the compact tree from the storage does nothing but fetch
    nodes: every call is a GetMerkleNodes on the transaction given, at the
    tree revision of the root given, for a single node id.  It does not
    panic; a fetch that fails is the last call and its error is the error
    returned; and a tree that is returned has the tree size of the root. *)
Theorem buildMerkleTreeFromStorageAtRoot_only_fetches (o : Oracle)
    (s : Sequencer) (root : SignedLogRoot) (tx : TX)
    (out : Outcome (result CompactMerkleTree)) (tr : list event) :
  run o (buildMerkleTreeFromStorageAtRoot s root tx) = (out, tr) ->
  (exists res, out = Done res)
  /\ Forall (fun e => exists id resp,
               e = Ev (GetMerkleNodes tx (TreeRevision root) [id]) resp) tr
  /\ (forall e err,
        e ∈ tr -> failure e = Some err ->
        out = Done (Error err) /\ exists pre, tr = pre ++ [e])
  /\ (forall mt, out = Done (Ok mt) ->
        Size mt = TreeSize root /\ Forall (fun e => failure e = None) tr).
Proof.
  intros Hr%run_runs. apply buildMerkleTreeFromStorageAtRoot_runs in Hr
    as [(mt & -> & Hg & Hsz & _)|(err & pre & tail & -> & -> & Hg & Hf)].
  - split; [by eauto|]. split; [by apply good_fetch_is_fetch|].
    pose proof (good_succeeded _ _ _ Hg) as Hok. split.
    + intros e err Hin Hfail. rewrite Forall_forall in Hok.
      apply Hok in Hin. congruence.
    + by intros mt' [= <-].
  - split; [by eauto|]. split.
    { apply Forall_app. split; [by apply good_fetch_is_fetch|].
      by eapply failed_fetch_is_fetch. }
    split; [|done]. intros e err' Hin Hfail.
    destruct (failed_fetch_failure _ _ _ _ _ _ _ Hg Hf Hin Hfail)
      as [-> ->].
    split; [done|]. by exists pre.
Qed.

(** *** signRoot *)

(** X9.  signRoot asks the key manager for a signer and has that signer
    sign the very root it was given: these are its only calls.  When one of
    the two fails it is the last call and its error is returned; otherwise
    the signature that SignLogRoot made is returned. *)
Theorem signRoot_returns_what_the_signer_says (o : Oracle) (s : Sequencer)
    (root : SignedLogRoot) (out : Outcome (result DigitallySigned))
    (tr : list event) :
  run o (signRoot s root) = (out, tr) ->
  Forall (fun e => is_signing e = true) tr
  /\ ((exists signer sg,
         tr = [Ev KeyManager_Signer (Ok signer);
               Ev (SignLogRoot signer root) (Ok sg)]
         /\ out = Done (Ok sg))
      \/ (exists err,
            tr = [Ev KeyManager_Signer (Error err)]
            /\ out = Done (Error err))
      \/ (exists signer err,
            tr = [Ev KeyManager_Signer (Ok signer);
                  Ev (SignLogRoot signer root) (Error err)]
            /\ out = Done (Error err))).
Proof.
  intros Hr%run_runs. apply signRoot_runs in Hr
    as [(sg & -> & signer & ->)|(err & -> & [->|(signer & ->)])].
  - split; [by repeat constructor|]. left. by exists signer, sg.
  - split; [by repeat constructor|]. right. left. by exists err.
  - split; [by repeat constructor|]. right. right. by exists signer, err.
Qed.

(** *** SignRoot *)

Lemma good_no_sequencing tx rev pre :
  Forall (good_fetch tx rev) pre ->
  existsb is_sequencing pre = false /\ existsb is_begin pre = false
  /\ forallb (on_tx tx) pre = true /\ existsb is_signing pre = false.
Proof.
  induction 1 as [|e pre (id & node & ->) _ (IH1 & IH2 & IH3 & IH4)];
    [done|].
  simpl. unfold on_tx at 1. simpl. rewrite bool_decide_eq_true_2 by done.
  done.
Qed.

Lemma good_more_projections tx rev pre :
  Forall (good_fetch tx rev) pre ->
  omap written_nodes pre = [] /\ omap made_signature pre = []
  /\ omap clock_read pre = [] /\ omap write_of pre = []
  /\ omap commit_result pre = [].
Proof.
  induction 1 as [|e pre (id & node & ->) _ (IH1 & IH2 & IH3 & IH4 & IH5)];
    [done|].
  done.
Qed.

Ltac more_facts :=
  repeat match goal with
    | Hg : Forall (good_fetch ?tx ?rev) ?pre |- _ =>
        let Hp := fresh "Hp" in
        pose proof (good_no_sequencing _ _ _ Hg) as Hp;
        destruct Hp as (? & ? & ? & ?);
        pose proof (good_more_projections _ _ _ Hg) as Hp;
        destruct Hp as (? & ? & ? & ? & ?);
        pose proof (good_succeeded _ _ _ Hg);
        revert Hg
    end;
  intros.

Ltac read_calls :=
  repeat (simpl in *;
          rewrite ?existsb_app, ?forallb_app, ?omap_app in *;
          repeat match goal with
            | H : existsb _ _ = false |- _ => rewrite H in *
            | H : forallb _ _ = true |- _ => rewrite H in *
            | H : omap _ _ = [] |- _ => rewrite H in *
            end).

Ltac SignRoot_cases Hr :=
  apply SignRoot_runs in Hr
    as [(?err & ?Htr & ?Hout)
       |[(?tx0 & ?err & ?r0 & ?Htr & ?Hout)
        |[(?tx0 & ?cur & ?pre & ?tail & ?err & ?r0 & ?Htr & ?Hg & ?Hf & ?Hnz
           & ?Hout)
         |[(?tx0 & ?cur & ?trh & ?mt & ?now & ?trs & ?err & ?r0 & ?Htr & ?Hh
            & ?Hsf & ?Hout)
          |[(?tx0 & ?cur & ?trh & ?mt & ?now & ?trs & ?sg & ?err & ?r0 & ?Htr
             & ?Hh & ?Hsd & ?Hout)
           |(?tx0 & ?cur & ?trh & ?mt & ?now & ?trs & ?sg & ?e & ?Htr & ?Hh
             & ?Hsd & ?Hout)]]]]].

(** X10.  When the storage cannot begin a transaction, SignRoot returns
    the error of Begin and makes no other call: there is no transaction to
    roll back. *)
Theorem SignRoot_begin_failure (o : Oracle) (s : Sequencer)
    (out : Outcome (option error)) (err : error) (rest : list event) :
  run o (SignRoot s) = (out, Ev Begin (Error err) :: rest) ->
  rest = [] /\ out = Done (Some err).
Proof.
  intros Hr%run_runs. SignRoot_cases Hr; trace_eq. done.
Qed.

(** X11.  In a run of SignRoot that has begun its transaction, a call that
    fails before the Commit (reading the current root, fetching a node,
    getting the signer, signing, storing the tree head) makes SignRoot return
    the error of that call without committing; and every run that does not
    reach the Commit returns an error after a Rollback of the transaction,
    which is its last call and its only Rollback. *)
Theorem SignRoot_failure_rolls_back (o : Oracle) (s : Sequencer)
    (out : Outcome (option error)) (tx : TX) (rest : list event) :
  run o (SignRoot s) = (out, Ev Begin (Ok tx) :: rest) ->
  (forall err, first_failure rest = Some err ->
               calls_commit rest = false /\ out = Done (Some err))
  /\ (calls_commit rest = false ->
      exists err pre r,
        out = Done (Some err)
        /\ rest = pre ++ [Ev (Rollback tx) r]
        /\ calls_rollback pre = false).
Proof.
  intros Hr%run_runs. SignRoot_cases Hr; trace_eq; subst.
  5:{ shapes; good_facts. split.
      - intros ? Hff. read_trace. discriminate.
      - intros Hc. read_trace. discriminate. }
  all: shapes; good_facts;
    (split;
     [ intros ? Hff; read_trace; simplify_eq; by split
     | intros Hc; eexists _, _, _;
       (split; [reflexivity|]); (split; [snoc|]); by read_trace ]).
Qed.

(** X12.  SignRoot does not panic.  It commits only as its last call, when
    every call before has succeeded and the tree head is stored, and it
    returns what that Commit returns: a failed Commit is reported, and is not
    followed by a Rollback.  SignRoot returns without error only if it
    committed. *)
Theorem SignRoot_returns_commit_result (o : Oracle) (s : Sequencer)
    (out : Outcome (option error)) (tr : list event) :
  run o (SignRoot s) = (out, tr) ->
  (exists e, out = Done e)
  /\ (calls_commit tr = true ->
      exists pre tx root e,
        tr = pre ++ [Ev (StoreSignedLogRoot tx root) None; Ev (Commit tx) e]
        /\ out = Done e
        /\ calls_commit pre = false /\ calls_rollback pre = false
        /\ Forall (fun ev => failure ev = None) pre)
  /\ (out = Done None -> calls_commit tr = true).
Proof.
  intros Hr%run_runs. SignRoot_cases Hr; subst.
  6:{ split; [by eauto|]. split; [|intros _; shapes; good_facts; by read_trace].
      intros _. shapes. more_facts. good_facts.
      eexists _, tx0, _, e. split; [snoc|]. split; [done|].
      split; [by read_trace|]. split; [by read_trace|].
      repeat first [apply Forall_cons; split; [done|]
                   |apply Forall_app; split; [done|]
                   |apply Forall_nil_2]. }
  all: split; [by eauto|]; split; [|done];
    intros Hc; exfalso; shapes; good_facts; read_trace; discriminate.
Qed.

(** X13.  SignRoot sequences nothing: it dequeues no leaves, asks for no
    write revision, updates no leaves and sets no Merkle nodes; it begins one
    transaction, and stores at most one tree head. *)
Theorem SignRoot_sequences_nothing (o : Oracle) (s : Sequencer)
    (out : Outcome (option error)) (tr : list event) :
  run o (SignRoot s) = (out, tr) ->
  existsb is_sequencing tr = false
  /\ (exists r rest,
        tr = Ev Begin r :: rest /\ existsb is_begin rest = false)
  /\ (length (omap stored_root tr) <= 1)%nat.
Proof.
  intros Hr%run_runs. SignRoot_cases Hr; subst; shapes; more_facts;
    good_projections.
  all: split; [by read_calls|].
  all: split; [|read_projections; simpl; lia].
  all: eexists _, _; split; [reflexivity|]; by read_calls.
Qed.

(** X14.  Every call that SignRoot makes on a transaction is made on the
    transaction that its Begin returned. *)
Theorem SignRoot_stays_in_its_transaction (o : Oracle) (s : Sequencer)
    (out : Outcome (option error)) (tx : TX) (rest : list event) :
  run o (SignRoot s) = (out, Ev Begin (Ok tx) :: rest) ->
  forallb (on_tx tx) rest = true.
Proof.
  intros Hr%run_runs. SignRoot_cases Hr; trace_eq; subst; shapes; more_facts;
    read_calls; unfold on_tx; simpl; by rewrite ?bool_decide_eq_true_2.
Qed.

(** X15.  The tree head that SignRoot stores is the tree head it had
    signed, with the signature it got put in: its Signature field holds the
    signature that the signer returned, its other fields are those of the
    tree head that the signer was given, which had no signature; the time
    stamp is the one reading of the clock that the run made, and nothing else
    was signed or stored. *)
Theorem SignRoot_stores_what_was_signed (o : Oracle) (s : Sequencer)
    (out : Outcome (option error)) (tr : list event) (tx : TX)
    (sth : SignedLogRoot) (r : option error) :
  run o (SignRoot s) = (out, tr) ->
  Ev (StoreSignedLogRoot tx sth) r ∈ tr ->
  exists unsigned sg,
    sth = withSignature unsigned sg
    /\ Signature unsigned = None
    /\ omap made_signature tr = [(unsigned, sg)]
    /\ omap clock_read tr = [TimestampNanos sth]
    /\ omap stored_root tr = [(tx, sth)]
    /\ Signature sth = Some sg
    /\ TimestampNanos sth = TimestampNanos unsigned
    /\ RootHash sth = RootHash unsigned
    /\ TreeSize sth = TreeSize unsigned
    /\ LogId sth = LogId unsigned
    /\ TreeRevision sth = TreeRevision unsigned.
Proof.
  intros Hr%run_runs Hin.
  pose proof (projected stored_root _ _ _ Hin eq_refl) as Hq. clear Hin.
  SignRoot_cases Hr; subst; shapes; more_facts; good_projections;
    read_projections; find_answer Hq; simplify_eq;
    eexists _, _; (split; [reflexivity|]); (split; [reflexivity|]);
    read_calls; by repeat split.
Qed.

(** *** SequenceBatch *)

Ltac SequenceBatch_cases Hr :=
  apply SequenceBatch_runs in Hr;
  destruct Hr as [(?err & ?Htr & ?Hout)|(?tx0 & ?rest0 & ?Htr & Hr)];
  [|destruct Hr
      as [(?err & ?r0 & ?Hrest & ?Hout)|(?leaves0 & ?rest1 & ?Hrest & Hr)];
   [|destruct Hr
       as [(?err & ?r0 & ?Hrest & ?Hout)|(?cur0 & ?rest2 & ?Hrest & Hr)];
    [|destruct Hr
        as [(?Hempty & ?r0 & ?tr2 & ?e & ?Hrest & ?Hout & Hsr)|(?Hne & Hr)];
     [|destruct Hr
         as [(?pre & ?tail & ?err & ?r0 & ?Hrest & ?Hg & ?Hf & ?Hnz & ?Hout)
            |(?trh & ?mt0 & ?W & ?rest3 & ?Hrest & ?Hh & Hr)];
      [|destruct Hr as [(?HW & ?r0 & ?Hrest & ?Hout)|(?HW & Hr)];
       [|destruct Hr
           as [(?mt & ?err & ?r0 & Hseq & ?Hrest & ?Hout)
              |(?mt & ?nodeMap & ?seqs & Hseq & Hr)];
        [|apply (SequenceBatch_store_runs _ _ _ _ _ _ _ _ _ _ _ Hseq) in Hr
            as (?lv & ?Ha & ?Hl & Hr);
          destruct Hr
            as [(?err & ?r0 & ?Hrest & ?Hout)
               |[(?err & ?r0 & ?Hrest & ?Hout)
                |[(?now & ?trs & ?err & ?r0 & ?Hrest & ?Hsf & ?Hout)
                 |[(?now & ?trs & ?sg & ?err & ?r0 & ?Hrest & ?Hsd & ?Hout)
                  |(?now & ?trs & ?sg & ?e & ?Hrest & ?Hsd
                    & ?Hout)]]]]]]]]]]].

(** X16.  When the storage cannot begin a transaction, SequenceBatch
    returns the error of Begin with count 0 and makes no other call. *)
Theorem SequenceBatch_begin_failure (o : Oracle) (s : Sequencer) (limit : Z)
    (expiryFunc : SignedLogRoot -> bool) (out : Outcome (Z * option error))
    (err : error) (rest : list event) :
  run o (SequenceBatch s limit expiryFunc)
  = (out, Ev Begin (Error err) :: rest) ->
  rest = [] /\ out = Done (0, Some err).
Proof.
  intros Hr%run_runs. SequenceBatch_cases Hr; subst; trace_eq. done.
Qed.

(** X17.  When no leaves are dequeued, SequenceBatch commits its
    transaction at once, having written nothing.  If the expiry function
    finds the current root fresh, that Commit is the last call and the
    result is count 0 and no error; if it finds the root expired, the rest
    of the run is a run of SignRoot, in a transaction of its own, and the
    result is count 0 with whatever SignRoot returns. *)
Theorem SequenceBatch_nothing_to_sequence (o : Oracle) (s : Sequencer)
    (limit : Z) (expiryFunc : SignedLogRoot -> bool)
    (out : Outcome (Z * option error))
    (tx : TX) (cur : SignedLogRoot) (rest : list event) :
  run o (SequenceBatch s limit expiryFunc)
  = (out,
     Ev Begin (Ok tx) :: Ev (DequeueLeaves tx limit) (Ok [])
       :: Ev (LatestSignedLogRoot tx) (Ok cur) :: rest) ->
  exists r tr2 e,
    rest = Ev (Commit tx) r :: tr2
    /\ out = Done (0, e)
    /\ runs (if expiryFunc cur then SignRoot s else Ret None) tr2 (Done e)
    /\ (expiryFunc cur = false -> tr2 = [] /\ e = None)
    /\ (expiryFunc cur = true ->
        exists r' rest', tr2 = Ev Begin r' :: rest').
Proof.
  intros Hr%run_runs. SequenceBatch_cases Hr; subst; trace_eq; try done.
  exists r0, tr2, e. split; [done|]. split; [done|].
  destruct (expiryFunc cur0).
  - split; [done|]. split; [done|]. intros _.
    SignRoot_cases Hsr; subst; eauto.
  - destruct Hsr as [-> ->]. by repeat split.
Qed.

(** X18.  When the node id of level 0 cannot be made for one of the
    dequeued leaves, SequenceBatch returns the error met at the first such
    leaf with count 0: asking for the write revision was the last thing it
    did before rolling the transaction back, and it has written no leaves,
    no nodes and no tree head and has not committed. *)
Theorem SequenceBatch_leaf_id_error_aborts (o : Oracle) (s : Sequencer)
    (limit : Z) (expiryFunc : SignedLogRoot -> bool)
    (out : Outcome (Z * option error)) (tx : TX) (leaves : list LogLeaf)
    (cur : SignedLogRoot) (rest : list event) (i : nat) (err : error) :
  run o (SequenceBatch s limit expiryFunc)
  = (out,
     Ev Begin (Ok tx) :: Ev (DequeueLeaves tx limit) (Ok leaves)
       :: Ev (LatestSignedLogRoot tx) (Ok cur) :: rest) ->
  Ev (WriteRevision tx) (add64 (TreeRevision cur) 1) ∈ rest ->
  (i < length leaves)%nat ->
  NewNodeIDForTreeCoords 0 (TreeSize cur + Z.of_nat i) maxTreeDepth
  = Error err ->
  (forall j : nat, (j < i)%nat ->
     exists id,
       NewNodeIDForTreeCoords 0 (TreeSize cur + Z.of_nat j) maxTreeDepth
       = Ok id) ->
  out = Done (0, Some err)
  /\ (exists pre r,
        rest = pre ++ [Ev (WriteRevision tx) (add64 (TreeRevision cur) 1);
                       Ev (Rollback tx) r]
        /\ calls_rollback pre = false)
  /\ writes rest = false
  /\ calls_commit rest = false.
Proof.
  intros Hr%run_runs HW Hi Herr Hbefore.
  pose proof (projected reported_revision _ _ _ HW eq_refl) as Hp. clear HW.
  SequenceBatch_cases Hr; subst; trace_eq.
  1:{ simpl in Hi. lia. }
  1:{ exfalso. shapes; good_projections; read_projections;
        by apply elem_of_nil in Hp. }
  1:{ exfalso. shapes. good_projections. read_projections.
      apply list_elem_of_singleton in Hp. congruence. }
  all: pose proof Hh as (_ & Hg & Hsz & _); rewrite <- Hsz in Herr, Hbefore;
    destruct (sequenceLeaves_first_bad_leaf s _ _ _ _ Hi Herr Hbefore)
      as [mt' Hs'];
    rewrite Hseq in Hs'; try discriminate Hs'.
  injection Hs' as _ ->.
  good_facts. split; [done|]. split; [|by read_trace].
  exists trh, r0. split; [done|]. by read_trace.
Qed.

(** X19.  When the Commit that ends the sequencing of a batch fails,
    SequenceBatch returns the error of the Commit with count 0.  The Commit
    is the last call: by then the leaves, the nodes and the tree head have
    been written, in this order, every call before has succeeded, and no
    Rollback is made. *)
Theorem SequenceBatch_final_commit_failure (o : Oracle) (s : Sequencer)
    (limit : Z) (expiryFunc : SignedLogRoot -> bool)
    (out : Outcome (Z * option error)) (tx : TX) (leaves : list LogLeaf)
    (cur : SignedLogRoot) (rest : list event) (err : error) :
  run o (SequenceBatch s limit expiryFunc)
  = (out,
     Ev Begin (Ok tx) :: Ev (DequeueLeaves tx limit) (Ok leaves)
       :: Ev (LatestSignedLogRoot tx) (Ok cur) :: rest) ->
  leaves <> [] ->
  Ev (Commit tx) (Some err) ∈ rest ->
  out = Done (0, Some err)
  /\ (exists pre,
        rest = pre ++ [Ev (Commit tx) (Some err)]
        /\ omap write_of pre = [WriteLeaves; WriteNodes; WriteRoot]
        /\ Forall (fun ev => failure ev = None) pre)
  /\ calls_rollback rest = false.
Proof.
  intros Hr%run_runs Hne Hin.
  pose proof (projected commit_result _ _ _ Hin eq_refl) as Hq. clear Hin.
  SequenceBatch_cases Hr; subst; trace_eq; try done.
  all: shapes; more_facts; good_facts; read_calls; find_answer Hq.
  simplify_eq. split; [done|]. split; [|by read_trace].
  eexists. split; [snoc|]. split; [by read_calls|].
  repeat first [apply Forall_cons; split; [done|]
               |apply Forall_app; split; [done|]
               |apply Forall_nil_2].
Qed.

Lemma targetNodes_revision (nodeMap : gmap string Node) (newVersion : Z) :
  Forall (fun node => NodeRevision node = newVersion)
    (targetNodes nodeMap newVersion)
  /\ length (targetNodes nodeMap newVersion) = size nodeMap.
Proof.
  unfold targetNodes. split.
  - apply Forall_forall. intros node Hin.
    apply list_elem_of_fmap in Hin as (kv & -> & _). done.
  - by rewrite length_map, length_map_to_list.
Qed.

(** X20.  The nodes that a run of SequenceBatch hands to SetMerkleNodes
    are what buildNodesFromNodeMap makes of the node map that sequenceLeaves
    returned for the dequeued leaves on the hydrated tree: their revision is
    the write revision that the transaction reported, which is the tree
    revision of the current root plus 1 (int64), there is one of them per
    entry of the node map, and the run sets nodes only once. *)
Theorem SequenceBatch_nodes_at_write_revision (o : Oracle) (s : Sequencer)
    (limit : Z) (expiryFunc : SignedLogRoot -> bool)
    (out : Outcome (Z * option error)) (tr : list event) (tx : TX)
    (nodes : list Node) (r : option error) :
  run o (SequenceBatch s limit expiryFunc) = (out, tr) ->
  Ev (SetMerkleNodes tx nodes) r ∈ tr ->
  exists leaves cur trh mt0 mt nodeMap seqs W,
    Ev (DequeueLeaves tx limit) (Ok leaves) ∈ tr
    /\ Ev (LatestSignedLogRoot tx) (Ok cur) ∈ tr
    /\ hydrated s cur tx trh mt0
    /\ sequenceLeaves s mt0 leaves = (mt, Ok (nodeMap, seqs))
    /\ omap reported_revision tr = [(tx, W)]
    /\ W = add64 (TreeRevision cur) 1
    /\ buildNodesFromNodeMap s nodeMap W = Ok nodes
    /\ Forall (fun node => NodeRevision node = W) nodes
    /\ length nodes = size nodeMap
    /\ omap written_nodes tr = [(tx, nodes)].
Proof.
  intros Hr%run_runs Hin.
  pose proof (projected written_nodes _ _ _ Hin eq_refl) as Hq. clear Hin.
  SequenceBatch_cases Hr; subst;
    try (destruct (expiryFunc cur0);
         [SignRoot_cases Hsr|destruct Hsr as [-> ->]]; subst).
  all: shapes; more_facts; good_projections; read_calls;
    try solve [exfalso; find_answer Hq].
  all: find_answer Hq; simplify_eq.
  all: destruct (targetNodes_revision nodeMap (add64 (TreeRevision cur0) 1))
         as [Hrev Hlen].
  all: exists leaves0, cur0, trh, mt0, mt, nodeMap, seqs,
         (add64 (TreeRevision cur0) 1).
  all: split; [by repeat constructor|].
  all: split; [by repeat constructor|].
  all: split;
    [unfold hydrated; repeat (split; [assumption|]); assumption|].
  all: by repeat split.
Qed.

(** X21.  A run of SequenceBatch writes in a fixed order: what it has
    written when it ends is an initial part of the sequenced leaves, the
    Merkle nodes, the tree head, each written once.  The one exception is
    the tree head alone, which is what the SignRoot of an empty batch stores.
    A run that returns a count other than 0 has written all three. *)
Theorem SequenceBatch_write_order (o : Oracle) (s : Sequencer) (limit : Z)
    (expiryFunc : SignedLogRoot -> bool) (out : Outcome (Z * option error))
    (tr : list event) :
  run o (SequenceBatch s limit expiryFunc) = (out, tr) ->
  (omap write_of tr `prefix_of` [WriteLeaves; WriteNodes; WriteRoot]
   \/ (omap write_of tr = [WriteRoot]
       /\ exists tx, Ev (DequeueLeaves tx limit) (Ok []) ∈ tr))
  /\ (forall n e, out = Done (n, e) -> n <> 0 ->
        omap write_of tr = [WriteLeaves; WriteNodes; WriteRoot]).
Proof.
  intros Hr%run_runs.
  SequenceBatch_cases Hr; subst;
    try (destruct (expiryFunc cur0);
         [SignRoot_cases Hsr|destruct Hsr as [-> ->]]; subst).
  all: shapes; more_facts; read_calls.
  all: split;
    [|intros n' e' Hret Hn';
      repeat match goal with e0 : option error |- _ => destruct e0 end;
      by simplify_eq].
  all: first [ left; by eexists
             | right; split; [done|]; eexists; by repeat constructor ].
Qed.

Lemma from_first_write_app pre l :
  existsb is_write pre = false ->
  from_first_write (pre ++ l) = from_first_write l.
Proof.
  induction pre as [|e pre IH]; simpl; [done|].
  intros [-> Hpre]%orb_false_elim. by apply IH.
Qed.

(** X22.  Once a run of SequenceBatch has made its first write, it reads
    the storage no more: the leaves are dequeued, the current root is read
    and the nodes of the hydration are fetched before any leaf, node or tree
    head is written. *)
Theorem SequenceBatch_reads_before_writes (o : Oracle) (s : Sequencer)
    (limit : Z) (expiryFunc : SignedLogRoot -> bool)
    (out : Outcome (Z * option error)) (tr : list event) :
  run o (SequenceBatch s limit expiryFunc) = (out, tr) ->
  existsb is_read (from_first_write tr) = false.
Proof.
  intros Hr%run_runs.
  SequenceBatch_cases Hr; subst;
    try (destruct (expiryFunc cur0);
         [SignRoot_cases Hsr|destruct Hsr as [-> ->]]; subst).
  all: shapes; good_facts; simpl;
    rewrite ?from_first_write_app by done; simpl;
    rewrite ?from_first_write_app by done; done.
Qed.

(** X23.  Up to the SignRoot of an empty batch, which begins a transaction
    of its own, every call that SequenceBatch makes on a transaction is made
    on the transaction that its Begin returned, and no further transaction
    is begun. *)
Theorem SequenceBatch_stays_in_its_transaction (o : Oracle) (s : Sequencer)
    (limit : Z) (expiryFunc : SignedLogRoot -> bool)
    (out : Outcome (Z * option error)) (tx : TX) (rest : list event) :
  run o (SequenceBatch s limit expiryFunc) = (out, Ev Begin (Ok tx) :: rest) ->
  exists pre tr2,
    rest = pre ++ tr2
    /\ forallb (on_tx tx) pre = true
    /\ existsb is_begin pre = false
    /\ (tr2 = []
        \/ exists cur r e,
             pre = [Ev (DequeueLeaves tx limit) (Ok []);
                    Ev (LatestSignedLogRoot tx) (Ok cur);
                    Ev (Commit tx) r]
             /\ expiryFunc cur = true
             /\ runs (SignRoot s) tr2 (Done e)).
Proof.
  intros Hr%run_runs.
  SequenceBatch_cases Hr; subst; trace_eq.
  3:{ destruct (expiryFunc cur0) eqn:Hexp.
      - eexists [_; _; _], tr2. split; [done|]. unfold on_tx. simpl.
        rewrite !bool_decide_eq_true_2 by done. split; [done|].
        split; [done|]. right. by exists cur0, r0, e.
      - destruct Hsr as [-> ->]. eexists _, []. rewrite app_nil_r.
        split; [done|]. unfold on_tx. simpl.
        rewrite !bool_decide_eq_true_2 by done. by repeat split; try left. }
  all: eexists _, []; rewrite app_nil_r; (split; [reflexivity|]);
    shapes; more_facts; read_calls; unfold on_tx; simpl;
    rewrite ?bool_decide_eq_true_2 by done; repeat split; by try left.
Qed.

(** X24.  The tree head that a run of SequenceBatch stores is the tree head
    it had signed, with the signature it got put in: its Signature field
    holds the signature that the signer returned, its other fields are those
    of the tree head that the signer was given, which had no signature; the
    time stamp is the one reading of the clock that the run made, nothing
    else was signed, and no second tree head is stored. *)
Theorem SequenceBatch_stores_what_was_signed (o : Oracle) (s : Sequencer)
    (limit : Z) (expiryFunc : SignedLogRoot -> bool)
    (out : Outcome (Z * option error)) (tr : list event) (tx : TX)
    (sth : SignedLogRoot) (r : option error) :
  run o (SequenceBatch s limit expiryFunc) = (out, tr) ->
  Ev (StoreSignedLogRoot tx sth) r ∈ tr ->
  exists unsigned sg,
    sth = withSignature unsigned sg
    /\ Signature unsigned = None
    /\ omap made_signature tr = [(unsigned, sg)]
    /\ omap clock_read tr = [TimestampNanos sth]
    /\ omap stored_root tr = [(tx, sth)]
    /\ Signature sth = Some sg
    /\ TimestampNanos sth = TimestampNanos unsigned
    /\ RootHash sth = RootHash unsigned
    /\ TreeSize sth = TreeSize unsigned
    /\ LogId sth = LogId unsigned
    /\ TreeRevision sth = TreeRevision unsigned.
Proof.
  intros Hr%run_runs Hin.
  pose proof (projected stored_root _ _ _ Hin eq_refl) as Hq. clear Hin.
  SequenceBatch_cases Hr; subst;
    try (destruct (expiryFunc cur0);
         [SignRoot_cases Hsr|destruct Hsr as [-> ->]]; subst).
  all: shapes; more_facts; good_projections; read_projections;
    try solve [exfalso; find_answer Hq].
  all: find_answer Hq; simplify_eq;
    eexists _, _; (split; [reflexivity|]); (split; [reflexivity|]);
    read_calls; by repeat split.
Qed.

(** X25.  On a log whose current root has tree size 0 nothing is fetched:
    the compact tree is the new empty tree, and neither a SequenceBatch over
    a non-empty batch nor a SignRoot makes a GetMerkleNodes call. *)
Theorem empty_log_needs_no_fetch (o : Oracle) (s : Sequencer) (limit : Z)
    (expiryFunc : SignedLogRoot -> bool) (tx : TX) (cur : SignedLogRoot) :
  TreeSize cur = 0 ->
  (forall out leaves rest,
     run o (SequenceBatch s limit expiryFunc)
     = (out,
        Ev Begin (Ok tx) :: Ev (DequeueLeaves tx limit) (Ok leaves)
          :: Ev (LatestSignedLogRoot tx) (Ok cur) :: rest) ->
     leaves <> [] ->
     existsb is_get_nodes rest = false)
  /\ (forall out rest,
        run o (SignRoot s)
        = (out,
           Ev Begin (Ok tx) :: Ev (LatestSignedLogRoot tx) (Ok cur) :: rest) ->
        existsb is_get_nodes rest = false).
Proof.
  intros Hz. split.
  - intros out leaves rest Hr%run_runs Hne.
    SequenceBatch_cases Hr; subst; trace_eq; try done.
    all: shapes;
      match goal with
      | H : TreeSize _ = 0 -> _ /\ _ |- _ => destruct (H Hz) as [-> ->]
      end; by read_calls.
  - intros out rest Hr%run_runs.
    SignRoot_cases Hr; subst; trace_eq; try done.
    all: shapes;
      match goal with
      | H : TreeSize _ = 0 -> _ /\ _ |- _ => destruct (H Hz) as [-> ->]
      end; by read_calls.
Qed.

(** ** The node updates of a batch are buffered *)







Lemma sequenceLeaves_leaf_ids (s : Sequencer) mt leaves mt' nodeMap seqs
    (i : nat) :
  sequenceLeaves s mt leaves = (mt', Ok (nodeMap, seqs)) ->
  (i < length leaves)%nat ->
  exists id,
    NewNodeIDForTreeCoords 0 (Size mt + Z.of_nat i) maxTreeDepth = Ok id.
Proof.
  rewrite sequenceLeaves_loop_unfold.
  intros (_ & Hleaves)%sequenceLeaves_loop_keys Hi.
  destruct (lookup_lt_is_Some_2 leaves i Hi) as [leaf Hleaf].
  destruct (Hleaves i leaf Hleaf) as (id & Hid & _). eauto.
Qed.


(** ** Transactional discipline, in full *)

(** A run of SequenceBatch that commits is a run in which nothing failed. *)
Lemma SequenceBatch_commit_runs s limit expiryFunc tx rest out :
  runs (SequenceBatch s limit expiryFunc) (Ev Begin (Ok tx) :: rest) out ->
  calls_commit rest = true ->
  exists leaves cur rest',
    rest = Ev (DequeueLeaves tx limit) (Ok leaves)
             :: Ev (LatestSignedLogRoot tx) (Ok cur) :: rest'
    /\ ((leaves = [] /\ exists r tr2, rest' = Ev (Commit tx) r :: tr2)
        \/ (leaves <> []
            /\ exists trh mt0 mt nodeMap seqs post e,
                 rest' = trh ++ Ev (WriteRevision tx)
                                  (add64 (TreeRevision cur) 1)
                           :: post ++ [Ev (Commit tx) e]
                 /\ hydrated s cur tx trh mt0
                 /\ sequenceLeaves s mt0 leaves = (mt, Ok (nodeMap, seqs))
                 /\ Forall (fun ev => failure ev = None) (trh ++ post)
                 /\ omap write_of post = [WriteLeaves; WriteNodes; WriteRoot]
                 /\ calls_commit (trh ++ post) = false
                 /\ calls_rollback rest' = false)).
Proof.
  intros Hr Hc. SequenceBatch_cases Hr; subst; trace_eq.
  3:{ eexists [], _, _. split; [reflexivity|]. left. split; [done|]. eauto. }
  10:{ eexists leaves0, cur0, _. split; [reflexivity|]. right.
       split; [done|]. shapes. more_facts. good_facts.
       eexists trh, mt0, mt, nodeMap, seqs, _, e.
       split; [f_equal; f_equal; snoc|].
       split; [unfold hydrated; repeat (split; [assumption|]); assumption|].
       split; [done|].
       split.
       { repeat first [apply Forall_cons; split; [done|]
                      |apply Forall_app; split; [done|]
                      |apply Forall_nil_2]. }
       split; [by read_calls|]. split; by read_trace. }
  all: exfalso; shapes; good_facts; read_trace; discriminate.
Qed.

(** The checks of the sequencer itself: a run in which one of them fails
    does not commit. *)
Lemma SequenceBatch_failed_checks s limit expiryFunc tx leaves cur rest' out :
  runs (SequenceBatch s limit expiryFunc)
    (Ev Begin (Ok tx) :: Ev (DequeueLeaves tx limit) (Ok leaves)
       :: Ev (LatestSignedLogRoot tx) (Ok cur) :: rest') out ->
  leaves <> [] ->
  ((forall trh post mt0,
      rest' = trh ++ post ->
      ~ runs (initMerkleTreeFromStorage s cur tx) trh (Done (Ok mt0))) ->
   calls_commit rest' = false)
  /\ (forall rev ids nodes,
        Ev (GetMerkleNodes tx rev ids) (Ok nodes) ∈ rest' ->
        slice_len nodes <> 1 ->
        calls_commit rest' = false)
  /\ (forall W,
        Ev (WriteRevision tx) W ∈ rest' ->
        W <> add64 (TreeRevision cur) 1 ->
        calls_commit rest' = false
        /\ out = Done (0, Some (ErrWriteRevision W
                                  (add64 (TreeRevision cur) 1))))
  /\ (forall (i : nat) err,
        (i < length leaves)%nat ->
        NewNodeIDForTreeCoords 0 (TreeSize cur + Z.of_nat i) maxTreeDepth
        = Error err ->
        calls_commit rest' = false).
Proof.
  intros Hr Hne. split; [|split; [|split]].
  - intros Hfail. SequenceBatch_cases Hr; subst; trace_eq; try done.
    1:{ shapes; good_facts; by read_trace. }
    all: exfalso; destruct Hh as (Hh & _); by eapply Hfail.
  - intros rev ids nodes Hin Hn.
    pose proof (projected answered_nodes _ _ _ Hin eq_refl) as Hq. clear Hin.
    SequenceBatch_cases Hr; subst; trace_eq; try done.
    1:{ shapes; good_facts; by read_trace. }
    all: exfalso; shapes; good_projections; read_projections; find_answer Hq.
  - intros W HW Hneq.
    pose proof (projected reported_revision _ _ _ HW eq_refl) as Hp. clear HW.
    SequenceBatch_cases Hr; subst; trace_eq; try done.
    1:{ exfalso. shapes; good_projections; read_projections;
          by apply elem_of_nil in Hp. }
    1:{ shapes. good_projections. good_facts. read_projections.
        apply list_elem_of_singleton in Hp. simplify_eq.
        split; [by read_trace|done]. }
    all: exfalso; shapes; good_projections; read_projections;
      apply list_elem_of_singleton in Hp; congruence.
  - intros i err Hi Herr.
    SequenceBatch_cases Hr; subst; trace_eq; try done.
    1-3: shapes; good_facts; by read_trace.
    all: exfalso; destruct Hh as (_ & _ & Hsz & _); rewrite <- Hsz in Herr;
      destruct (sequenceLeaves_leaf_ids _ _ _ _ _ _ _ Hseq Hi) as [id Hid];
      congruence.
Qed.

(** C1.  After the transaction is opened, a failing call of a collaborator
    that comes before any Commit (dequeuing, reading the root, fetching a
    node, updating the leaves, setting the nodes, signing, storing the tree
    head) makes SequenceBatch return that error with count 0 without ever
    committing.  Every run that does not reach a Commit returns an error with
    count 0 after a Rollback of the transaction as its last call, so that the
    committed storage is what it was before the call and the transaction is
    released.  And a Commit is reached only when nothing has failed: either
    no leaves were dequeued and nothing was written, or the hydration
    succeeded, the write revision was the tree revision plus 1, sequenceLeaves
    returned without error and every call before the Commit succeeded, the
    leaves, the nodes and the tree head being written.  So a failed check of
    the sequencer itself leads to no Commit, hence to the Rollback and the
    error: a hydration that does not succeed (node id, node count, root
    mismatch), a fetch answered with other than one node, a write revision
    other than expected (which is returned as the revision-conflict error),
    a leaf whose node id cannot be made. *)
Theorem SequenceBatch_failure_rolls_back (o : Oracle) (s : Sequencer)
    (limit : Z) (expiryFunc : SignedLogRoot -> bool)
    (out : Outcome (Z * option error)) (tx : TX) (rest : list event)
    (w : Storage) :
  run o (SequenceBatch s limit expiryFunc) = (out, Ev Begin (Ok tx) :: rest) ->
  (forall err, first_failure rest = Some err ->
               calls_commit rest = false /\ out = Done (0, Some err))
  /\ (calls_commit rest = false ->
      exists err pre r,
        out = Done (0, Some err)
        /\ rest = pre ++ [Ev (Rollback tx) r]
        /\ calls_rollback pre = false
        /\ committed (replay w (Ev Begin (Ok tx) :: rest)) = committed w
        /\ pending (replay w (Ev Begin (Ok tx) :: rest)) !! tx = None)
  /\ (calls_commit rest = true ->
      exists leaves cur rest',
        rest = Ev (DequeueLeaves tx limit) (Ok leaves)
                 :: Ev (LatestSignedLogRoot tx) (Ok cur) :: rest'
        /\ ((leaves = [] /\ exists r tr2, rest' = Ev (Commit tx) r :: tr2)
            \/ (leaves <> []
                /\ exists trh mt0 mt nodeMap seqs post e,
                     rest' = trh ++ Ev (WriteRevision tx)
                                      (add64 (TreeRevision cur) 1)
                               :: post ++ [Ev (Commit tx) e]
                     /\ hydrated s cur tx trh mt0
                     /\ sequenceLeaves s mt0 leaves = (mt, Ok (nodeMap, seqs))
                     /\ Forall (fun ev => failure ev = None) (trh ++ post)
                     /\ omap write_of post
                        = [WriteLeaves; WriteNodes; WriteRoot]
                     /\ calls_commit (trh ++ post) = false
                     /\ calls_rollback rest' = false)))
  /\ (forall leaves cur rest',
        rest = Ev (DequeueLeaves tx limit) (Ok leaves)
                 :: Ev (LatestSignedLogRoot tx) (Ok cur) :: rest' ->
        leaves <> [] ->
        ((forall trh post mt0,
            rest' = trh ++ post ->
            ~ runs (initMerkleTreeFromStorage s cur tx) trh (Done (Ok mt0))) ->
         calls_commit rest = false)
        /\ (forall rev ids nodes,
              Ev (GetMerkleNodes tx rev ids) (Ok nodes) ∈ rest' ->
              slice_len nodes <> 1 ->
              calls_commit rest = false)
        /\ (forall W,
              Ev (WriteRevision tx) W ∈ rest' ->
              W <> add64 (TreeRevision cur) 1 ->
              calls_commit rest = false
              /\ out = Done (0, Some (ErrWriteRevision W
                                        (add64 (TreeRevision cur) 1))))
        /\ (forall (i : nat) err,
              (i < length leaves)%nat ->
              NewNodeIDForTreeCoords 0 (TreeSize cur + Z.of_nat i)
                maxTreeDepth = Error err ->
              calls_commit rest = false)).
Proof.
  intros Hrun.
  destruct (SequenceBatch_aborts o s limit expiryFunc out tx rest w Hrun)
    as [Hfail Habort].
  apply run_runs in Hrun.
  split; [exact Hfail|]. split; [exact Habort|].
  split; [exact (SequenceBatch_commit_runs _ _ _ _ _ _ Hrun)|].
  intros leaves cur rest' -> Hne.
  exact (SequenceBatch_failed_checks s limit expiryFunc tx leaves cur rest'
           out Hrun Hne).
Qed.

End Proofs.

(** ** The code at work *)

Section Examples.

#[local] Existing Instance demo_instance.

(** C5.  In the empty-batch branch the result of Commit is not looked at:
    with an expiry function that says no, a Commit that fails is followed by
    the return of count 0 and no error, for every transaction, root and
    error; the scripted run shows it end to end. *)
Theorem SequenceBatch_empty_batch_drops_commit_error :
  (forall (pkg : Packages) (s : Sequencer) (limit : Z) (tx : TX)
          (cur : SignedLogRoot) (err : error),
      runs (SequenceBatch s limit (fun _ => false))
        [Ev Begin (Ok tx); Ev (DequeueLeaves tx limit) (Ok []);
         Ev (LatestSignedLogRoot tx) (Ok cur); Ev (Commit tx) (Some err)]
        (Done (0, None)))
  /\ run (scripted 64 [] (demo_root 64 0 0 []) None 1 (Some 3%nat))
       (SequenceBatch demo_sequencer 10 (never 64))
     = (Done (0, None),
        [Ev Begin (Ok 1); Ev (DequeueLeaves 1 10) (Ok []);
         Ev (LatestSignedLogRoot 1) (Ok (demo_root 64 0 0 []));
         Ev (Commit 1) (Some (Err "commit"))]).
Proof.
  split.
  - intros pkg s limit tx cur err. unfold SequenceBatch. simpl.
    repeat (eexists _, _; split; [reflexivity|]; simpl). done.
  - reflexivity.
Qed.

(** ** The theorems at work on the scripted runs *)

(** A batch of three on a fresh log whose UpdateSequencedLeaves fails, and
    one whose transaction reports write revision 5. *)
Lemma SequenceBatch_failure_rolls_back_witness :
  let r := demo_run 64 demo_batch (fresh_root 64) None 1 (Some 4%nat) in
  let r' := demo_run 64 demo_batch (fresh_root 64) None 5 None in
  r.1 = Done (0, Some (Err "update"))
  /\ first_failure (tail r.2) = Some (Err "update")
  /\ committed (replay (empty_storage 64) r.2) = committed (empty_storage 64)
  /\ pending (replay (empty_storage 64) r.2) !! 1 = None
  /\ calls_commit (tail r'.2) = false
  /\ r'.1 = Done (0, Some (ErrWriteRevision 5
                             (add64 (TreeRevision (fresh_root 64)) 1))).
Proof.
  intros r r'.
  destruct (SequenceBatch_failure_rolls_back
              (scripted 64 demo_batch (fresh_root 64) None 1 (Some 4%nat))
              demo_sequencer 10 (never 64) r.1 1 (tail r.2)
              (empty_storage 64)) as (Hfail & Habort & _ & _).
  { reflexivity. }
  destruct (Hfail (Err "update")) as [_ Hout]; [reflexivity|].
  destruct Habort as (err & pre & rb & _ & _ & _ & Hc & Hp);
    [reflexivity|].
  destruct (SequenceBatch_failure_rolls_back
              (scripted 64 demo_batch (fresh_root 64) None 5 None)
              demo_sequencer 10 (never 64) r'.1 1 (tail r'.2)
              (empty_storage 64)) as (_ & _ & _ & Hchecks).
  { reflexivity. }
  destruct (Hchecks demo_batch (fresh_root 64) (drop 3 r'.2))
    as (_ & _ & Hrevision & _).
  { reflexivity. }
  { discriminate. }
  destruct (Hrevision 5) as [Hc' Hout'].
  { apply (list_elem_of_lookup_2 _ 0%nat). reflexivity. }
  { discriminate. }
  split; [exact Hout|]. split; [reflexivity|].
  split; [exact Hc|]. split; [exact Hp|]. split; [exact Hc'|exact Hout'].
Defined.

(** A batch of three on a fresh log, nothing failing. *)
Lemma SequenceBatch_stores_new_tree_head_witness :
  let r := demo_run 64 demo_batch (fresh_root 64) None 1 None in
  r.1 = Done (3, None)
  /\ exists sth,
      omap stored_root (drop 3 r.2) = [(1, sth)]
      /\ TreeSize sth = 3 /\ TreeRevision sth = 1 /\ LogId sth = 66.
Proof.
  intros r.
  destruct (SequenceBatch_stores_new_tree_head
              (scripted 64 demo_batch (fresh_root 64) None 1 None)
              demo_sequencer 10 (never 64) 3 1 demo_batch (fresh_root 64)
              (drop 3 r.2))
    as (trh & mt0 & mt & nodeMap & seqs & W & sth & Hh & Hs & HW & Hst & Hom
        & Hlog & Hsz & Hsz' & Hroot & Hrev & HWeq & HW1 & Hn).
  { vm_compute. reflexivity. }
  { discriminate. }
  split; [vm_compute; reflexivity|]. exists sth. split; [exact Hom|].
  split; [by rewrite Hsz, Hsz'|]. split; [by rewrite Hrev, HWeq|exact Hlog].
Defined.

Lemma sequence_numbers_follow_dequeue_order_witness :
  let r := demo_run 64 demo_batch (fresh_root 64) None 1 None in
  let written := [withSequenceNumber (demo_leaf x61) 0;
                  withSequenceNumber (demo_leaf x62) 1;
                  withSequenceNumber (demo_leaf x63) 2] in
  (demo_sequenced 64).2 = Ok (demo_node_map 64, [0; 1; 2])
  /\ (exists leaves' leaf',
        assignSequenceNumbers demo_batch [0; 1; 2] 0 = Some leaves'
        /\ leaves' !! 2%nat = Some leaf'
        /\ SequenceNumber leaf' = 2
        /\ LeafHash leaf' = [x00; x63])
  /\ (exists leaf',
        written !! 2%nat = Some leaf' /\ SequenceNumber leaf' = 2)
  /\ omap updated_leaves (drop 3 r.2) = [(1, written)].
Proof.
  intros r written.
  destruct (sequence_numbers_follow_dequeue_order
              demo_sequencer
              (NewCompactMerkleTree demo_hasher) (demo_sequenced 64).1
              demo_batch (demo_node_map 64) [0; 1; 2]
              (scripted 64 demo_batch (fresh_root 64) None 1 None) 10
              (never 64) r.1 1 demo_batch (fresh_root 64) (drop 3 r.2)
              written None)
    as (Hpure & Hrun).
  destruct Hpure as (Hseqs & leaves' & Ha & Hl & Hi);
    [reflexivity|].
  destruct Hrun as (Hlen & Hwritten);
    [reflexivity|apply (list_elem_of_lookup_2 _ 1%nat); reflexivity|].
  destruct (Hi 2%nat (demo_leaf x63) eq_refl)
    as (_ & leaf' & Hleaf' & Hnumber & Hhash & _).
  destruct (Hwritten 2%nat (demo_leaf x63) eq_refl)
    as (leaf'' & Hleaf'' & Hnumber' & _).
  split; [reflexivity|]. split; [|split].
  - exists leaves', leaf'. split; [exact Ha|]. split; [exact Hleaf'|].
    split; [exact Hnumber|exact Hhash].
  - exists leaf''. split; [exact Hleaf''|exact Hnumber'].
  - reflexivity.
Defined.


(** The transaction reports write revision 5 on a log at revision 0. *)
Lemma SequenceBatch_revision_conflict_witness :
  let r := demo_run 64 demo_batch (fresh_root 64) None 5 None in
  r.1 = Done (0, Some (ErrWriteRevision 5 1))
  /\ writes (drop 3 r.2) = false /\ calls_commit (drop 3 r.2) = false.
Proof.
  intros r.
  destruct (SequenceBatch_revision_conflict
              (scripted 64 demo_batch (fresh_root 64) None 5 None)
              demo_sequencer 10 (never 64) r.1 1 demo_batch (fresh_root 64)
              (drop 3 r.2) 5) as (Hout & _ & Hw & Hc).
  { vm_compute. reflexivity. }
  { discriminate. }
  { vm_compute. apply list_elem_of_here. }
  { vm_compute. discriminate. }
  split; [exact Hout|]. split; [exact Hw|exact Hc].
Defined.

(** A log of one leaf whose node fetch is answered with no node. *)
Lemma hydration_needs_exactly_one_node_witness :
  let o := scripted 64 demo_batch (one_leaf_root 64) (Some []) 2 None in
  (run o (buildMerkleTreeFromStorageAtRoot demo_sequencer (one_leaf_root 64)
            1)).1
  = Done (Error (ErrNodeCount 0 "0/0" 1))
  /\ (run o (SequenceBatch demo_sequencer 10 (never 64))).1
     = Done (0, Some (ErrNodeCount 0 "0/0" 1))
  /\ (run o (SignRoot demo_sequencer)).1
     = Done (Some (ErrNodeCount 0 "0/0" 1)).
Proof.
  intros o.
  destruct (hydration_needs_exactly_one_node o demo_sequencer
              (one_leaf_root 64) 1 10 (never 64) 1 1 [(0, 0)] (Some []))
    as (H1 & H2 & H3).
  { right. vm_compute. discriminate. }
  split; [|split].
  - destruct (H1 (run o (buildMerkleTreeFromStorageAtRoot demo_sequencer
                           (one_leaf_root 64) 1)).1
                 (run o (buildMerkleTreeFromStorageAtRoot demo_sequencer
                           (one_leaf_root 64) 1)).2)
      as (id & pre & _ & _ & Hid & _ & Hout).
    { vm_compute. reflexivity. }
    { vm_compute. repeat constructor. }
    injection Hid as <-. exact Hout.
  - destruct (H2 (run o (SequenceBatch demo_sequencer 10 (never 64))).1
                 (run o (SequenceBatch demo_sequencer 10 (never 64))).2)
      as (id & pre & rb & Hid & _ & Hout).
    { vm_compute. reflexivity. }
    { vm_compute. repeat constructor. }
    injection Hid as <-. exact Hout.
  - destruct (H3 (run o (SignRoot demo_sequencer)).1
                 (run o (SignRoot demo_sequencer)).2)
      as (id & pre & rb & Hid & _ & Hout).
    { vm_compute. reflexivity. }
    { vm_compute. repeat constructor. }
    injection Hid as <-. exact Hout.
Defined.

(** SignRoot on a fresh log. *)
Lemma SignRoot_stores_next_revision_witness :
  let r := demo_sign_run 64 (fresh_root 64) None None in
  r.1 = Done None
  /\ exists tx sth,
      Ev (StoreSignedLogRoot tx sth) None ∈ r.2
      /\ TreeRevision sth = 1 /\ TreeSize sth = 0
      /\ RootHash sth = HashEmpty demo_hasher.
Proof.
  intros r.
  destruct (SignRoot_stores_next_revision
              (scripted 64 [] (fresh_root 64) None 1 None) demo_sequencer
              r.1 r.2) as [Hstored Hfields].
  { vm_compute. reflexivity. }
  split; [vm_compute; reflexivity|].
  exists 1, (withSignature
               (newLogRoot (NewCompactMerkleTree demo_hasher) 12345
                  (fresh_root 64) 1) [x2a]).
  destruct (Hfields 1
              (withSignature
                 (newLogRoot (NewCompactMerkleTree demo_hasher) 12345
                    (fresh_root 64) 1) [x2a]) None (fresh_root 64))
    as (trh & mt & _ & _ & _ & _ & _ & _ & Hzero & Hone).
  { vm_compute. repeat constructor. }
  { vm_compute. repeat constructor. }
  split; [vm_compute; repeat constructor|].
  destruct (Hzero eq_refl) as (_ & Hsize & Hroot).
  split; [exact (Hone eq_refl)|]. split; [exact Hsize|exact Hroot].
Defined.

Lemma SequenceBatch_count_mismatch_is_fatal_witness :
  (exists msg,
     SequenceBatch_store demo_sequencer 1 [] (fresh_root 64)
       (NewCompactMerkleTree demo_hasher) 1 ∅ [0] = Panic msg)
  /\ length [0; 1; 2] = length demo_batch.
Proof.
  destruct (SequenceBatch_count_mismatch_is_fatal
              (pkg := demo_packages 64) demo_sequencer 1 (fresh_root 64) 1 10
              (never 64) (scripted 64 demo_batch (fresh_root 64) None 1 None)
              [] [0] (NewCompactMerkleTree demo_hasher) ∅
              (NewCompactMerkleTree demo_hasher) (demo_sequenced 64).1
              demo_batch (demo_node_map 64) [0; 1; 2])
    as (Hpanic & Hlen & _).
  split.
  - apply Hpanic. simpl. lia.
  - apply Hlen. vm_compute. reflexivity.
Defined.

Lemma SequenceBatch_count_zero_on_error_witness :
  let r := demo_run 64 demo_batch (fresh_root 64) None 1 None in
  r.1 = Done (3, None)
  /\ exists pre, r.2 = pre ++ [Ev (Commit 1) None].
Proof.
  intros r.
  destruct (SequenceBatch_count_zero_on_error
              (scripted 64 demo_batch (fresh_root 64) None 1 None)
              demo_sequencer 10 (never 64) 3 None r.2) as [_ Hsuccess].
  { vm_compute. reflexivity. }
  split; [vm_compute; reflexivity|].
  destruct Hsuccess as (_ & tx & leaves & pre & _ & _ & _ & Hlast & _);
    [lia|].
  exists pre. rewrite Hlast. f_equal. f_equal.
  assert (Hl : last r.2 = Some (Ev (Commit tx) None))
    by (rewrite Hlast; apply last_snoc).
  vm_compute in Hl. apply (f_equal (option_map record)) in Hl.
  simpl in Hl. by injection Hl as <-.
Defined.

End Examples.

#[local] Existing Instance demo_instance.

(** ** Further runs of the code *)

(** The node map of the batch of three, stamped with revision 7. *)
Lemma buildNodesFromNodeMap_stamps_revision_witness :
  exists nodes,
    buildNodesFromNodeMap demo_sequencer (demo_node_map 64) 7 = Ok nodes
    /\ length nodes = size (demo_node_map 64)
    /\ Forall (fun node => NodeRevision node = 7) nodes.
Proof.
  destruct (buildNodesFromNodeMap_stamps_revision (pkg := demo_packages 64)
              demo_sequencer (demo_node_map 64) 7)
    as (nodes & Hok & Hlen & Hrev & _).
  exists nodes. split; [exact Hok|]. split; [exact Hlen|exact Hrev].
Defined.

(** With node ids that cannot be made at all the first leaf stops the
    batch; with the node ids of the demo every leaf goes through. *)
Lemma sequenceLeaves_fails_at_first_bad_leaf_id_witness :
  (exists mt',
     sequenceLeaves (pkg := demo_packages (-1)) demo_sequencer
       (NewCompactMerkleTree demo_hasher) demo_batch
     = (mt', Error (Err "depth/index combination out of range")))
  /\ exists mt' nodeMap seqs,
       sequenceLeaves (pkg := demo_packages 64) demo_sequencer
         (NewCompactMerkleTree demo_hasher) demo_batch
       = (mt', Ok (nodeMap, seqs)).
Proof.
  split.
  - destruct (sequenceLeaves_fails_at_first_bad_leaf_id
                (pkg := demo_packages (-1)) demo_sequencer
                (NewCompactMerkleTree demo_hasher) demo_batch)
      as (_ & _ & Hfail & _).
    apply (Hfail 0%nat (Err "depth/index combination out of range")).
    + simpl. lia.
    + reflexivity.
    + intros j Hj. lia.
  - destruct (sequenceLeaves_fails_at_first_bad_leaf_id
                (pkg := demo_packages 64) demo_sequencer
                (NewCompactMerkleTree demo_hasher) demo_batch)
      as (_ & Hok & _).
    apply Hok. intros i Hi. exists (0, Z.of_nat i).
    simpl in Hi. simpl. unfold maxTreeDepth.
    destruct i as [|[|[|i]]]; [reflexivity..|lia].
Defined.

(** The batch of three on the empty tree. *)
Lemma sequenceLeaves_node_map_entries_witness :
  map_Forall
    (recorded (node_updates (NewCompactMerkleTree demo_hasher) demo_batch))
    (demo_node_map 64)
  /\ (size (demo_node_map 64)
      <= length (node_updates (NewCompactMerkleTree demo_hasher) demo_batch))%nat.
Proof.
  apply (sequenceLeaves_node_map_entries (pkg := demo_packages 64)
           demo_sequencer (NewCompactMerkleTree demo_hasher)
           (demo_sequenced 64).1 demo_batch (demo_node_map 64) [0; 1; 2]).
  reflexivity.
Defined.

Lemma sequenceLeaves_records_every_leaf_witness :
  exists id node,
    [0; 1; 2] !! 2%nat = Some (Size (NewCompactMerkleTree demo_hasher) + 2)
    /\ NewNodeIDForTreeCoords (Packages := demo_packages 64) 0
         (Size (NewCompactMerkleTree demo_hasher) + 2) maxTreeDepth = Ok id
    /\ demo_node_map 64 !! NodeID_String id = Some node.
Proof.
  apply (sequenceLeaves_records_every_leaf (pkg := demo_packages 64)
           demo_sequencer (NewCompactMerkleTree demo_hasher)
           (demo_sequenced 64).1 demo_batch (demo_node_map 64) [0; 1; 2]
           2%nat (demo_leaf x63)).
  - reflexivity.
  - reflexivity.
Defined.

(** The first leaf of the batch, then the second. *)
Lemma sequenceLeaves_app_witness :
  let mt0 := NewCompactMerkleTree demo_hasher in
  let r1 := sequenceLeaves (pkg := demo_packages 64) demo_sequencer mt0
              [demo_leaf x61] in
  let r2 := sequenceLeaves (pkg := demo_packages 64) demo_sequencer r1.1
              [demo_leaf x62] in
  sequenceLeaves (pkg := demo_packages 64) demo_sequencer mt0
    ([demo_leaf x61] ++ [demo_leaf x62])
  = (r2.1, Ok (node_map_of r2.2 ∪ node_map_of r1.2,
               numbers_of r1.2 ++ numbers_of r2.2)).
Proof.
  intros mt0 r1 r2.
  apply (sequenceLeaves_app (pkg := demo_packages 64) demo_sequencer mt0 r1.1
           r2.1 [demo_leaf x61] [demo_leaf x62]).
  - reflexivity.
  - reflexivity.
Defined.

(** Four sequence numbers for the batch of three. *)
Lemma assignSequenceNumbers_out_of_range_witness :
  assignSequenceNumbers demo_batch [0; 1; 2; 3] 0 = None.
Proof.
  apply (assignSequenceNumbers_out_of_range demo_batch [0; 1; 2; 3] 0).
  split; [discriminate|simpl; lia].
Defined.

(** The node of the first leaf, fetched for the log of one leaf. *)
Lemma getNode_asks_for_one_node_witness :
  let o := scripted 64 [] (one_leaf_root 64) (Some [demo_node 64]) 2 None in
  let r := run o (getNode (one_leaf_root 64) 1 0 0) in
  exists id node,
    r.2 = [Ev (GetMerkleNodes 1 (TreeRevision (one_leaf_root 64)) [id])
             (Ok (Some [node]))]
    /\ Node_Hash node = [x00; x61].
Proof.
  intros o r.
  destruct (getNode_asks_for_one_node (pkg := demo_packages 64) o
              (one_leaf_root 64) 1 0 0 r.1 r.2) as (_ & _ & Hhash & _).
  { reflexivity. }
  apply (Hhash [x00; x61]). reflexivity.
Defined.

Lemma buildMerkleTreeFromStorageAtRoot_only_fetches_witness :
  let o := scripted 64 [] (one_leaf_root 64) (Some [demo_node 64]) 2 None in
  let r := run o (buildMerkleTreeFromStorageAtRoot demo_sequencer
                    (one_leaf_root 64) 1) in
  (exists res, r.1 = Done res)
  /\ Forall (fun e => exists id resp,
               e = Ev (GetMerkleNodes 1 (TreeRevision (one_leaf_root 64)) [id])
                     resp) r.2.
Proof.
  intros o r.
  destruct (buildMerkleTreeFromStorageAtRoot_only_fetches
              (pkg := demo_packages 64) o demo_sequencer (one_leaf_root 64) 1
              r.1 r.2) as (Hdone & Hfetch & _).
  { reflexivity. }
  split; [exact Hdone|exact Hfetch].
Defined.

(** A signer that cannot sign. *)
Lemma signRoot_returns_what_the_signer_says_witness :
  let o := scripted 64 [] (fresh_root 64) None 1 (Some 1%nat) in
  let r := run o (signRoot demo_sequencer (fresh_root 64)) in
  Forall (fun e => is_signing e = true) r.2.
Proof.
  intros o r.
  destruct (signRoot_returns_what_the_signer_says (pkg := demo_packages 64) o
              demo_sequencer (fresh_root 64) r.1 r.2) as [Hsigning _].
  { reflexivity. }
  exact Hsigning.
Defined.

(** SignRoot on a storage that cannot begin a transaction. *)
Lemma SignRoot_begin_failure_witness :
  let r := demo_sign_run 64 (fresh_root 64) None (Some 0%nat) in
  tail r.2 = [] /\ r.1 = Done (Some (Err "begin")).
Proof.
  intros r.
  apply (SignRoot_begin_failure (pkg := demo_packages 64)
           (scripted 64 [] (fresh_root 64) None 1 (Some 0%nat))
           demo_sequencer r.1 (Err "begin") (tail r.2)).
  reflexivity.
Defined.

(** SignRoot whose StoreSignedLogRoot fails. *)
Lemma SignRoot_failure_rolls_back_witness :
  let r := demo_sign_run 64 (fresh_root 64) None (Some 5%nat) in
  calls_commit (tail r.2) = false /\ r.1 = Done (Some (Err "store")).
Proof.
  intros r.
  destruct (SignRoot_failure_rolls_back (pkg := demo_packages 64)
              (scripted 64 [] (fresh_root 64) None 1 (Some 5%nat))
              demo_sequencer r.1 1 (tail r.2)) as [Hfail _].
  { reflexivity. }
  apply (Hfail (Err "store")). reflexivity.
Defined.

(** SignRoot whose Commit fails. *)
Lemma SignRoot_returns_commit_result_witness :
  let r := demo_sign_run 64 (fresh_root 64) None (Some 6%nat) in
  exists pre tx root e,
    r.2 = pre ++ [Ev (StoreSignedLogRoot tx root) None; Ev (Commit tx) e]
    /\ r.1 = Done e
    /\ calls_commit pre = false /\ calls_rollback pre = false
    /\ Forall (fun ev => failure ev = None) pre.
Proof.
  intros r.
  destruct (SignRoot_returns_commit_result (pkg := demo_packages 64)
              (scripted 64 [] (fresh_root 64) None 1 (Some 6%nat))
              demo_sequencer r.1 r.2) as (_ & Hcommit & _).
  { reflexivity. }
  apply Hcommit. reflexivity.
Defined.

(** SignRoot on the log of one leaf. *)
Lemma SignRoot_sequences_nothing_witness :
  let r := demo_sign_run 64 (one_leaf_root 64) (Some [demo_node 64]) None in
  existsb is_sequencing r.2 = false
  /\ (exists b rest, r.2 = Ev Begin b :: rest /\ existsb is_begin rest = false)
  /\ (length (omap stored_root r.2) <= 1)%nat.
Proof.
  intros r.
  apply (SignRoot_sequences_nothing (pkg := demo_packages 64)
           (scripted 64 [] (one_leaf_root 64) (Some [demo_node 64]) 1 None)
           demo_sequencer r.1 r.2).
  reflexivity.
Defined.

Lemma SignRoot_stays_in_its_transaction_witness :
  let r := demo_sign_run 64 (one_leaf_root 64) (Some [demo_node 64]) None in
  forallb (on_tx 1) (tail r.2) = true.
Proof.
  intros r.
  apply (SignRoot_stays_in_its_transaction (pkg := demo_packages 64)
           (scripted 64 [] (one_leaf_root 64) (Some [demo_node 64]) 1 None)
           demo_sequencer r.1 1 (tail r.2)).
  reflexivity.
Defined.

Lemma SignRoot_stores_what_was_signed_witness :
  let r := demo_sign_run 64 (fresh_root 64) None None in
  let sth := default (fresh_root 64) (root_stored r.2) in
  exists unsigned sg,
    sth = withSignature unsigned sg
    /\ Signature unsigned = None
    /\ omap made_signature r.2 = [(unsigned, sg)]
    /\ omap clock_read r.2 = [TimestampNanos sth]
    /\ omap stored_root r.2 = [(1, sth)]
    /\ Signature sth = Some sg
    /\ TimestampNanos sth = TimestampNanos unsigned
    /\ RootHash sth = RootHash unsigned
    /\ TreeSize sth = TreeSize unsigned
    /\ LogId sth = LogId unsigned
    /\ TreeRevision sth = TreeRevision unsigned.
Proof.
  intros r sth.
  apply (SignRoot_stores_what_was_signed (pkg := demo_packages 64)
           (scripted 64 [] (fresh_root 64) None 1 None) demo_sequencer r.1 r.2
           1 sth None).
  - reflexivity.
  - apply (list_elem_of_lookup_2 _ 5%nat). reflexivity.
Defined.

(** SequenceBatch on a storage that cannot begin a transaction. *)
Lemma SequenceBatch_begin_failure_witness :
  let r := demo_single_run 64 (never 64) [demo_leaf x61] (Some 0%nat) in
  tail r.2 = [] /\ r.1 = Done (0, Some (Err "begin")).
Proof.
  intros r.
  apply (SequenceBatch_begin_failure (pkg := demo_packages 64)
           (scripted 64 [demo_leaf x61] (fresh_root 64) None 1 (Some 0%nat))
           demo_sequencer 10 (never 64) r.1 (Err "begin") (tail r.2)).
  reflexivity.
Defined.

(** An empty batch, with a root that is fresh and with one that has
    expired. *)
Lemma SequenceBatch_nothing_to_sequence_witness :
  let r := demo_single_run 64 (never 64) [] None in
  let r' := demo_single_run 64 (always 64) [] None in
  (exists c tr2 e,
     drop 3 r.2 = Ev (Commit 1) c :: tr2 /\ r.1 = Done (0, e)
     /\ tr2 = [] /\ e = None)
  /\ (exists c tr2 b rest',
        drop 3 r'.2 = Ev (Commit 1) c :: tr2 /\ tr2 = Ev Begin b :: rest').
Proof.
  intros r r'. split.
  - destruct (SequenceBatch_nothing_to_sequence (pkg := demo_packages 64)
                (scripted 64 [] (fresh_root 64) None 1 None) demo_sequencer 10
                (never 64) r.1 1 (fresh_root 64) (drop 3 r.2))
      as (c & tr2 & e & Hrest & Hout & _ & Hfresh & _).
    { reflexivity. }
    destruct (Hfresh eq_refl) as [Htr2 He].
    exists c, tr2, e. split; [exact Hrest|]. split; [exact Hout|].
    split; [exact Htr2|exact He].
  - destruct (SequenceBatch_nothing_to_sequence (pkg := demo_packages 64)
                (scripted 64 [] (fresh_root 64) None 1 None) demo_sequencer 10
                (always 64) r'.1 1 (fresh_root 64) (drop 3 r'.2))
      as (c & tr2 & e & Hrest & _ & _ & _ & Hexpired).
    { reflexivity. }
    destruct (Hexpired eq_refl) as (b & rest' & Htr2).
    exists c, tr2, b, rest'. split; [exact Hrest|exact Htr2].
Defined.

(** A batch of one leaf with node ids that cannot be made at all. *)
Lemma SequenceBatch_leaf_id_error_aborts_witness :
  let r := demo_single_run (-1) (never (-1)) [demo_leaf x61] None in
  r.1 = Done (0, Some (Err "depth/index combination out of range"))
  /\ writes (drop 3 r.2) = false
  /\ calls_commit (drop 3 r.2) = false.
Proof.
  intros r.
  destruct (SequenceBatch_leaf_id_error_aborts (pkg := demo_packages (-1))
              (scripted (-1) [demo_leaf x61] (fresh_root (-1)) None 1 None)
              demo_sequencer 10 (never (-1)) r.1 1 [demo_leaf x61]
              (fresh_root (-1)) (drop 3 r.2) 0%nat
              (Err "depth/index combination out of range"))
    as (Hout & _ & Hw & Hc).
  { reflexivity. }
  { apply (list_elem_of_lookup_2 _ 0%nat). reflexivity. }
  { simpl. lia. }
  { reflexivity. }
  { intros j Hj. lia. }
  split; [exact Hout|]. split; [exact Hw|exact Hc].
Defined.

(** A batch of one leaf whose final Commit fails. *)
Lemma SequenceBatch_final_commit_failure_witness :
  let r := demo_single_run 64 (never 64) [demo_leaf x61] (Some 10%nat) in
  r.1 = Done (0, Some (Err "commit"))
  /\ calls_rollback (drop 3 r.2) = false.
Proof.
  intros r.
  destruct (SequenceBatch_final_commit_failure (pkg := demo_packages 64)
              (scripted 64 [demo_leaf x61] (fresh_root 64) None 1
                 (Some 10%nat))
              demo_sequencer 10 (never 64) r.1 1 [demo_leaf x61]
              (fresh_root 64) (drop 3 r.2) (Err "commit"))
    as (Hout & _ & Hrb).
  { reflexivity. }
  { discriminate. }
  { apply (list_elem_of_lookup_2 _ 7%nat). reflexivity. }
  split; [exact Hout|exact Hrb].
Defined.

(** A batch of one leaf, nothing failing. *)
Lemma SequenceBatch_nodes_at_write_revision_witness :
  let r := demo_single_run 64 (never 64) [demo_leaf x61] None in
  exists W,
    omap reported_revision r.2 = [(1, W)]
    /\ Forall (fun node => NodeRevision node = W) (nodes_written r.2)
    /\ omap written_nodes r.2 = [(1, nodes_written r.2)].
Proof.
  intros r.
  destruct (SequenceBatch_nodes_at_write_revision (pkg := demo_packages 64)
              (scripted 64 [demo_leaf x61] (fresh_root 64) None 1 None)
              demo_sequencer 10 (never 64) r.1 r.2 1 (nodes_written r.2) None)
    as (leaves & cur & trh & mt0 & mt & nodeMap & seqs & W & _ & _ & _ & _
        & HW & _ & _ & Hrev & _ & Hset).
  { reflexivity. }
  { apply (list_elem_of_lookup_2 _ 5%nat). reflexivity. }
  exists W. split; [exact HW|]. split; [exact Hrev|exact Hset].
Defined.

Lemma SequenceBatch_write_order_witness :
  let r := demo_single_run 64 (never 64) [demo_leaf x61] None in
  omap write_of r.2 = [WriteLeaves; WriteNodes; WriteRoot].
Proof.
  intros r.
  destruct (SequenceBatch_write_order (pkg := demo_packages 64)
              (scripted 64 [demo_leaf x61] (fresh_root 64) None 1 None)
              demo_sequencer 10 (never 64) r.1 r.2) as [_ Hall].
  { reflexivity. }
  apply (Hall 1 None).
  - reflexivity.
  - discriminate.
Defined.

(** A batch of one leaf on the log of one leaf. *)
Lemma SequenceBatch_reads_before_writes_witness :
  let o := scripted 64 [demo_leaf x62] (one_leaf_root 64)
             (Some [demo_node 64]) 2 None in
  let r := run o (SequenceBatch demo_sequencer 10 (never 64)) in
  existsb is_read (from_first_write r.2) = false.
Proof.
  intros o r.
  apply (SequenceBatch_reads_before_writes (pkg := demo_packages 64) o
           demo_sequencer 10 (never 64) r.1 r.2).
  reflexivity.
Defined.

Lemma SequenceBatch_stays_in_its_transaction_witness :
  let r := demo_single_run 64 (always 64) [] None in
  exists pre tr2,
    tail r.2 = pre ++ tr2
    /\ forallb (on_tx 1) pre = true
    /\ existsb is_begin pre = false.
Proof.
  intros r.
  destruct (SequenceBatch_stays_in_its_transaction (pkg := demo_packages 64)
              (scripted 64 [] (fresh_root 64) None 1 None) demo_sequencer 10
              (always 64) r.1 1 (tail r.2))
    as (pre & tr2 & Hrest & Htx & Hbegin & _).
  { reflexivity. }
  exists pre, tr2. split; [exact Hrest|]. split; [exact Htx|exact Hbegin].
Defined.

Lemma SequenceBatch_stores_what_was_signed_witness :
  let r := demo_single_run 64 (never 64) [demo_leaf x61] None in
  let sth := default (fresh_root 64) (root_stored r.2) in
  exists unsigned sg,
    sth = withSignature unsigned sg
    /\ Signature unsigned = None
    /\ omap made_signature r.2 = [(unsigned, sg)]
    /\ omap clock_read r.2 = [TimestampNanos sth]
    /\ omap stored_root r.2 = [(1, sth)]
    /\ Signature sth = Some sg
    /\ TimestampNanos sth = TimestampNanos unsigned
    /\ RootHash sth = RootHash unsigned
    /\ TreeSize sth = TreeSize unsigned
    /\ LogId sth = LogId unsigned
    /\ TreeRevision sth = TreeRevision unsigned.
Proof.
  intros r sth.
  apply (SequenceBatch_stores_what_was_signed (pkg := demo_packages 64)
           (scripted 64 [demo_leaf x61] (fresh_root 64) None 1 None)
           demo_sequencer 10 (never 64) r.1 r.2 1 sth None).
  - reflexivity.
  - apply (list_elem_of_lookup_2 _ 9%nat). reflexivity.
Defined.

(** The batch of one leaf and SignRoot on the log without a tree head. *)
Lemma empty_log_needs_no_fetch_witness :
  let r := demo_single_run 64 (never 64) [demo_leaf x61] None in
  let r' := demo_sign_run 64 (fresh_root 64) None None in
  existsb is_get_nodes (drop 3 r.2) = false
  /\ existsb is_get_nodes (drop 2 r'.2) = false.
Proof.
  intros r r'.
  destruct (empty_log_needs_no_fetch (pkg := demo_packages 64)
              (scripted 64 [demo_leaf x61] (fresh_root 64) None 1 None)
              demo_sequencer 10 (never 64) 1 (fresh_root 64)) as [Hbatch _].
  { reflexivity. }
  destruct (empty_log_needs_no_fetch (pkg := demo_packages 64)
              (scripted 64 [] (fresh_root 64) None 1 None)
              demo_sequencer 10 (never 64) 1 (fresh_root 64)) as [_ Hsign].
  { reflexivity. }
  split.
  - apply (Hbatch r.1 [demo_leaf x61] (drop 3 r.2)).
    + reflexivity.
    + discriminate.
  - apply (Hsign r'.1 (drop 2 r'.2)). reflexivity.
Defined.
